(** * v3donationscript: a shallow embedding of the donation-receipt mailer

    The script reads a directory of PDF receipts, extracts an identification
    number (PAN) from each, resolves it to an email address through a table,
    copies the receipt into a staging folder, groups the staged receipts per
    recipient, mails each group with retries under a rate limit, and moves
    the receipts of every mailed group to a processed folder.

    Conventions of the embedding:
    - Python [str] values are [string]s (sequences of 8-bit characters, read
      as the code points below 256); paths follow [posixpath].
    - Python dictionaries keep insertion order and are iterated in that
      order, so they are association lists.
    - A cell of the table holds a [str] or another object, such as the
      [float] [nan] of an empty cell; the script uses its truth value and
      uses it as a dictionary key.
    - The outside world (configuration, PDF parser, table loader, directory
      listing, file system faults, SMTP server) is an explicit environment
      record; the effects of the script are recorded as a trace of events
      in the state, next to a monotonic clock in whole seconds and the
      counters of the rate limiter.  Time passes in [time.sleep] and in
      SMTP attempts only.
    - Code that may raise lives in a state-and-exception monad; the
      [while True] loop of the limiter runs on a budget of iterations. *)

From Stdlib Require Import List String Ascii ZArith Lia Bool Arith Permutation.
Import ListNotations.
Local Open Scope string_scope.
Local Open Scope list_scope.
Local Open Scope nat_scope.

(* ================================================================== *)
(** * Part I: the model                                                *)
(* ================================================================== *)

(** ** Strings *)

Module Str.

Definition code (c : ascii) : nat := nat_of_ascii c.

Definition in_range (lo hi : nat) (c : ascii) : bool :=
  (lo <=? code c) && (code c <=? hi).

(** [A-Z] and [0-9] of the pattern (no flags: plain ASCII ranges). *)
Definition is_upper : ascii -> bool := in_range 65 90.
Definition is_digit : ascii -> bool := in_range 48 57.

(** [\s] of a [str] pattern: the characters with [str.isspace()] among the
    code points below 256. *)
Definition is_space (c : ascii) : bool :=
  in_range 9 13 c || in_range 28 32 c || (code c =? 133) || (code c =? 160).

(** [str.lower()] on one character: A-Z and the Latin-1 capitals. *)
Definition lower_char (c : ascii) : ascii :=
  if is_upper c || (in_range 192 222 c && negb (code c =? 215))
  then ascii_of_nat (code c + 32) else c.

Fixpoint lower (s : string) : string :=
  match s with
  | EmptyString => EmptyString
  | String c s' => String (lower_char c) (lower s')
  end.

Fixpoint all (cls : ascii -> bool) (s : string) : bool :=
  match s with
  | EmptyString => true
  | String c s' => cls c && all cls s'
  end.

(** [s.startswith(p)], returning what follows the prefix. *)
Fixpoint strip_prefix (p s : string) : option string :=
  match p, s with
  | EmptyString, _ => Some s
  | String a p', String b s' =>
      if Ascii.eqb a b then strip_prefix p' s' else None
  | String _ _, EmptyString => None
  end.

Definition startswith (s p : string) : bool :=
  match strip_prefix p s with Some _ => true | None => false end.

(** [s.endswith(p)]: some suffix of [s] is [p]. *)
Fixpoint endswith (s p : string) : bool :=
  String.eqb s p ||
  match s with
  | EmptyString => false
  | String _ s' => endswith s' p
  end.

(** [p in s] for strings. *)
Fixpoint contains (s p : string) : bool :=
  startswith s p ||
  match s with
  | EmptyString => false
  | String _ s' => contains s' p
  end.

(** Greedy run of one character class. *)
Fixpoint skip_class (cls : ascii -> bool) (s : string) : string :=
  match s with
  | String c s' => if cls c then skip_class cls s' else s
  | EmptyString => s
  end.

(** One character per class of [shape], in order: the matched text and
    the rest. *)
Fixpoint take_shape (shape : list (ascii -> bool)) (s : string)
  : option (string * string) :=
  match shape with
  | [] => Some (EmptyString, s)
  | cls :: shape' =>
      match s with
      | String c s' =>
          if cls c then
            match take_shape shape' s' with
            | Some (m, r) => Some (String c m, r)
            | None => None
            end
          else None
      | EmptyString => None
      end
  end.

Fixpoint conforms (shape : list (ascii -> bool)) (s : string) : bool :=
  match shape, s with
  | [], EmptyString => true
  | cls :: shape', String c s' => cls c && conforms shape' s'
  | _, _ => false
  end.

Fixpoint concat (l : list string) : string :=
  match l with
  | [] => EmptyString
  | s :: l' => (s ++ concat l')%string
  end.

End Str.

(** ** posixpath *)

Module Path.

Definition sep : string := "/".

(** One step of [os.path.join]'s loop. *)
Definition join2 (path b : string) : string :=
  if Str.startswith b sep then b
  else if String.eqb path "" || Str.endswith path sep then (path ++ b)%string
  else (path ++ sep ++ b)%string.

(** [os.path.join(a, *p)]. *)
Definition join (a : string) (p : list string) : string :=
  fold_left join2 p a.

(** [os.path.basename(p)]: what follows the last separator. *)
Fixpoint basename (p : string) : string :=
  match p with
  | EmptyString => EmptyString
  | String c p' =>
      if Str.contains p' sep then basename p'
      else if Ascii.eqb c "/"%char then p' else p
  end.

End Path.

(** ** The pattern of [extract_pan_from_pdf] *)

Definition LABEL : string := "Unique Identification Number".

(** [[A-Z]{5}[0-9]{4}[A-Z]] *)
Definition PAN_SHAPE : list (ascii -> bool) :=
  repeat Str.is_upper 5 ++ repeat Str.is_digit 4 ++ [Str.is_upper].

Definition is_pan (s : string) : bool := Str.conforms PAN_SHAPE s.

(** The pattern anchored at the start of [s]: the label, [\s+] (greedy),
    then the captured group. *)
Definition match_here (s : string) : option string :=
  match Str.strip_prefix LABEL s with
  | Some (String c r) =>
      if Str.is_space c then
        match Str.take_shape PAN_SHAPE (Str.skip_class Str.is_space r) with
        | Some (group1, _) => Some group1
        | None => None
        end
      else None
  | _ => None
  end.

(** [re.search(pattern, text)] followed by [.group(1)]: the leftmost
    position at which the pattern matches. *)
Fixpoint re_search (text : string) : option string :=
  match match_here text with
  | Some group1 => Some group1
  | None =>
      match text with
      | EmptyString => None
      | String _ text' => re_search text'
      end
  end.

(** What the pattern denotes at a position: label, one or more white-space
    characters, a well-formed code, anything. *)
Definition matches_at (s code : string) : Prop :=
  exists ws post,
    s = (LABEL ++ ws ++ code ++ post)%string /\
    ws <> "" /\ Str.all Str.is_space ws = true /\ is_pan code = true.

(** [code] is the group captured by the leftmost match in [text]. *)
Definition first_match (text code : string) : Prop :=
  exists pre rest,
    text = (pre ++ rest)%string /\ matches_at rest code /\
    forall pre' rest' code',
      text = (pre' ++ rest')%string -> String.length pre' < String.length pre ->
      ~ matches_at rest' code'.


(** Truth value of a [str]. *)
Definition nonempty (s : string) : bool := negb (String.eqb s "").

(** A Python value as the script meets it in an address cell of the table:
    a [str], or an object that is not a [str].  [pandas.read_csv] puts the
    [float] [nan] in an empty cell, and a column of numbers holds numbers.
    Of such an object the model keeps what the script uses of it: its truth
    value, and [key], which tells whether two of them are one and the same
    dictionary key.  For [nan] that is whether they are the same object,
    since [nan != nan]; [read_csv] stores one and the same object in all
    the empty cells of a column of strings.  The object the script reads
    from a cell is taken to be the one the table holds. *)
Inductive value : Type :=
| Str (s : string)
| Obj (key : nat) (truth : bool).

Coercion Str : string >-> value.

(** The [float] [nan]: its truth value is [True]. *)
Definition nan (key : nat) : value := Obj key true.

(** [bool(v)], as [if v:] tests it. *)
Definition truthy (v : value) : bool :=
  match v with
  | Str s => nonempty s
  | Obj _ truth => truth
  end.

(** Dictionary keys.  Python finds a key by identity, then by [==]; on the
    values of the model both are equality, which is decidable. *)
Class Key (K : Type) : Type := mkKey {
  key_dec : forall x y : K, {x = y} + {x <> y};
  key_value : K -> value }.

#[global] Instance string_key : Key string := mkKey string string_dec Str.

Definition value_dec (x y : value) : {x = y} + {x <> y}.
Proof.
  decide equality; [apply string_dec | apply bool_dec | apply Nat.eq_dec].
Defined.

#[global] Instance value_key : Key value := mkKey value value_dec (fun v => v).

Definition key_eqb {K : Type} `{Key K} (x y : K) : bool :=
  if key_dec x y then true else false.
Arguments key_eqb : simpl never.

(** ** Exceptions, results and the environment *)

Inductive exn : Type :=
| KeyError (key : value)
| ValueError
| OSError (path : string)
| PdfReadError (path : string)
| SMTPException
| StopIteration
| RateLimitException (period_remaining : Z).

(** Outcome of a call that touches no state: a value or an exception. *)
Inductive reply (A : Type) : Type :=
| Value (a : A)
| Error (e : exn).
Arguments Value {A} a.
Arguments Error {A} e.

(** Outcome of a computation: a value, a raised exception, or the model's
    loop budget ran out (not an exception: no handler sees it). *)
Inductive res (A : Type) : Type :=
| Ok (a : A)
| Raise (e : exn)
| OutOfFuel.
Arguments Ok {A} a.
Arguments Raise {A} e.
Arguments OutOfFuel {A}.

Definition res_of_reply {A} (r : reply A) : res A :=
  match r with
  | Value a => Ok a
  | Error e => Raise e
  end.

(** The lookup table as [pandas.read_csv] returns it: the column labels and
    the rows, of which the script reads two cells.  A row whose identifier
    cell is not a [str] equals no identifier that is looked up, and is left
    out. *)
Record Row : Type := mkRow { PAN : string; eMail_ID : value }.
Record DataFrame : Type := mkDataFrame { columns : list string; rows : list Row }.

(** The three directories of [config['Directories']]. *)
Record Directories : Type := mkDirectories {
  pdf_directory : string;
  grouped_directory : string;
  processed_directory : string }.

(** The [email_config] dictionary built in [main]. *)
Record EmailConfig : Type := mkEmailConfig {
  sender_email : string;
  sender_password : string;
  smtp_server : string;
  smtp_port : Z;
  subject : string;
  body : string }.

(** Everything the script asks of the outside world.  File-system faults
    and SMTP outcomes are decided by the environment; an SMTP attempt also
    takes the time the environment says (in seconds). *)
Record Env : Type := mkEnv {
  cfg_table_file : reply string;
  cfg_directories : reply Directories;
  cfg_email : reply EmailConfig;
  read_csv : string -> reply DataFrame;
  listdir : string -> reply (list string);
  pdf_pages : string -> reply (list string);
  makedirs_fault : string -> option exn;
  copy_fault : string -> string -> option exn;
  move_fault : string -> string -> option exn;
  smtp : nat -> value -> list string -> EmailConfig -> reply unit * nat }.

(** ** Effects *)

Inductive level : Type := INFO | WARNING | ERROR.

(** One constructor per [logger] call of the script, with the values its
    message is formatted from. *)
Inductive log_record : Type :=
| CouldNotFindUIN (pdf_path : string)
| ErrorExtractingPAN (pdf_path : string) (e : exn)
| ErrorGettingEmail (pan : string) (e : exn)
| NoEmailFound (pan : string)
| CouldNotExtractPAN (pdf_file : string)
| ErrorProcessing (pdf_file : string) (e : exn)
| EmailSent (email : value) (n_attachments : nat)
| AttemptFailed (attempt : nat) (email : value) (delay : Z) (e : exn)
| FailedToSend (email : value) (retries : nat)
| LoadedData (table : string)
| FinishedProcessing (n_emails : nat)
| ExecutionCompleted
| ScriptError (e : exn).

Inductive event : Type :=
| Log (lvl : level) (r : log_record)
| MakeDirs (path : string)
| CopyFile (src dst : string)
| MoveFile (src dst : string)
| SmtpAttempt (email : value) (attachments : list string) (delivered : bool)
| Slept (seconds : Z)
(** bookkeeping of calls of the decorated function: let through by the
    limiter in the window that began at [window]; returned [ok] *)
| Entered (window : Z)
| Returned (email : value) (ok : bool).

(** The state: the clock, the two fields of the [limits] decorator, the
    number of SMTP attempts made, and the effects so far, each stamped with
    the clock, most recent first. *)
Record World : Type := mkWorld {
  clock : Z;
  last_reset : Z;
  num_calls : nat;
  smtp_calls : nat;
  trace : list (Z * event) }.

Definition M (A : Type) : Type := World -> res A * World.

Definition ret {A} (a : A) : M A := fun w => (Ok a, w).

Definition bind {A B} (m : M A) (k : A -> M B) : M B :=
  fun w =>
    match m w with
    | (Ok a, w') => k a w'
    | (Raise e, w') => (Raise e, w')
    | (OutOfFuel, w') => (OutOfFuel, w')
    end.

Declare Scope monad_scope.
Delimit Scope monad_scope with monad.
Notation "x <- m ;; k" := (bind m (fun x => k))
  (at level 61, m at next level, right associativity) : monad_scope.
Notation "m ;;; k" := (bind m (fun _ => k))
  (at level 61, right associativity) : monad_scope.
Local Open Scope monad_scope.

(** A value computed outside the state (it may raise). *)
Definition lift {A} (r : reply A) : M A := fun w => (res_of_reply r, w).

Definition raise {A} (e : exn) : M A := lift (Error e).

(** [try: body  except Exception as e: handler(e)] *)
Definition try_except {A} (body : M A) (handler : exn -> M A) : M A :=
  fun w =>
    match body w with
    | (Raise e, w') => handler e w'
    | r => r
    end.

Definition emit (e : event) : M unit :=
  fun w => (Ok tt, mkWorld (clock w) (last_reset w) (num_calls w)
                           (smtp_calls w) ((clock w, e) :: trace w)).

Definition log (lvl : level) (r : log_record) : M unit := emit (Log lvl r).

(** [time.sleep(seconds)] *)
Definition sleep (seconds : Z) : M unit :=
  fun w =>
    if (seconds <? 0)%Z then (Raise ValueError, w)
    else (Ok tt, mkWorld (clock w + seconds)%Z (last_reset w) (num_calls w)
                         (smtp_calls w) ((clock w, Slept seconds) :: trace w)).

(** A file-system call that the environment may fail. *)
Definition fs_call (fault : option exn) (e : event) : M unit :=
  match fault with
  | Some x => raise x
  | None => emit e
  end.

(** [os.makedirs(path, exist_ok=True)] *)
Definition makedirs (env : Env) (path : string) : M unit :=
  fs_call (makedirs_fault env path) (MakeDirs path).

(** [shutil.copy(src, dst)] *)
Definition copy (env : Env) (src dst : string) : M unit :=
  fs_call (copy_fault env src dst) (CopyFile src dst).

(** [shutil.move(src, dst)] *)
Definition move (env : Env) (src dst : string) : M unit :=
  fs_call (move_fault env src dst) (MoveFile src dst).

(** [for x in xs: body(x)] *)
Fixpoint for_each {A} (xs : list A) (body : A -> M unit) : M unit :=
  match xs with
  | [] => ret tt
  | x :: xs' => body x ;;; for_each xs' body
  end.

(** [list(executor.map(f, xs))]: one result per item, in the order of the
    items; an exception of a task is raised when its result is reached.
    The tasks run on a pool of threads; the model runs them one after the
    other, in the order of the items. *)
Fixpoint executor_map {A B} (f : A -> M B) (xs : list A) : M (list B) :=
  match xs with
  | [] => ret []
  | x :: xs' => y <- f x ;; ys <- executor_map f xs' ;; ret (y :: ys)
  end.

(** ** Extraction and resolution *)

Definition extract_pan_from_pdf (env : Env) (pdf_path : string)
  : M (option string) :=
  try_except
    (pages <- lift (pdf_pages env pdf_path) ;;
     let text := Str.concat pages in
     match re_search text with
     | Some group1 => ret (Some group1)
     | None => log WARNING (CouldNotFindUIN pdf_path) ;;; ret None
     end)
    (fun e => log ERROR (ErrorExtractingPAN pdf_path e) ;;; ret None).

(** [df[name]]: [KeyError] when the frame has no such column. *)
Definition column (df : DataFrame) (name : string) : reply unit :=
  if existsb (String.eqb name) (columns df) then Value tt
  else Error (KeyError name).

Definition get_email_for_pan (pan : string) (df : DataFrame)
  : M (option value) :=
  try_except
    (lift (column df "PAN") ;;;
     let email_records :=
       filter (fun r => String.eqb (PAN r) pan) (rows df) in
     match email_records with
     | [] => ret None
     | r :: _ => lift (column df "eMail ID") ;;; ret (Some (eMail_ID r))
     end)
    (fun e => log ERROR (ErrorGettingEmail pan e) ;;; ret None).

(** What [process_pdf] returns for a document: the identifier, the address
    cell, the staged path. *)
Definition triple : Type := string * value * string.

Definition process_pdf (env : Env) (pdf_dir output_dir : string)
  (df : DataFrame) (pdf_file : string) : M (option triple) :=
  try_except
    (let pdf_path := Path.join pdf_dir [pdf_file] in
     pan <- extract_pan_from_pdf env pdf_path ;;
     match pan with
     | Some pan =>
         if nonempty pan then
           email <- get_email_for_pan pan df ;;
           match email with
           | Some email =>
               if truthy email then
                 let pan_dir := Path.join output_dir [pan] in
                 makedirs env pan_dir ;;;
                 let output_path := Path.join pan_dir [pdf_file] in
                 copy env pdf_path output_path ;;;
                 ret (Some (pan, email, output_path))
               else log WARNING (NoEmailFound pan) ;;; ret None
           | None => log WARNING (NoEmailFound pan) ;;; ret None
           end
         else log WARNING (CouldNotExtractPAN pdf_file) ;;; ret None
     | None => log WARNING (CouldNotExtractPAN pdf_file) ;;; ret None
     end)
    (fun e => log ERROR (ErrorProcessing pdf_file e) ;;; ret None).

(** ** Grouping *)

(** A dictionary of lists of paths, in insertion order.  [email_groups]
    is keyed by the address cells, [pan_to_files] by the identifiers. *)
Definition dict (K : Type) : Type := list (K * list string).

Section Dict.

Context {K : Type} {key_of_K : Key K}.

(** [k in d] *)
Definition dict_mem (k : K) (d : dict K) : bool :=
  existsb (fun kv => key_eqb k (fst kv)) d.

(** [d.get(k)] *)
Fixpoint dict_get (k : K) (d : dict K) : option (list string) :=
  match d with
  | [] => None
  | (k', l) :: d' => if key_eqb k k' then Some l else dict_get k d'
  end.

(** [d[k] = l]: the value is replaced in place, a new key goes last. *)
Fixpoint dict_set (k : K) (l : list string) (d : dict K) : dict K :=
  match d with
  | [] => [(k, l)]
  | (k', l') :: d' =>
      if key_eqb k k' then (k', l) :: d' else (k', l') :: dict_set k l d'
  end.

(** [d[k].append(v)]: [KeyError] when the key is missing. *)
Fixpoint dict_append (k : K) (v : string) (d : dict K) : reply (dict K) :=
  match d with
  | [] => Error (KeyError (key_value k))
  | (k', l) :: d' =>
      if key_eqb k k' then Value ((k', l ++ [v]) :: d')
      else match dict_append k v d' with
           | Value d'' => Value ((k', l) :: d'')
           | Error e => Error e
           end
  end.

(** Two dictionaries with the same keys and, per key, the same set of
    paths. *)
Definition same_as_sets (d d' : dict K) : Prop :=
  (forall k, dict_mem k d = dict_mem k d') /\
  (forall k l l', dict_get k d = Some l -> dict_get k d' = Some l' ->
                  forall p, In p l <-> In p l').

(** The two statements of the grouping loop on one dictionary:
    [if k not in d: d[k] = []] and [d[k].append(v)]. *)
Definition touch (k : K) (v : string) (d : dict K) : reply (dict K) :=
  dict_append k v (if negb (dict_mem k d) then dict_set k [] d else d).

End Dict.

(** The body of the grouping loop for one result. *)
Definition group_step (acc : reply (dict value * dict string))
  (result : option triple) : reply (dict value * dict string) :=
  match acc with
  | Value (email_groups, pan_to_files) =>
      match result with
      | Some (pan, email, pdf_path) =>
          let email_groups :=
            if negb (dict_mem email email_groups)
            then dict_set email [] email_groups else email_groups in
          let pan_to_files :=
            if negb (dict_mem pan pan_to_files)
            then dict_set pan [] pan_to_files else pan_to_files in
          match dict_append email pdf_path email_groups with
          | Value email_groups =>
              match dict_append pan pdf_path pan_to_files with
              | Value pan_to_files => Value (email_groups, pan_to_files)
              | Error e => Error e
              end
          | Error e => Error e
          end
      | None => acc
      end
  | Error e => Error e
  end.

(** [email_groups] and [pan_to_files] after the loop over [results]. *)
Definition group_results (results : list (option triple))
  : reply (dict value * dict string) :=
  fold_left group_step results (Value ([], [])).

Definition pan_of (t : triple) : string := fst (fst t).
Definition email_of (t : triple) : value := snd (fst t).
Definition path_of (t : triple) : string := snd t.

(** The paths of the present results whose [key] is [k], in order. *)
Definition paths_by {K : Type} `{Key K} (key : triple -> K) (k : K)
  (results : list (option triple)) : list string :=
  flat_map (fun r => match r with
                     | Some t => if key_eqb (key t) k then [path_of t] else []
                     | None => []
                     end) results.

(** A dictionary entry after more paths were appended under its key. *)
Definition extend (entry : option (list string)) (more : list string)
  : option (list string) :=
  match more with
  | [] => entry
  | _ :: _ => Some (match entry with Some l => l | None => [] end ++ more)
  end.

(** ** Dispatch *)

Definition CALLS_PER_MINUTE : nat := 20.
Definition PERIOD : Z := 60.
Definition MAX_RETRIES : nat := 5.
Definition BASE_DELAY : Z := 1.

(** The body of the [try] in the retry loop, up to [send_message]: building
    the message, reading the attachments and the SMTP session are the
    environment's; it answers for the n-th attempt of the run. *)
Definition smtp_send (env : Env) (email : value) (attachments : list string)
  (email_config : EmailConfig) : M unit :=
  fun w =>
    let '(r, seconds) := smtp env (smtp_calls w) email attachments email_config in
    let delivered := match r with Value _ => true | Error _ => false end in
    (res_of_reply r, mkWorld (clock w + Z.of_nat seconds)%Z (last_reset w) (num_calls w)
                (S (smtp_calls w))
                ((clock w, SmtpAttempt email attachments delivered) :: trace w)).

(** [for attempt in attempts: try: ... return True  except: ... sleep],
    then the failure report. *)
Fixpoint retry_loop (env : Env) (email : value) (attachments : list string)
  (email_config : EmailConfig) (max_retries : nat) (base_delay : Z)
  (attempts : list nat) : M bool :=
  match attempts with
  | [] => log ERROR (FailedToSend email max_retries) ;;; ret false
  | attempt :: attempts' =>
      returned <-
        try_except
          (smtp_send env email attachments email_config ;;;
           log INFO (EmailSent email (List.length attachments)) ;;;
           ret (Some true))
          (fun e =>
             let delay := (base_delay * 2 ^ Z.of_nat attempt)%Z in
             log WARNING (AttemptFailed (attempt + 1) email delay e) ;;;
             sleep delay ;;;
             ret None) ;;
      match returned with
      | Some b => ret b
      | None =>
          retry_loop env email attachments email_config max_retries
                     base_delay attempts'
      end
  end.

(** The undecorated function. *)
Definition send_attempts (env : Env) (email : value)
  (attachments : list string) (email_config : EmailConfig) : M bool :=
  retry_loop env email attachments email_config MAX_RETRIES BASE_DELAY
             (seq 0 MAX_RETRIES).

(** [@limits(calls, period)] of the [ratelimit] package: a counter over a
    window that starts at [last_reset]; the window is renewed by the first
    call that finds it over. *)
Definition limits {A} (calls : nat) (period : Z) (func : M A) : M A :=
  fun w =>
    let clamped_calls := Nat.max 1 calls in
    let period_remaining := (period - (clock w - last_reset w))%Z in
    let w1 :=
      if (period_remaining <=? 0)%Z
      then mkWorld (clock w) (clock w) 0 (smtp_calls w) (trace w)
      else w in
    let w2 := mkWorld (clock w1) (last_reset w1) (S (num_calls w1))
                      (smtp_calls w1) (trace w1) in
    if clamped_calls <? num_calls w2
    then (Raise (RateLimitException period_remaining), w2)
    else (emit (Entered (last_reset w2)) ;;; func) w2.

(** [@sleep_and_retry]: [while True], with a budget of iterations. *)
Fixpoint sleep_and_retry {A} (fuel : nat) (func : M A) : M A :=
  match fuel with
  | 0 => fun w => (OutOfFuel, w)
  | S fuel' =>
      fun w =>
        match func w with
        | (Raise (RateLimitException period_remaining), w') =>
            (sleep period_remaining ;;; sleep_and_retry fuel' func) w'
        | r => r
        end
  end.

Definition send_grouped_email_with_retry (fuel : nat) (env : Env)
  (email : value) (attachments : list string) (email_config : EmailConfig)
  : M bool :=
  ok <- sleep_and_retry fuel
          (limits CALLS_PER_MINUTE PERIOD
                  (send_attempts env email attachments email_config)) ;;
  emit (Returned email ok) ;;;
  ret ok.

(** ** Archival and the main flow *)

(** [next(pan for pan, files in pan_to_files.items() if pdf_path in files)] *)
Fixpoint next_owner (items : dict string) (pdf_path : string) : reply string :=
  match items with
  | [] => Error StopIteration
  | (pan, files) :: items' =>
      if existsb (String.eqb pdf_path) files then Value pan
      else next_owner items' pdf_path
  end.

(** The body of the inner loop of [main] for one attachment. *)
Definition archive_file (env : Env) (processed_dir : string)
  (pan_to_files : dict string) (pdf_path : string) : M unit :=
  let pdf_name := Path.basename pdf_path in
  pan <- lift (next_owner pan_to_files pdf_path) ;;
  let processed_pan_dir := Path.join processed_dir [pan] in
  makedirs env processed_pan_dir ;;;
  move env pdf_path (Path.join processed_pan_dir [pdf_name]).

(** The body of the outer loop of [main] for one recipient. *)
Definition dispatch_group (fuel : nat) (env : Env) (processed_dir : string)
  (email_config : EmailConfig) (pan_to_files : dict string)
  (item : value * list string) : M unit :=
  let '(email, attachments) := item in
  ok <- send_grouped_email_with_retry fuel env email attachments email_config ;;
  if ok then for_each attachments (archive_file env processed_dir pan_to_files)
  else ret tt.

(** The names [main] keeps from the directory listing. *)
Definition is_pdf (f : string) : bool := Str.endswith (Str.lower f) ".pdf".

Definition classify (env : Env) (pdf_dir grouped_dir : string)
  (df : DataFrame) (pdf_files : list string) : M (list (option triple)) :=
  executor_map (process_pdf env pdf_dir grouped_dir df) pdf_files.

Definition main (fuel : nat) (env : Env) : M unit :=
  try_except
    (table_file <- lift (cfg_table_file env) ;;
     df <- lift (read_csv env table_file) ;;
     log INFO (LoadedData table_file) ;;;
     dirs <- lift (cfg_directories env) ;;
     let pdf_dir := pdf_directory dirs in
     let grouped_dir := grouped_directory dirs in
     let processed_dir := processed_directory dirs in
     makedirs env grouped_dir ;;;
     makedirs env processed_dir ;;;
     names <- lift (listdir env pdf_dir) ;;
     let pdf_files := filter is_pdf names in
     results <- classify env pdf_dir grouped_dir df pdf_files ;;
     groups <- lift (group_results results) ;;
     let '(email_groups, pan_to_files) := groups in
     email_config <- lift (cfg_email env) ;;
     for_each email_groups
       (dispatch_group fuel env processed_dir email_config pan_to_files) ;;;
     log INFO (FinishedProcessing (List.length email_groups)) ;;;
     log INFO ExecutionCompleted)
    (fun e => log ERROR (ScriptError e)).

(** The state in which the script starts at time [t0]: the decorator was
    built at import, nothing has happened yet. *)
Definition start (t0 : Z) : World := mkWorld t0 t0 0 0 [].

(** ** Values of the classification steps *)

(** The value [extract_pan_from_pdf] returns: it depends on the document
    only, and no exception leaves the function. *)
Definition extracted (env : Env) (pdf_path : string) : option string :=
  match pdf_pages env pdf_path with
  | Value pages => re_search (Str.concat pages)
  | Error _ => None
  end.

(** The value [get_email_for_pan] returns. *)
Definition resolved (df : DataFrame) (pan : string) : option value :=
  match column df "PAN" with
  | Error _ => None
  | Value _ =>
      match filter (fun r => String.eqb (PAN r) pan) (rows df) with
      | [] => None
      | r :: _ =>
          match column df "eMail ID" with
          | Value _ => Some (eMail_ID r)
          | Error _ => None
          end
      end
  end.

(** The value [process_pdf] returns: the triple when the identifier is
    found, the address cell is resolved and true, and neither the staging
    directory nor the copy fails; otherwise [None]. *)
Definition classified (env : Env) (pdf_dir output_dir : string)
  (df : DataFrame) (pdf_file : string) : option triple :=
  let pdf_path := Path.join pdf_dir [pdf_file] in
  match extracted env pdf_path with
  | Some pan =>
      match resolved df pan with
      | Some email =>
          let pan_dir := Path.join output_dir [pan] in
          let output_path := Path.join pan_dir [pdf_file] in
          if nonempty pan && truthy email then
            match makedirs_fault env pan_dir, copy_fault env pdf_path output_path with
            | None, None => Some (pan, email, output_path)
            | _, _ => None
            end
          else None
      | None => None
      end
  | None => None
  end.

(** ** Vocabulary for traces *)

(** The state after the effects [evs] (most recent first) happened at the
    current time. *)
Definition record (evs : list event) (w : World) : World :=
  mkWorld (clock w) (last_reset w) (num_calls w) (smtp_calls w)
          (map (pair (clock w)) evs ++ trace w).

Definition log_event (e : event) : bool :=
  match e with
  | Log _ _ => true
  | _ => false
  end.

(** The effects of classification: log records, directories, copies. *)
Definition staging_event (e : event) : bool :=
  match e with
  | Log _ _ | MakeDirs _ | CopyFile _ _ => true
  | _ => false
  end.

(** The effects of the retry loop. *)
Definition sending_event (e : event) : bool :=
  match e with
  | Log _ _ | SmtpAttempt _ _ _ | Slept _ => true
  | _ => false
  end.

(** What a retry loop does over time: attempts and waits. *)
Inductive tick : Type :=
| Try (delivered : bool)
| Wait (seconds : Z).

Definition tick_of (e : event) : list tick :=
  match e with
  | SmtpAttempt _ _ delivered => [Try delivered]
  | Slept seconds => [Wait seconds]
  | _ => []
  end.

(** The attempts and waits of a piece of trace, oldest first. *)
Definition timeline (tr : list (Z * event)) : list tick :=
  flat_map (fun te => tick_of (snd te)) (rev tr).

(** The schedule of exponential backoff: [failures] failed attempts
    numbered from [first], attempt [k] followed by a wait of
    [base * 2^k], then the delivered attempt, if any. *)
Definition backoff (base : Z) (first failures : nat) (delivered : bool)
  : list tick :=
  flat_map (fun k => [Try false; Wait (base * 2 ^ Z.of_nat k)%Z])
           (seq first failures)
  ++ (if delivered then [Try true] else []).

(** The number of attempts in a timeline. *)
Definition tries (tl : list tick) : nat :=
  List.length (filter (fun t => match t with Try _ => true | Wait _ => false end) tl).

Definition events (w : World) : list event := map snd (trace w).

(** The calls the limiter let through in the window that began at
    [window]. *)
Definition is_entered (window : Z) (te : Z * event) : bool :=
  match snd te with
  | Entered window' => (window' =? window)%Z
  | _ => false
  end.

Definition entered (window : Z) (tr : list (Z * event)) : nat :=
  List.length (filter (is_entered window) tr).

(** The invariant of the limiter: every call let through was stamped inside
    its window, windows do not start after the current one, the counter of
    the decorator bounds the calls let through in the current window, and
    no window has let through more than the limit. *)
Definition limiter_ok (calls : nat) (period : Z) (w : World) : Prop :=
  (last_reset w <= clock w)%Z /\
  (forall t window, In (t, Entered window) (trace w) ->
     (window <= t < window + period)%Z /\ (window <= last_reset w)%Z) /\
  entered (last_reset w) (trace w) <= num_calls w /\
  (forall window, entered window (trace w) <= Nat.max 1 calls).

(** A function that returns a value and, on the way, only logs, attempts
    and sleeps, all its effects satisfying [P]: as [send_attempts] does. *)
Definition quiet_call {A} (P : event -> Prop) (func : M A) : Prop :=
  forall w, exists a w' new,
    func w = (Ok a, w') /\ trace w' = new ++ trace w /\
    last_reset w' = last_reset w /\ num_calls w' = num_calls w /\
    (clock w <= clock w')%Z /\
    forallb sending_event (map snd new) = true /\
    Forall P (map snd new).

(** An effect of a call for this recipient: its SMTP attempts carry the
    recipient's address and attachments; it moves nothing and returns
    nothing. *)
Definition call_event (email : value) (attachments : list string)
  (e : event) : Prop :=
  match e with
  | SmtpAttempt email' attachments' _ =>
      email' = email /\ attachments' = attachments
  | Log _ _ | Slept _ | Entered _ => True
  | _ => False
  end.

(** ** Archival, as values *)

(** The exception [archive_file] raises for a path, if any. *)
Definition archive_fault (env : Env) (processed_dir : string)
  (pan_to_files : dict string) (pdf_path : string) : option exn :=
  match next_owner pan_to_files pdf_path with
  | Error e => Some e
  | Value pan =>
      let processed_pan_dir := Path.join processed_dir [pan] in
      match makedirs_fault env processed_pan_dir with
      | Some e => Some e
      | None =>
          move_fault env pdf_path
            (Path.join processed_pan_dir [Path.basename pdf_path])
      end
  end.

(** Where [archive_file] moves a path. *)
Definition destination (processed_dir : string) (pan_to_files : dict string)
  (pdf_path : string) : string :=
  match next_owner pan_to_files pdf_path with
  | Value pan =>
      Path.join (Path.join processed_dir [pan]) [Path.basename pdf_path]
  | Error _ => ""
  end.

(** The attachments before the first one whose archival raises. *)
Fixpoint movable (env : Env) (processed_dir : string) (pan_to_files : dict string)
  (attachments : list string) : list string :=
  match attachments with
  | [] => []
  | p :: rest =>
      match archive_fault env processed_dir pan_to_files p with
      | None => p :: movable env processed_dir pan_to_files rest
      | Some _ => []
      end
  end.

(** The first exception raised while archiving the attachments in order. *)
Fixpoint first_fault (env : Env) (processed_dir : string) (pan_to_files : dict string)
  (attachments : list string) : option exn :=
  match attachments with
  | [] => None
  | p :: rest =>
      match archive_fault env processed_dir pan_to_files p with
      | None => first_fault env processed_dir pan_to_files rest
      | Some e => Some e
      end
  end.

Definition archive_event (e : event) : bool :=
  match e with
  | MakeDirs _ | MoveFile _ _ => true
  | _ => false
  end.

(** The effects of the dispatch loop over a list of groups, most recent
    first, and how the loop ends: a group whose call returned [False] is
    left alone; a group whose call returned [True] has its attachments
    moved in order up to the first that raises; an exception ends the
    loop. *)
Inductive loop_shape (env : Env) (processed_dir : string) (pan_to_files : dict string)
  : list (value * list string) -> res unit -> list event -> Prop :=
| shape_done :
    loop_shape env processed_dir pan_to_files [] (Ok tt) []
| shape_unsent email attachments rest r call later :
    Forall (call_event email attachments) call ->
    loop_shape env processed_dir pan_to_files rest r later ->
    loop_shape env processed_dir pan_to_files ((email, attachments) :: rest) r
               (later ++ Returned email false :: call)
| shape_sent email attachments rest r call moves later :
    Forall (call_event email attachments) call ->
    first_fault env processed_dir pan_to_files attachments = None ->
    forallb archive_event moves = true ->
    (forall src dst,
        In (MoveFile src dst) moves <->
        In src attachments /\ dst = destination processed_dir pan_to_files src) ->
    loop_shape env processed_dir pan_to_files rest r later ->
    loop_shape env processed_dir pan_to_files ((email, attachments) :: rest) r
               (later ++ moves ++ Returned email true :: call)
| shape_aborted email attachments rest e call moves :
    Forall (call_event email attachments) call ->
    first_fault env processed_dir pan_to_files attachments = Some e ->
    forallb archive_event moves = true ->
    (forall src dst,
        In (MoveFile src dst) moves <->
        In src (movable env processed_dir pan_to_files attachments) /\
        dst = destination processed_dir pan_to_files src) ->
    loop_shape env processed_dir pan_to_files ((email, attachments) :: rest)
               (Raise e) (moves ++ Returned email true :: call).

(** No path belongs to two different present results. *)
Definition single_owner (results : list (option triple)) : Prop :=
  forall t1 t2, In (Some t1) results -> In (Some t2) results ->
                path_of t1 = path_of t2 -> t1 = t2.

(** The run gets as far as classification: the configuration and the table
    load, the two directories can be made, the source directory lists
    [names], which are entries of a directory. *)
Record setup (env : Env) (dirs : Directories) (df : DataFrame)
  (names : list string) (email_config : EmailConfig) : Prop := mkSetup {
  setup_table :
    exists table_file,
      cfg_table_file env = Value table_file /\
      read_csv env table_file = Value df;
  setup_dirs : cfg_directories env = Value dirs;
  setup_grouped : makedirs_fault env (grouped_directory dirs) = None;
  setup_processed : makedirs_fault env (processed_directory dirs) = None;
  setup_listing : listdir env (pdf_directory dirs) = Value names;
  setup_names : forall f, In f names -> Str.contains f Path.sep = false;
  setup_email : cfg_email env = Value email_config }.

(** The results of classification in a run that is set up. *)
Definition results_of (env : Env) (dirs : Directories) (df : DataFrame)
  (names : list string) : list (option triple) :=
  map (classified env (pdf_directory dirs) (grouped_directory dirs) df)
      (filter is_pdf names).

(** The environment with another directory listing. *)
Definition with_listing (env : Env) (names : list string) : Env :=
  mkEnv (cfg_table_file env) (cfg_directories env) (cfg_email env) (read_csv env)
        (fun _ => Value names) (pdf_pages env) (makedirs_fault env)
        (copy_fault env) (move_fault env) (smtp env).

(** What [os.path.join] puts before the next component after [dir]. *)
Definition stage_prefix (dir : string) : string :=
  if String.eqb dir "" || Str.endswith dir Path.sep then dir
  else (dir ++ Path.sep)%string.

Definition alnum (c : ascii) : bool := Str.is_upper c || Str.is_digit c.

(** The present results are triples of a well-formed identifier and a path
    [dir/identifier/name] for a name that is not an absolute path. *)
Definition well_staged (dir : string) (results : list (option triple)) : Prop :=
  forall t, In (Some t) results ->
    is_pan (pan_of t) = true /\
    exists name, Str.startswith name Path.sep = false /\
      path_of t = (stage_prefix dir ++ pan_of t ++ Path.sep ++ name)%string.

(** Whether the run has left a file at [path] (events most recent first): a
    copy or a move puts a file at its destination, a move takes the file
    away from its source. *)
Fixpoint on_disk (evs : list event) (path : string) : bool :=
  match evs with
  | [] => false
  | CopyFile _ dst :: older => String.eqb path dst || on_disk older path
  | MoveFile src dst :: older =>
      String.eqb path dst || (negb (String.eqb path src) && on_disk older path)
  | _ :: older => on_disk older path
  end.

(** ** The claim on extraction, as stated *)

(** A letter, of either case. *)
Definition is_letter (c : ascii) : bool :=
  Str.is_upper c || Str.in_range 97 122 c.

(** "5 letters, 4 digits, 1 letter". *)
Definition STATED_SHAPE : list (ascii -> bool) :=
  repeat is_letter 5 ++ repeat Str.is_digit 4 ++ [is_letter].

Definition well_formatted (code : string) : bool :=
  Str.conforms STATED_SHAPE code.


(** ** The claims on archival and rate, as stated *)

(** A group is moved in full exactly when its call returned [True]. *)
Definition archived_iff_sent (fuel : nat) (env : Env) (t0 : Z)
  (email_groups : dict value) : Prop :=
  let evs := events (snd (main fuel env (start t0))) in
  forall email attachments, In (email, attachments) email_groups ->
    ((forall src, In src attachments -> exists dst, In (MoveFile src dst) evs)
     <-> In (Returned email true) evs).

(** In a group whose call returned [True], every attachment whose own
    archival does not fail is moved, whatever happens to the others. *)
Definition moves_independent (fuel : nat) (env : Env) (t0 : Z)
  (processed_dir : string) (email_groups : dict value) (pan_to_files : dict string) : Prop :=
  let evs := events (snd (main fuel env (start t0))) in
  forall email attachments, In (email, attachments) email_groups ->
    In (Returned email true) evs ->
    forall src, In src attachments ->
      archive_fault env processed_dir pan_to_files src = None ->
      In (MoveFile src (destination processed_dir pan_to_files src)) evs.

(** The SMTP attempts stamped in the interval [[lo, hi)]. *)
Definition attempts_within (lo hi : Z) (tr : list (Z * event)) : nat :=
  List.length
    (filter (fun te => match snd te with
                       | SmtpAttempt _ _ _ => (lo <=? fst te)%Z && (fst te <? hi)%Z
                       | _ => false
                       end) tr).

(** No interval of [PERIOD] seconds holds more than [CALLS_PER_MINUTE]
    SMTP attempts. *)
Definition attempts_rate_limited (fuel : nat) (env : Env) (t0 : Z) : Prop :=
  forall lo,
    attempts_within lo (lo + PERIOD) (trace (snd (main fuel env (start t0))))
    <= CALLS_PER_MINUTE.

(** The calls let through by the limiter that are stamped in [[lo, hi)]. *)
Definition calls_within (lo hi : Z) (tr : list (Z * event)) : nat :=
  List.length
    (filter (fun te => match snd te with
                       | Entered _ => (lo <=? fst te)%Z && (fst te <? hi)%Z
                       | _ => false
                       end) tr).

(** ** Concrete environments, for running the model *)

Module Demo.

Definition dirs : Directories :=
  mkDirectories "in" "staging" "processed".

Definition email_config : EmailConfig :=
  mkEmailConfig "office@x.org" "secret" "smtp.x.org" 587 "Receipt" "Thanks".

Definition df : DataFrame :=
  mkDataFrame ["Name"; "PAN"; "eMail ID"]
    [ mkRow "ABCDE1234F" "a@x.com";
      mkRow "ABCDE1234F" "other@x.com";
      mkRow "PQRST5678U" "b@x.com";
      mkRow "LMNOP0000Q" "a@x.com";
      mkRow "AAAAA0001A" "r1@x.com";
      mkRow "AAAAA0002A" "r2@x.com";
      mkRow "AAAAA0003A" "r3@x.com";
      mkRow "AAAAA0004A" "r4@x.com";
      mkRow "AAAAA0005A" "r5@x.com";
      mkRow "AAAAA0006A" "r6@x.com" ].

(** The PDF files of the source directory, with the text of their pages. *)
Definition documents : list (string * list string) :=
  [ ("in/A.pdf", ["Donation receipt "; "Unique Identification Number ABCDE1234F"]);
    ("in/B.PDF", [("Unique Identification Number" ++ String "010" "PQRST5678U.")%string]);
    ("in/C.pdf", ["Unique Identification Number  LMNOP0000Q"]);
    ("in/D.pdf", ["Unique Identification Number: ABCDE1234F"]);
    ("in/E.pdf", ["Unique Identification Number ZZZZZ9999Z"]) ].

Fixpoint pages_of (docs : list (string * list string)) (path : string)
  : reply (list string) :=
  match docs with
  | [] => Error (PdfReadError path)
  | (p, pages) :: docs' =>
      if String.eqb p path then Value pages else pages_of docs' path
  end.

Definition no_fault : string -> option exn := fun _ => None.
Definition no_fault2 : string -> string -> option exn := fun _ _ => None.

(** Every SMTP attempt is delivered at once. *)
Definition smtp_ok : nat -> value -> list string -> EmailConfig -> reply unit * nat :=
  fun _ _ _ _ => (Value tt, 0).

(** No SMTP attempt is ever delivered. *)
Definition smtp_down : nat -> value -> list string -> EmailConfig -> reply unit * nat :=
  fun _ _ _ _ => (Error SMTPException, 0).

Definition env_with (names : list string) (docs : list (string * list string))
  (move_fault : string -> string -> option exn)
  (smtp : nat -> value -> list string -> EmailConfig -> reply unit * nat) : Env :=
  mkEnv (Value "table.csv") (Value dirs) (Value email_config)
        (fun _ => Value df) (fun _ => Value names)
        (pages_of docs) no_fault no_fault2 move_fault smtp.

Definition names : list string :=
  ["A.pdf"; "notes.txt"; "B.PDF"; "C.pdf"; "D.pdf"; "E.pdf"; "F.pdf"].

Definition env : Env := env_with names documents no_fault2 smtp_ok.

(** The staged copy of [A.pdf] cannot be moved. *)
Definition move_fault_A (src dst : string) : option exn :=
  if String.eqb src "staging/ABCDE1234F/A.pdf" then Some (OSError src) else None.

Definition env_move_fault : Env := env_with names documents move_fault_A smtp_ok.

Definition env_smtp_down : Env := env_with names documents no_fault2 smtp_down.

(** Six recipients, one receipt each; of every four SMTP attempts the
    first three fail and the fourth is delivered; an attempt takes one
    second. *)
Definition six_documents : list (string * list string) :=
  [ ("in/r1.pdf", ["Unique Identification Number AAAAA0001A"]);
    ("in/r2.pdf", ["Unique Identification Number AAAAA0002A"]);
    ("in/r3.pdf", ["Unique Identification Number AAAAA0003A"]);
    ("in/r4.pdf", ["Unique Identification Number AAAAA0004A"]);
    ("in/r5.pdf", ["Unique Identification Number AAAAA0005A"]);
    ("in/r6.pdf", ["Unique Identification Number AAAAA0006A"]) ].

Definition six_names : list string :=
  ["r1.pdf"; "r2.pdf"; "r3.pdf"; "r4.pdf"; "r5.pdf"; "r6.pdf"].

Definition smtp_flaky : nat -> value -> list string -> EmailConfig -> reply unit * nat :=
  fun n _ _ _ =>
    if Nat.eqb (n mod 4) 3 then (Value tt, 1) else (Error SMTPException, 1).

Definition env_flaky : Env := env_with six_names six_documents no_fault2 smtp_flaky.

(** The dictionaries of the run on [env]. *)
Definition groups : dict value :=
  [ (Str "a@x.com", ["staging/ABCDE1234F/A.pdf"; "staging/LMNOP0000Q/C.pdf"]);
    (Str "b@x.com", ["staging/PQRST5678U/B.PDF"]) ].

Definition owners : dict string :=
  [ ("ABCDE1234F", ["staging/ABCDE1234F/A.pdf"]);
    ("PQRST5678U", ["staging/PQRST5678U/B.PDF"]);
    ("LMNOP0000Q", ["staging/LMNOP0000Q/C.pdf"]) ].

(** The first SMTP attempt takes 59 seconds, the others none; all are
    delivered. *)
Definition smtp_slow_first : nat -> value -> list string -> EmailConfig -> reply unit * nat :=
  fun n _ _ _ => (Value tt, if Nat.eqb n 0 then 59 else 0).

Definition env_slow_first : Env := env_with names documents no_fault2 smtp_slow_first.



(** A table read from a file in which the rows of [ABCDE1234F] and
    [LMNOP0000Q] have an empty address: both cells hold the one [nan]. *)
Definition df_nan : DataFrame :=
  mkDataFrame ["Name"; "PAN"; "eMail ID"]
    [ mkRow "ABCDE1234F" (nan 0);
      mkRow "PQRST5678U" "b@x.com";
      mkRow "LMNOP0000Q" (nan 0) ].

(** The same, with a [nan] of its own in each empty cell. *)
Definition df_nan_apart : DataFrame :=
  mkDataFrame ["Name"; "PAN"; "eMail ID"]
    [ mkRow "ABCDE1234F" (nan 0);
      mkRow "PQRST5678U" "b@x.com";
      mkRow "LMNOP0000Q" (nan 1) ].

(** A server that delivers to strings; an attempt for another object
    raises. *)
Definition smtp_to_str : nat -> value -> list string -> EmailConfig -> reply unit * nat :=
  fun _ email _ _ =>
    match email with
    | Str _ => (Value tt, 0)
    | Obj _ _ => (Error SMTPException, 0)
    end.

Definition env_nan (df : DataFrame) : Env :=
  mkEnv (Value "table.csv") (Value dirs) (Value email_config)
        (fun _ => Value df) (fun _ => Value names)
        (pages_of documents) no_fault no_fault2 no_fault2 smtp_to_str.


(** [n] calls of the decorated sender in a row. *)
Definition calls_in_a_row (n : nat) : M unit :=
  for_each (seq 0 n)
    (fun _ => send_grouped_email_with_retry 2 env_slow_first "a@x.com" []
                                            email_config ;;; ret tt).

End Demo.


(* ================================================================== *)
(** * Part I, continued: vocabulary for further properties            *)
(* ================================================================== *)

(** The present results, in order. *)
Definition present (results : list (option triple)) : list triple :=
  flat_map (fun r => match r with Some t => [t] | None => [] end) results.

(** The elements of a list in the order of their first occurrence. *)
Fixpoint first_occurrences {K : Type} `{Key K} (l : list K) : list K :=
  match l with
  | [] => []
  | x :: l' =>
      x :: filter (fun y => negb (key_eqb y x)) (first_occurrences l')
  end.

(** Whether [y] is none of [keys]. *)
Definition fresh_for {K : Type} `{Key K} (keys : list K) (y : K) : bool :=
  negb (existsb (key_eqb y) keys).

(** The number of paths held by a dictionary. *)
Definition total_paths {K : Type} (d : dict K) : nat :=
  List.length (List.concat (map snd d)).

(** Whether the server delivers the [n]-th SMTP attempt of the run. *)
Definition delivered_at (env : Env) (email : value) (attachments : list string)
  (email_config : EmailConfig) (n : nat) : bool :=
  match fst (smtp env n email attachments email_config) with
  | Value _ => true
  | Error _ => false
  end.

(** The failed attempts before the first delivered one among the attempts
    [n], [n+1], ..., at most [budget] of them. *)
Fixpoint failures_before (env : Env) (email : value)
  (attachments : list string) (email_config : EmailConfig)
  (n budget : nat) : nat :=
  match budget with
  | 0 => 0
  | S budget' =>
      if delivered_at env email attachments email_config n then 0
      else S (failures_before env email attachments email_config (S n) budget')
  end.

(** The seconds the server takes for the attempts [n], ..., [n+count-1]. *)
Fixpoint busy (env : Env) (email : value) (attachments : list string)
  (email_config : EmailConfig) (n count : nat) : Z :=
  match count with
  | 0 => 0%Z
  | S count' =>
      (Z.of_nat (snd (smtp env n email attachments email_config))
       + busy env email attachments email_config (S n) count')%Z
  end.

(** The recipients whose call returned, in the order of the returns. *)
Definition returned_order (evs : list event) : list value :=
  flat_map (fun e => match e with Returned email _ => [email] | _ => [] end)
           (rev evs).

(** The number of SMTP attempts among events. *)
Definition n_attempts (evs : list event) : nat :=
  List.length (filter (fun e => match e with
                                | SmtpAttempt _ _ _ => true
                                | _ => false
                                end) evs).

(** The number of SMTP attempts addressed to [email] among events. *)
Definition attempts_to (email : value) (evs : list event) : nat :=
  List.length (filter (fun e => match e with
                                | SmtpAttempt x _ _ => key_eqb x email
                                | _ => false
                                end) evs).

(** The number of SMTP attempts addressed to [email] whose [try] block
    completed. *)
Definition deliveries_to (email : value) (evs : list event) : nat :=
  List.length (filter (fun e => match e with
                                | SmtpAttempt x _ delivered =>
                                    key_eqb x email && delivered
                                | _ => false
                                end) evs).







(** The exception that ends the run before any document is read, if any:
    the configuration, the table, the two directories, the listing, in
    this order. *)
Definition setup_fault (env : Env) : option exn :=
  match cfg_table_file env with
  | Error e => Some e
  | Value table_file =>
      match read_csv env table_file with
      | Error e => Some e
      | Value _ =>
          match cfg_directories env with
          | Error e => Some e
          | Value dirs =>
              match makedirs_fault env (grouped_directory dirs) with
              | Some e => Some e
              | None =>
                  match makedirs_fault env (processed_directory dirs) with
                  | Some e => Some e
                  | None =>
                      match listdir env (pdf_directory dirs) with
                      | Error e => Some e
                      | Value _ => None
                      end
                  end
              end
          end
      end
  end.

(** The effects that touch no document: log records and directories. *)
Definition harmless_event (e : event) : bool :=
  match e with
  | Log _ _ | MakeDirs _ => true
  | _ => false
  end.

(** The environment in which the source directory cannot be listed. *)
Definition with_listing_fault (env : Env) : Env :=
  mkEnv (cfg_table_file env) (cfg_directories env) (cfg_email env) (read_csv env)
        (fun dir => Error (OSError dir)) (pdf_pages env) (makedirs_fault env)
        (copy_fault env) (move_fault env) (smtp env).

(** The run gets as far as grouping, and the [Email] section of the
    configuration is then found faulty. *)
Record setup_without_email (env : Env) (dirs : Directories) (df : DataFrame)
  (names : list string) (e : exn) : Prop := mkSetupWithoutEmail {
  nomail_table :
    exists table_file,
      cfg_table_file env = Value table_file /\
      read_csv env table_file = Value df;
  nomail_dirs : cfg_directories env = Value dirs;
  nomail_grouped : makedirs_fault env (grouped_directory dirs) = None;
  nomail_processed : makedirs_fault env (processed_directory dirs) = None;
  nomail_listing : listdir env (pdf_directory dirs) = Value names;
  nomail_email : cfg_email env = Error e }.

Module Cases.

(** The run of [Demo.env] with a configuration whose [Email] section lacks
    the subject. *)
Definition env_no_subject : Env :=
  mkEnv (Value "table.csv") (Value Demo.dirs) (Error (KeyError "subject"))
        (fun _ => Value Demo.df) (fun _ => Value Demo.names)
        (Demo.pages_of Demo.documents) Demo.no_fault Demo.no_fault2
        Demo.no_fault2 Demo.smtp_ok.

(** A table without the identifier column. *)
Definition df_no_pan_column : DataFrame :=
  mkDataFrame ["Name"; "eMail ID"] (rows Demo.df).

(** A table without the address column. *)
Definition df_no_email_column : DataFrame :=
  mkDataFrame ["Name"; "PAN"] (rows Demo.df).

(** The staging directory of [ABCDE1234F] can be made, the copy into it
    fails. *)
Definition copy_fault_A (src dst : string) : option exn :=
  if String.eqb src "in/A.pdf" then Some (OSError dst) else None.

Definition env_copy_fault : Env :=
  mkEnv (Value "table.csv") (Value Demo.dirs) (Value Demo.email_config)
        (fun _ => Value Demo.df) (fun _ => Value Demo.names)
        (Demo.pages_of Demo.documents) Demo.no_fault copy_fault_A
        Demo.no_fault2 Demo.smtp_ok.

End Cases.
(* ================================================================== *)
(** * Part II: properties                                              *)
(* ================================================================== *)

(** ** Facts about strings *)

Module StrFacts.
Import Str.

Lemma append_assoc (a b c : string) :
  ((a ++ b) ++ c)%string = (a ++ (b ++ c))%string.
Proof. induction a as [|x a IH]; simpl; [reflexivity | now rewrite IH]. Qed.

Lemma append_empty_r (a : string) : (a ++ "")%string = a.
Proof. induction a as [|x a IH]; simpl; [reflexivity | now rewrite IH]. Qed.

Lemma length_append (a b : string) :
  String.length (a ++ b) = String.length a + String.length b.
Proof. induction a as [|x a IH]; simpl; [reflexivity | now rewrite IH]. Qed.

Lemma append_inv_head (a b c : string) :
  (a ++ b)%string = (a ++ c)%string -> b = c.
Proof.
  induction a as [|x a IH]; simpl; intros H; [exact H|].
  injection H as H. now apply IH.
Qed.

Lemma strip_prefix_spec (p s r : string) :
  strip_prefix p s = Some r <-> s = (p ++ r)%string.
Proof.
  revert s; induction p as [|a p IH]; intros s; simpl.
  - split; intros H; [now injection H as -> | now subst].
  - destruct s as [|b s].
    + split; intros H; discriminate.
    + destruct (Ascii.eqb_spec a b) as [->|Hab].
      * rewrite IH. split; intros H; [now subst | now injection H].
      * split; intros H; [discriminate | injection H as H1 _; congruence].
Qed.

Lemma strip_prefix_append (p r : string) : strip_prefix p (p ++ r) = Some r.
Proof. now apply strip_prefix_spec. Qed.

Lemma startswith_spec (s p : string) :
  startswith s p = true <-> exists r, s = (p ++ r)%string.
Proof.
  unfold startswith. destruct (strip_prefix p s) as [r|] eqn:E.
  - apply strip_prefix_spec in E. split; eauto.
  - split; [discriminate|]. intros [r Hr].
    apply strip_prefix_spec in Hr. congruence.
Qed.

Lemma contains_spec (s p : string) :
  contains s p = true <-> exists pre post, s = (pre ++ p ++ post)%string.
Proof.
  induction s as [|c s IH]; simpl.
  - rewrite orb_false_r, startswith_spec. split.
    + intros [r Hr]. now exists "", r.
    + intros (pre & post & H). destruct pre; [now exists post|discriminate].
  - rewrite orb_true_iff, startswith_spec, IH. split.
    + intros [[r Hr] | (pre & post & H)].
      * now exists "", r.
      * exists (String c pre), post. simpl. now rewrite H.
    + intros (pre & post & H). destruct pre as [|x pre]; simpl in H.
      * left. now exists post.
      * right. injection H as _ H. now exists pre, post.
Qed.

Lemma endswith_spec (s p : string) :
  endswith s p = true <-> exists pre, s = (pre ++ p)%string.
Proof.
  induction s as [|c s IH]; cbn [endswith].
  - rewrite orb_false_r, String.eqb_eq. split.
    + intros <-. now exists "".
    + intros [pre H]. destruct pre; [exact H | discriminate].
  - rewrite orb_true_iff, String.eqb_eq, IH. split.
    + intros [<- | [pre H]]; [now exists ""|].
      exists (String c pre). simpl. now rewrite H.
    + intros [pre H]. destruct pre as [|x pre]; simpl in H.
      * now left.
      * right. injection H as _ H. now exists pre.
Qed.

Lemma skip_class_split (cls : ascii -> bool) (s : string) :
  exists run, s = (run ++ skip_class cls s)%string /\ all cls run = true.
Proof.
  induction s as [|c s (run & Hs & Hrun)]; simpl.
  - now exists "".
  - destruct (cls c) eqn:E.
    + exists (String c run). simpl. rewrite E, Hrun. split; [congruence | reflexivity].
    + now exists "".
Qed.

Lemma skip_class_append (cls : ascii -> bool) (run : string) (c : ascii)
  (rest : string) :
  all cls run = true -> cls c = false ->
  skip_class cls (run ++ String c rest) = String c rest.
Proof.
  intros Hrun Hc. induction run as [|x run IH]; simpl in *.
  - now rewrite Hc.
  - apply andb_true_iff in Hrun as [Hx Hrun]. rewrite Hx. now apply IH.
Qed.

Lemma take_shape_sound (shape : list (ascii -> bool)) (s m r : string) :
  take_shape shape s = Some (m, r) ->
  s = (m ++ r)%string /\ conforms shape m = true.
Proof.
  revert s m r; induction shape as [|cls shape IH]; intros s m r; simpl.
  - intros H. injection H as <- <-. now split.
  - destruct s as [|c s]; [discriminate|].
    destruct (cls c) eqn:E; [|discriminate].
    destruct (take_shape shape s) as [[m' r']|] eqn:T; [|discriminate].
    intros H. injection H as <- <-.
    apply IH in T as [-> Hm']. simpl. now rewrite E, Hm'.
Qed.

Lemma take_shape_complete (shape : list (ascii -> bool)) (m r : string) :
  conforms shape m = true -> take_shape shape (m ++ r) = Some (m, r).
Proof.
  revert m; induction shape as [|cls shape IH]; intros [|c m]; simpl;
    try discriminate; [reflexivity|].
  intros H. apply andb_true_iff in H as [H1 H2].
  now rewrite H1, (IH m H2).
Qed.

Lemma conforms_length (shape : list (ascii -> bool)) (s : string) :
  conforms shape s = true -> String.length s = List.length shape.
Proof.
  revert s; induction shape as [|cls shape IH]; intros [|c s]; simpl;
    try discriminate; [reflexivity|].
  intros H. apply andb_true_iff in H as [_ H]. now rewrite (IH s H).
Qed.

Lemma conforms_all (cls : ascii -> bool) (shape : list (ascii -> bool))
  (s : string) :
  Forall (fun k => forall c, k c = true -> cls c = true) shape ->
  conforms shape s = true -> all cls s = true.
Proof.
  intros HF; revert s; induction HF as [|k shape Hk HF IH]; intros [|c s];
    simpl; try discriminate; [reflexivity|].
  intros H. apply andb_true_iff in H as [H1 H2].
  now rewrite (Hk c H1), (IH s H2).
Qed.

Lemma upper_not_space (c : ascii) : is_upper c = true -> is_space c = false.
Proof.
  unfold is_upper, is_space, in_range. intros H.
  apply andb_true_iff in H as [H1 H2].
  apply Nat.leb_le in H1, H2.
  repeat (apply orb_false_iff; split).
  - apply andb_false_iff. right. apply Nat.leb_gt. lia.
  - apply andb_false_iff. right. apply Nat.leb_gt. lia.
  - apply Nat.eqb_neq. lia.
  - apply Nat.eqb_neq. lia.
Qed.

End StrFacts.

(** ** The identifier pattern *)

Section Pattern.
Import Str StrFacts.

Lemma is_pan_length (code : string) :
  is_pan code = true -> String.length code = 10.
Proof. intros H. now rewrite (conforms_length _ _ H). Qed.

Lemma is_pan_head (code : string) :
  is_pan code = true ->
  exists c rest, code = String c rest /\ is_space c = false.
Proof.
  unfold is_pan, PAN_SHAPE. simpl. destruct code as [|c rest]; [discriminate|].
  intros H. apply andb_true_iff in H as [H _].
  exists c, rest. split; [reflexivity | now apply upper_not_space].
Qed.

Lemma match_here_spec (s code : string) :
  match_here s = Some code <-> matches_at s code.
Proof.
  unfold match_here, matches_at. split.
  - destruct (strip_prefix LABEL s) as [[|c r]|] eqn:P; try discriminate.
    destruct (is_space c) eqn:Hc; [|discriminate].
    destruct (take_shape PAN_SHAPE (skip_class is_space r)) as [[g post]|] eqn:T;
      [|discriminate].
    intros H. injection H as ->.
    apply strip_prefix_spec in P. apply take_shape_sound in T as [T Hg].
    destruct (skip_class_split is_space r) as (run & Hr & Hrun).
    exists (String c run), post. repeat split.
    + rewrite P. f_equal. simpl. f_equal. now rewrite Hr at 1; rewrite T.
    + discriminate.
    + simpl. now rewrite Hc, Hrun.
    + exact Hg.
  - intros (ws & post & -> & Hne & Hws & Hcode).
    rewrite strip_prefix_append.
    destruct ws as [|c ws]; [congruence|]. simpl in Hws.
    apply andb_true_iff in Hws as [Hc Hws].
    destruct (is_pan_head code Hcode) as (x & rest & Hx & Hsp).
    rewrite Hx at 1. cbn [append]. rewrite Hc.
    rewrite (skip_class_append is_space ws x (rest ++ post)%string Hws Hsp).
    change (String x (rest ++ post)) with (String x rest ++ post)%string.
    rewrite <- Hx.
    now rewrite (take_shape_complete PAN_SHAPE _ post Hcode).
Qed.

Lemma matches_at_unique (s c1 c2 : string) :
  matches_at s c1 -> matches_at s c2 -> c1 = c2.
Proof.
  intros H1 H2. apply match_here_spec in H1, H2. congruence.
Qed.


Lemma re_search_some (text code : string) :
  re_search text = Some code <-> first_match text code.
Proof.
  unfold first_match. revert code. induction text as [|a text IH]; intros code.
  - simpl. destruct (match_here "") as [g|] eqn:E.
    + apply match_here_spec in E.
      destruct E as (ws & post & E & _). discriminate E.
    + split; [discriminate|]. intros (pre & rest & Hs & Hm & _).
      destruct pre; [|discriminate]. simpl in Hs. subst rest.
      apply match_here_spec in Hm. congruence.
  - cbn [re_search]. destruct (match_here (String a text)) as [g|] eqn:E.
    + split.
      * intros H. injection H as ->. exists "", (String a text).
        split; [reflexivity|]. split; [now apply match_here_spec|].
        intros pre' rest' code' _ Hlt. simpl in Hlt. lia.
      * intros (pre & rest & Hs & Hm & Hfirst).
        destruct pre as [|x pre].
        -- simpl in Hs. subst rest. apply match_here_spec in Hm. congruence.
        -- exfalso. apply (Hfirst "" (String a text) g eq_refl).
           ++ simpl. lia.
           ++ now apply match_here_spec.
    + rewrite IH. split.
      * intros (pre & rest & Hs & Hm & Hfirst).
        exists (String a pre), rest. split; [simpl; now rewrite Hs|].
        split; [exact Hm|].
        intros pre' rest' code' Hs' Hlt Hm'.
        destruct pre' as [|x pre']; simpl in Hs'.
        -- subst rest'. apply match_here_spec in Hm'. congruence.
        -- injection Hs' as _ Hs'. apply (Hfirst pre' rest' code' Hs'); [|exact Hm'].
           simpl in Hlt. lia.
      * intros (pre & rest & Hs & Hm & Hfirst).
        destruct pre as [|x pre]; simpl in Hs.
        -- subst rest. apply match_here_spec in Hm. congruence.
        -- injection Hs as _ Hs. exists pre, rest. split; [exact Hs|].
           split; [exact Hm|].
           intros pre' rest' code' Hs' Hlt.
           apply (Hfirst (String a pre') rest' code').
           ++ simpl. now rewrite Hs'.
           ++ simpl. lia.
Qed.

Lemma re_search_is_pan (text code : string) :
  re_search text = Some code -> is_pan code = true.
Proof.
  intros H. apply re_search_some in H as (pre & rest & _ & Hm & _).
  destruct Hm as (ws & post & _ & _ & _ & Hcode). exact Hcode.
Qed.



End Pattern.






(** Nor does a well-formed identifier in small letters match, nor is a code
    that is too long refused: its first ten characters are returned. *)
Example extract_lower_case_and_long_codes :
  well_formatted "abcde1234f" = true /\
  re_search "Unique Identification Number abcde1234f" = None /\
  re_search "Unique Identification Number ABCDE1234FGH" = Some "ABCDE1234F".
Proof. repeat split. Qed.

Example extract_needs_white_space :
  re_search "Unique Identification NumberABCDE1234F" = None.
Proof. reflexivity. Qed.

Example extract_first_of_two :
  re_search
    "Unique Identification Number ABCDE123 Unique Identification Number  PQRST5678UV Unique Identification Number ABCDE1234F"
  = Some "PQRST5678U".
Proof. reflexivity. Qed.

Example extract_malformed_code :
  re_search "Unique Identification Number abcde1234f" = None.
Proof. reflexivity. Qed.

(** ** The resolver *)

Lemma column_present (df : DataFrame) (name : string) :
  In name (columns df) -> column df name = Value tt.
Proof.
  intros H. unfold column.
  assert (E : existsb (String.eqb name) (columns df) = true).
  { apply existsb_exists. exists name. split; [exact H | apply String.eqb_refl]. }
  now rewrite E.
Qed.

Lemma get_email_for_pan_value (pan : string) (df : DataFrame) (w : World) :
  fst (get_email_for_pan pan df w) = Ok (resolved df pan).
Proof.
  unfold get_email_for_pan, resolved, try_except, bind, lift, log, emit, ret.
  destruct (column df "PAN") as [[]|e]; simpl; [|reflexivity].
  destruct (filter _ (rows df)) as [|r l]; [reflexivity|].
  destruct (column df "eMail ID") as [[]|e]; reflexivity.
Qed.

Lemma filter_first {A} (f : A -> bool) (before : list A) (x : A) (after : list A) :
  f x = true -> (forall y, In y before -> f y = false) ->
  filter f (before ++ x :: after) = x :: filter f after.
Proof.
  intros Hx Hb. induction before as [|y before IH]; simpl.
  - now rewrite Hx.
  - rewrite (Hb y (or_introl eq_refl)). apply IH.
    intros z Hz. apply Hb. now right.
Qed.

Lemma filter_none {A} (f : A -> bool) (l : list A) :
  (forall x, In x l -> f x = false) -> filter f l = [].
Proof.
  induction l as [|a l IH]; intros H; [reflexivity|]. simpl.
  rewrite (H a (or_introl eq_refl)). apply IH. intros x Hx. apply H. now right.
Qed.

Lemma first_split {A} (f : A -> bool) (l : list A) :
  (exists x, In x l /\ f x = true) ->
  exists before x after,
    l = before ++ x :: after /\ f x = true /\
    forall y, In y before -> f y = false.
Proof.
  induction l as [|a l IH]; intros (x & Hin & Hx); [destruct Hin|].
  destruct (f a) eqn:Ea.
  - exists [], a, l. repeat split; [exact Ea | intros y []].
  - destruct Hin as [->|Hin]; [congruence|].
    destruct (IH (ex_intro _ x (conj Hin Hx))) as (b & y & c & -> & Hy & Hb).
    exists (a :: b), y, c. repeat split; [exact Hy|].
    intros z [<-|Hz]; [exact Ea | now apply Hb].
Qed.

(** C6. On a table that has the identifier and the address columns, the
    resolver returns the address of the first row whose identifier cell
    equals the queried identifier, also when several rows carry it, and it
    returns [None] for an identifier that no row carries. *)
Theorem get_email_for_pan_spec (pan : string) (df : DataFrame) (w : World) :
  In "PAN" (columns df) -> In "eMail ID" (columns df) ->
  let result := fst (get_email_for_pan pan df w) in
  (forall before r after,
      rows df = before ++ r :: after -> PAN r = pan ->
      (forall r', In r' before -> PAN r' <> pan) ->
      result = Ok (Some (eMail_ID r))) /\
  ((exists r, In r (rows df) /\ PAN r = pan) ->
   exists before r after,
     rows df = before ++ r :: after /\ PAN r = pan /\
     (forall r', In r' before -> PAN r' <> pan) /\
     result = Ok (Some (eMail_ID r))) /\
  ((forall r, In r (rows df) -> PAN r <> pan) -> result = Ok None).
Proof.
  intros Hpan Hmail result.
  assert (Hres : result =
                 Ok (match filter (fun r => String.eqb (PAN r) pan) (rows df) with
                     | [] => None
                     | r :: _ => Some (eMail_ID r)
                     end)).
  { unfold result. rewrite get_email_for_pan_value. unfold resolved.
    rewrite (column_present _ _ Hpan), (column_present _ _ Hmail).
    now destruct (filter _ (rows df)). }
  assert (Hfirst : forall before r after,
             rows df = before ++ r :: after -> PAN r = pan ->
             (forall r', In r' before -> PAN r' <> pan) ->
             result = Ok (Some (eMail_ID r))).
  { intros before r after Hrows Hr Hbefore. rewrite Hres, Hrows.
    rewrite filter_first; [reflexivity | now apply String.eqb_eq |].
    intros y Hy. apply String.eqb_neq. now apply Hbefore. }
  split; [exact Hfirst | split].
  - intros (r & Hin & Hr).
    destruct (first_split (fun r => String.eqb (PAN r) pan) (rows df))
      as (before & x & after & Hrows & Hx & Hb).
    { exists r. split; [exact Hin | now apply String.eqb_eq]. }
    apply String.eqb_eq in Hx.
    assert (Hb' : forall r', In r' before -> PAN r' <> pan)
      by (intros r' Hr'; apply String.eqb_neq; now apply Hb).
    exists before, x, after. repeat split; try assumption.
    now apply (Hfirst before x after).
  - intros Hnone. rewrite Hres.
    assert (E : filter (fun r => String.eqb (PAN r) pan) (rows df) = []).
    { apply filter_none. intros r Hr. apply String.eqb_neq. now apply Hnone. }
    now rewrite E.
Qed.

Lemma get_email_for_pan_spec_witness :
  fst (get_email_for_pan "ABCDE1234F" Demo.df (start 0))
  = Ok (Some (Str "a@x.com")) /\
  fst (get_email_for_pan "ZZZZZ9999Z" Demo.df (start 0)) = Ok None.
Proof.
  split.
  - destruct (get_email_for_pan_spec "ABCDE1234F" Demo.df (start 0)) as [H _].
    + simpl. tauto.
    + simpl. tauto.
    + apply (H [] (mkRow "ABCDE1234F" "a@x.com") (tl (rows Demo.df)) eq_refl eq_refl).
      intros r' [].
  - destruct (get_email_for_pan_spec "ZZZZZ9999Z" Demo.df (start 0)) as (_ & _ & H).
    + simpl. tauto.
    + simpl. tauto.
    + apply H. intros r Hr. simpl in Hr.
      repeat (destruct Hr as [<-|Hr]; [simpl; discriminate|]). destruct Hr.
Defined.

(** ** Dictionaries and grouping *)

Section Keys.

Context {K : Type} {key_of_K : Key K}.

Lemma key_eqb_spec (x y : K) : reflect (x = y) (key_eqb x y).
Proof.
  unfold key_eqb. destruct (key_dec x y); constructor; assumption.
Qed.

Lemma key_eqb_refl (x : K) : key_eqb x x = true.
Proof. now destruct (key_eqb_spec x x). Qed.

Lemma key_eqb_eq (x y : K) : key_eqb x y = true <-> x = y.
Proof. destruct (key_eqb_spec x y); split; congruence. Qed.

Lemma key_eqb_neq (x y : K) : key_eqb x y = false <-> x <> y.
Proof. destruct (key_eqb_spec x y); split; congruence. Qed.

Lemma key_eqb_sym (x y : K) : key_eqb x y = key_eqb y x.
Proof.
  destruct (key_eqb_spec x y), (key_eqb_spec y x); congruence.
Qed.

End Keys.

Lemma string_key_eqb (x y : string) : key_eqb x y = key_eqb x y.
Proof.
  destruct (key_eqb_spec x y), (key_eqb_spec x y); congruence.
Qed.

Section Dictionaries.

Context {K : Type} {key_of_K : Key K}.

Lemma dict_mem_get (k : K) (d : dict K) :
  dict_mem k d = match dict_get k d with Some _ => true | None => false end.
Proof.
  induction d as [|[k' l] d IH]; simpl; [reflexivity|].
  destruct (key_eqb k k'); [reflexivity | exact IH].
Qed.

Lemma dict_get_none_keys (k : K) (d : dict K) :
  dict_get k d = None <-> ~ In k (map fst d).
Proof.
  induction d as [|[k' l] d IH]; simpl; [tauto|].
  destruct (key_eqb_spec k k') as [->|Hne].
  - split; [discriminate | tauto].
  - rewrite IH. split; [intros H [E|E]; [congruence | tauto] | tauto].
Qed.

Lemma dict_get_in (k : K) (l : list string) (d : dict K) :
  dict_get k d = Some l -> In (k, l) d.
Proof.
  induction d as [|[k' l'] d IH]; simpl; [discriminate|].
  destruct (key_eqb_spec k k') as [->|Hne].
  - intros H. injection H as ->. now left.
  - intros H. right. now apply IH.
Qed.

Lemma dict_in_get (k : K) (l : list string) (d : dict K) :
  NoDup (map fst d) -> In (k, l) d -> dict_get k d = Some l.
Proof.
  induction d as [|[k' l'] d IH]; simpl; [tauto|].
  intros Hnd [E|Hin]; inversion Hnd as [|? ? Hk Hnd']; subst.
  - injection E as -> ->. now rewrite key_eqb_refl.
  - destruct (key_eqb_spec k k') as [->|Hne]; [|now apply IH].
    exfalso. apply Hk. apply (in_map fst) in Hin. exact Hin.
Qed.

Lemma dict_get_app (k : K) (d1 d2 : dict K) :
  dict_get k (d1 ++ d2) =
  match dict_get k d1 with Some l => Some l | None => dict_get k d2 end.
Proof.
  induction d1 as [|[k' l] d1 IH]; simpl; [reflexivity|].
  destruct (key_eqb k k'); [reflexivity | exact IH].
Qed.

Lemma dict_set_new (k : K) (l : list string) (d : dict K) :
  dict_get k d = None -> dict_set k l d = d ++ [(k, l)].
Proof.
  induction d as [|[k' l'] d IH]; simpl; [reflexivity|].
  destruct (key_eqb k k'); [discriminate|].
  intros H. now rewrite (IH H).
Qed.

Lemma dict_append_present (k : K) (v : string) (l : list string) (d : dict K) :
  dict_get k d = Some l ->
  exists d',
    dict_append k v d = Value d' /\ map fst d' = map fst d /\
    forall k', dict_get k' d' =
               if key_eqb k' k then Some (l ++ [v]) else dict_get k' d.
Proof.
  induction d as [|[k0 l0] d IH]; simpl; [discriminate|].
  destruct (key_eqb_spec k k0) as [->|Hne].
  - intros H. injection H as ->. eexists. split; [reflexivity|].
    split; [reflexivity|]. intros k'. simpl.
    now destruct (key_eqb k' k0).
  - intros H. destruct (IH H) as (d' & -> & Hkeys & Hget).
    eexists. split; [reflexivity|]. split; [simpl; now rewrite Hkeys|].
    intros k'. simpl. rewrite Hget.
    destruct (key_eqb_spec k' k0) as [->|Hne']; [|reflexivity].
    destruct (key_eqb_spec k0 k); [congruence | reflexivity].
Qed.

Lemma touch_spec (k : K) (v : string) (d : dict K) :
  exists d',
    touch k v d = Value d' /\
    (forall k', dict_get k' d' =
                extend (dict_get k' d) (if key_eqb k k' then [v] else [])) /\
    (NoDup (map fst d) -> NoDup (map fst d')).
Proof.
  unfold touch. rewrite dict_mem_get.
  destruct (dict_get k d) as [l|] eqn:E; simpl.
  - destruct (dict_append_present k v l d E) as (d' & Hd' & Hkeys & Hget).
    exists d'. split; [exact Hd'|]. split; [|now rewrite Hkeys].
    intros k'. rewrite Hget, (key_eqb_sym k' k).
    destruct (key_eqb_spec k k') as [->|Hne]; simpl; [now rewrite E | reflexivity].
  - rewrite (dict_set_new k [] d E).
    assert (E' : dict_get k (d ++ [(k, [])]) = Some []).
    { rewrite dict_get_app, E. simpl. now rewrite key_eqb_refl. }
    destruct (dict_append_present k v [] _ E') as (d' & Hd' & Hkeys & Hget).
    exists d'. split; [exact Hd'|]. split.
    + intros k'. rewrite Hget, dict_get_app, (key_eqb_sym k' k).
      destruct (key_eqb_spec k k') as [->|Hne]; simpl.
      * now rewrite E.
      * rewrite (proj2 (key_eqb_neq k' k)) by congruence.
        now destruct (dict_get k' d).
    + intros Hnd. rewrite Hkeys, map_app. simpl.
      apply NoDup_app; [exact Hnd | apply NoDup_cons; [intros [] | constructor] |].
      intros x Hx [<-|[]]. now apply dict_get_none_keys in E.
Qed.

Lemma extend_extend (o : option (list string)) (xs ys : list string) :
  extend (extend o xs) ys = extend o (xs ++ ys).
Proof.
  destruct xs as [|x xs]; [reflexivity|].
  destruct ys as [|y ys]; simpl; [now rewrite app_nil_r|].
  now rewrite <- app_assoc.
Qed.

End Dictionaries.

Lemma group_step_touch (eg : dict value) (pf : dict string)
  (pan : string) (email : value) (path : string) :
  group_step (Value (eg, pf)) (Some (pan, email, path)) =
  match touch email path eg with
  | Value eg' =>
      match touch pan path pf with
      | Value pf' => Value (eg', pf')
      | Error e => Error e
      end
  | Error e => Error e
  end.
Proof. reflexivity. Qed.

(** The grouping loop never raises; each dictionary maps a key to the
    paths of the triples carrying it, in the order of the results. *)
Lemma group_fold (results : list (option triple)) (eg : dict value)
  (pf : dict string) :
  exists eg' pf',
    fold_left group_step results (Value (eg, pf)) = Value (eg', pf') /\
    (forall k, dict_get k eg' =
               extend (dict_get k eg) (paths_by email_of k results)) /\
    (forall k, dict_get k pf' =
               extend (dict_get k pf) (paths_by pan_of k results)) /\
    (NoDup (map fst eg) -> NoDup (map fst eg')) /\
    (NoDup (map fst pf) -> NoDup (map fst pf')).
Proof.
  revert eg pf. induction results as [|r results IH]; intros eg pf.
  - exists eg, pf. simpl. tauto.
  - cbn [fold_left]. destruct r as [[[pan email] path]|].
    + rewrite group_step_touch.
      destruct (touch_spec email path eg) as (eg1 & -> & Heg & Hnd1).
      destruct (touch_spec pan path pf) as (pf1 & -> & Hpf & Hnd2).
      destruct (IH eg1 pf1) as (eg' & pf' & -> & Hg1 & Hg2 & Hn1 & Hn2).
      exists eg', pf'. split; [reflexivity|].
      split; [|split; [|split; [tauto | tauto]]].
      * intros k. rewrite Hg1, Heg, extend_extend. reflexivity.
      * intros k. rewrite Hg2, Hpf, extend_extend. reflexivity.
    + destruct (IH eg pf) as (eg' & pf' & H & Hrest).
      exists eg', pf'. split; [exact H | exact Hrest].
Qed.

Lemma group_results_spec (results : list (option triple)) :
  exists eg pf,
    group_results results = Value (eg, pf) /\
    (forall k, dict_get k eg = extend None (paths_by email_of k results)) /\
    (forall k, dict_get k pf = extend None (paths_by pan_of k results)) /\
    NoDup (map fst eg) /\ NoDup (map fst pf).
Proof.
  destruct (group_fold results [] []) as (eg & pf & H & H1 & H2 & H3 & H4).
  exists eg, pf. split; [exact H|].
  repeat split; [exact H1 | exact H2 | apply H3; constructor | apply H4; constructor].
Qed.

Section Paths.

Context {K : Type} {key_of_K : Key K}.

Lemma paths_by_in (key : triple -> K) (k : K) (p : string)
  (results : list (option triple)) :
  In p (paths_by key k results) <->
  exists t, In (Some t) results /\ key t = k /\ path_of t = p.
Proof.
  unfold paths_by. rewrite in_flat_map. split.
  - intros ([t|] & Hin & Hp); [|destruct Hp].
    destruct (key_eqb_spec (key t) k) as [E|E]; [|destruct Hp].
    destruct Hp as [<-|[]]. now exists t.
  - intros (t & Hin & Hk & Hp). exists (Some t). split; [exact Hin|].
    rewrite (proj2 (key_eqb_eq _ _) Hk). now left.
Qed.

Lemma paths_by_perm (key : triple -> K) (k : K)
  (results results' : list (option triple)) :
  Permutation results results' ->
  Permutation (paths_by key k results) (paths_by key k results').
Proof.
  intros H. induction H as [| r l l' H IH | r r' l | l l' l'' H1 IH1 H2 IH2].
  - constructor.
  - unfold paths_by. simpl. now apply Permutation_app_head.
  - unfold paths_by. simpl. rewrite !app_assoc.
    apply Permutation_app_tail, Permutation_app_comm.
  - now transitivity (paths_by key k l').
Qed.

End Paths.

Lemma extend_none_in (ps l : list string) :
  extend None ps = Some l -> l = ps.
Proof. destruct ps; simpl; [discriminate | now intros H; injection H]. Qed.

Lemma extend_none_is_some (ps : list string) :
  match extend None ps with Some _ => true | None => false end =
  match ps with [] => false | _ => true end.
Proof. now destruct ps. Qed.

(** C7. Grouping a list of optional triples and grouping any permutation of
    it both succeed, and give address-to-paths dictionaries with the same
    keys and the same set of paths under each key, and likewise
    identifier-to-paths dictionaries. *)
Theorem grouping_order_independent (results results' : list (option triple)) :
  Permutation results results' ->
  exists eg pf eg' pf',
    group_results results = Value (eg, pf) /\
    group_results results' = Value (eg', pf') /\
    same_as_sets eg eg' /\ same_as_sets pf pf'.
Proof.
  intros Hperm.
  destruct (group_results_spec results) as (eg & pf & H & Heg & Hpf & _).
  destruct (group_results_spec results') as (eg' & pf' & H' & Heg' & Hpf' & _).
  exists eg, pf, eg', pf'. split; [exact H|]. split; [exact H'|].
  assert (Hsame : forall (K : Type) (key_of_K : Key K) (key : triple -> K)
                         (d d' : dict K),
             (forall k, dict_get k d = extend None (paths_by key k results)) ->
             (forall k, dict_get k d' = extend None (paths_by key k results')) ->
             same_as_sets d d').
  { intros K key_of_K key d d' Hd Hd'. split.
    - intros k. rewrite !dict_mem_get, Hd, Hd', !extend_none_is_some.
      pose proof (paths_by_perm key k _ _ Hperm) as P.
      destruct (paths_by key k results) as [|x xs].
      + now rewrite (Permutation_nil P).
      + destruct (paths_by key k results'); [|reflexivity].
        apply Permutation_sym, Permutation_nil in P. discriminate.
    - intros k l l' Hl Hl' p. rewrite Hd in Hl. rewrite Hd' in Hl'.
      apply extend_none_in in Hl, Hl'. subst l l'.
      pose proof (paths_by_perm key k _ _ Hperm) as P.
      split; intros Hin.
      + exact (Permutation_in p P Hin).
      + exact (Permutation_in p (Permutation_sym P) Hin). }
  split; [exact (Hsame _ _ email_of eg eg' Heg Heg')
         | exact (Hsame _ _ pan_of pf pf' Hpf Hpf')].
Qed.

Lemma grouping_order_independent_witness :
  exists eg pf eg' pf',
    group_results [Some ("ABCDE1234F", Str "a@x.com", "s/ABCDE1234F/A.pdf"); None;
                   Some ("PQRST5678U", Str "a@x.com", "s/PQRST5678U/B.pdf")]
      = Value (eg, pf) /\
    group_results [Some ("PQRST5678U", Str "a@x.com", "s/PQRST5678U/B.pdf");
                   Some ("ABCDE1234F", Str "a@x.com", "s/ABCDE1234F/A.pdf"); None]
      = Value (eg', pf') /\
    same_as_sets eg eg' /\ same_as_sets pf pf'.
Proof.
  apply grouping_order_independent.
  apply Permutation_trans with
    (l' := [Some ("ABCDE1234F", Str "a@x.com", "s/ABCDE1234F/A.pdf");
            Some ("PQRST5678U", Str "a@x.com", "s/PQRST5678U/B.pdf"); None]).
  - apply perm_skip. apply perm_swap.
  - apply perm_swap.
Defined.

Example grouping_order_matters_for_lists :
  group_results [Some ("ABCDE1234F", Str "a@x.com", "p1"); Some ("PQRST5678U", Str "a@x.com", "p2")]
    = Value ([(Str "a@x.com", ["p1"; "p2"])], [("ABCDE1234F", ["p1"]); ("PQRST5678U", ["p2"])]) /\
  group_results [Some ("PQRST5678U", Str "a@x.com", "p2"); Some ("ABCDE1234F", Str "a@x.com", "p1")]
    = Value ([(Str "a@x.com", ["p2"; "p1"])], [("PQRST5678U", ["p2"]); ("ABCDE1234F", ["p1"])]).
Proof. split; reflexivity. Qed.

(** ** Classification *)

Section Classification.

Lemma record_nil (w : World) : record [] w = w.
Proof. now destruct w. Qed.

Lemma record_record (e2 e1 : list event) (w : World) :
  record e2 (record e1 w) = record (e2 ++ e1) w.
Proof. unfold record. simpl. now rewrite map_app, app_assoc. Qed.

Lemma emit_record (e : event) (w : World) : emit e w = (Ok tt, record [e] w).
Proof. reflexivity. Qed.

Lemma log_events_staging (evs : list event) :
  forallb log_event evs = true -> forallb staging_event evs = true.
Proof.
  induction evs as [|e evs IH]; [reflexivity|]. simpl. intros H.
  apply andb_true_iff in H as [He H]. rewrite (IH H).
  destruct e; try discriminate. reflexivity.
Qed.

Lemma log_events_no_copy (evs : list event) (src dst : string) :
  forallb log_event evs = true -> ~ In (CopyFile src dst) evs.
Proof.
  intros H Hin. rewrite forallb_forall in H. specialize (H _ Hin). discriminate.
Qed.

Lemma extract_pan_from_pdf_run (env : Env) (pdf_path : string) (w : World) :
  exists evs,
    extract_pan_from_pdf env pdf_path w
    = (Ok (extracted env pdf_path), record evs w) /\
    forallb log_event evs = true.
Proof.
  unfold extract_pan_from_pdf, extracted, try_except, bind, lift, log, ret.
  destruct (pdf_pages env pdf_path) as [pages|e]; cbn [res_of_reply].
  - destruct (re_search (Str.concat pages)) as [g|].
    + exists []. now rewrite record_nil.
    + eexists [_]. rewrite emit_record. split; reflexivity.
  - eexists [_]. rewrite emit_record. split; reflexivity.
Qed.

Lemma get_email_for_pan_run (pan : string) (df : DataFrame) (w : World) :
  exists evs,
    get_email_for_pan pan df w = (Ok (resolved df pan), record evs w) /\
    forallb log_event evs = true.
Proof.
  unfold get_email_for_pan, resolved, try_except, bind, lift, log, ret.
  destruct (column df "PAN") as [[]|e]; cbn [res_of_reply].
  - destruct (filter _ (rows df)) as [|r l].
    + exists []. now rewrite record_nil.
    + destruct (column df "eMail ID") as [[]|e]; cbn [res_of_reply].
      * exists []. now rewrite record_nil.
      * eexists [_]. rewrite emit_record. split; reflexivity.
  - eexists [_]. rewrite emit_record. split; reflexivity.
Qed.

Lemma extracted_is_pan (env : Env) (pdf_path pan : string) :
  extracted env pdf_path = Some pan -> is_pan pan = true.
Proof.
  unfold extracted. destruct (pdf_pages env pdf_path); [|discriminate].
  apply re_search_is_pan.
Qed.

Lemma is_pan_nonempty (pan : string) : is_pan pan = true -> nonempty pan = true.
Proof. destruct pan; [discriminate | reflexivity]. Qed.

(** [process_pdf] never raises: it returns the value [classified] and
    leaves behind staging effects only, among them the copy of the
    document when it returns a triple, and no copy of anything else. *)
Lemma process_pdf_run (env : Env) (pdf_dir output_dir : string)
  (df : DataFrame) (pdf_file : string) (w : World) :
  exists evs,
    process_pdf env pdf_dir output_dir df pdf_file w
    = (Ok (classified env pdf_dir output_dir df pdf_file), record evs w) /\
    forallb staging_event evs = true /\
    (forall t, classified env pdf_dir output_dir df pdf_file = Some t ->
               In (CopyFile (Path.join pdf_dir [pdf_file]) (path_of t)) evs) /\
    (forall src dst, In (CopyFile src dst) evs ->
                     src = Path.join pdf_dir [pdf_file]).
Proof.
  unfold process_pdf, classified, try_except, bind.
  destruct (extract_pan_from_pdf_run env (Path.join pdf_dir [pdf_file]) w)
    as (ev1 & -> & L1).
  pose proof (log_events_staging _ L1) as S1.
  assert (N1 : forall l src dst,
             forallb log_event l = true ->
             In (CopyFile src dst) (l ++ ev1) -> False).
  { intros l src dst Hl Hin. apply in_app_or in Hin as [Hin|Hin];
      [exact (log_events_no_copy _ _ _ Hl Hin)
      | exact (log_events_no_copy _ _ _ L1 Hin)]. }
  destruct (extracted env (Path.join pdf_dir [pdf_file])) as [pan|] eqn:E.
  - rewrite (is_pan_nonempty pan (extracted_is_pan _ _ _ E)).
    destruct (get_email_for_pan_run pan df (record ev1 w)) as (ev2 & -> & L2).
    pose proof (log_events_staging _ L2) as S2.
    assert (N2 : forall l src dst,
               forallb log_event l = true ->
               In (CopyFile src dst) (l ++ ev2 ++ ev1) -> False).
    { intros l src dst Hl Hin. rewrite app_assoc in Hin.
      apply (N1 (l ++ ev2) src dst); [|exact Hin].
      now rewrite forallb_app, Hl, L2. }
    rewrite record_record.
    destruct (resolved df pan) as [email|].
    + cbn [andb]. destruct (truthy email).
      * unfold makedirs, copy, fs_call, raise, lift, log, ret.
        destruct (makedirs_fault env (Path.join output_dir [pan])) as [x|];
          cbn [res_of_reply].
        -- rewrite emit_record, record_record. eexists. split; [reflexivity|].
           split; [simpl; now rewrite forallb_app, S1, S2|].
           split; [discriminate|].
           intros src dst Hin. exfalso. refine (N2 _ src dst _ Hin). reflexivity.
        -- rewrite emit_record, record_record.
           destruct (copy_fault env _ _) as [x|]; cbn [res_of_reply].
           ++ rewrite emit_record, record_record. eexists. split; [reflexivity|].
              split; [simpl; now rewrite forallb_app, S1, S2|].
              split; [discriminate|].
              intros src dst [Hin|[Hin|Hin]]; try discriminate.
              exfalso. refine (N2 [] src dst _ Hin). reflexivity.
           ++ rewrite emit_record, record_record. eexists. split; [reflexivity|].
              split; [simpl; now rewrite forallb_app, S1, S2|].
              split; [intros t Ht; injection Ht as <-; now left|].
              intros src dst [Hin|[Hin|Hin]]; try discriminate.
              ** now injection Hin as <- _.
              ** exfalso. refine (N2 [] src dst _ Hin). reflexivity.
      * unfold log, ret. rewrite emit_record, record_record.
        eexists. split; [reflexivity|].
        split; [simpl; now rewrite forallb_app, S1, S2|].
        split; [discriminate|].
        intros src dst Hin. exfalso. refine (N2 _ src dst _ Hin). reflexivity.
    + unfold log, ret. rewrite emit_record, record_record.
      eexists. split; [reflexivity|].
      split; [simpl; now rewrite forallb_app, S1, S2|].
      split; [discriminate|].
      intros src dst Hin. exfalso. refine (N2 _ src dst _ Hin). reflexivity.
  - unfold log, ret. rewrite emit_record, record_record.
    eexists. split; [reflexivity|]. split; [exact S1|].
    split; [discriminate|].
    intros src dst Hin. exfalso. refine (N1 _ src dst _ Hin). reflexivity.
Qed.

Lemma classify_run (env : Env) (pdf_dir grouped_dir : string)
  (df : DataFrame) (pdf_files : list string) (w : World) :
  exists evs,
    classify env pdf_dir grouped_dir df pdf_files w
    = (Ok (map (classified env pdf_dir grouped_dir df) pdf_files),
       record evs w) /\
    forallb staging_event evs = true /\
    (forall t, In (Some t) (map (classified env pdf_dir grouped_dir df) pdf_files) ->
               exists src, In (CopyFile src (path_of t)) evs) /\
    (forall src dst, In (CopyFile src dst) evs ->
       exists f, In f pdf_files /\ src = Path.join pdf_dir [f]).
Proof.
  unfold classify. revert w.
  induction pdf_files as [|f files IH]; intros w; cbn [executor_map map].
  - exists []. unfold ret. rewrite record_nil. split; [reflexivity|].
    split; [reflexivity|]. split; [intros t [] | intros src dst []].
  - unfold bind at 1.
    destruct (process_pdf_run env pdf_dir grouped_dir df f w)
      as (ev1 & -> & S1 & C1 & O1).
    unfold bind at 1.
    destruct (IH (record ev1 w)) as (ev2 & -> & S2 & C2 & O2).
    unfold ret. rewrite record_record. eexists. split; [reflexivity|].
    split; [now rewrite forallb_app, S1, S2|]. split.
    + intros t [Ht|Ht].
      * exists (Path.join pdf_dir [f]). apply in_or_app. right. now apply C1.
      * destruct (C2 t Ht) as [src Hsrc]. exists src. apply in_or_app. now left.
    + intros src dst Hin. apply in_app_or in Hin as [Hin|Hin].
      * destruct (O2 src dst Hin) as (g & Hg & ->). exists g. split; [now right | reflexivity].
      * exists f. split; [now left | exact (O1 src dst Hin)].
Qed.


Lemma classified_some (env : Env) (pdf_dir output_dir : string)
  (df : DataFrame) (pdf_file pan : string) (email : value) (path : string) :
  classified env pdf_dir output_dir df pdf_file = Some (pan, email, path) ->
  extracted env (Path.join pdf_dir [pdf_file]) = Some pan /\
  resolved df pan = Some email /\ truthy email = true /\
  path = Path.join (Path.join output_dir [pan]) [pdf_file].
Proof.
  unfold classified.
  destruct (extracted env _) as [pan'|]; [|discriminate].
  destruct (resolved df pan') as [email'|] eqn:R; [|discriminate].
  destruct (nonempty pan'); [|discriminate].
  destruct (truthy email') eqn:T; [|discriminate].
  cbn [andb].
  destruct (makedirs_fault env _); [discriminate|].
  destruct (copy_fault env _ _); [discriminate|].
  intros H. injection H as <- <- <-.
  split; [reflexivity|]. split; [exact R|]. split; [exact T | reflexivity].
Qed.

End Classification.


Example classification_demo :
  fst (classify Demo.env "in" "staging" Demo.df
         ["A.pdf"; "D.pdf"; "E.pdf"; "F.pdf"; "B.PDF"] (start 0))
  = Ok [Some ("ABCDE1234F", Str "a@x.com", "staging/ABCDE1234F/A.pdf");
        None; None; None;
        Some ("PQRST5678U", Str "b@x.com", "staging/PQRST5678U/B.PDF")].
Proof. vm_compute. reflexivity. Qed.

(** A document whose row has an empty address cell is classified like any
    other: the [nan] of the cell is true, so the document is staged and its
    slot holds a triple with that [nan]. *)
Example classification_of_an_address_less_row :
  fst (classify (Demo.env_nan Demo.df_nan) "in" "staging" Demo.df_nan
         ["A.pdf"; "B.PDF"; "E.pdf"] (start 0))
  = Ok [Some ("ABCDE1234F", nan 0, "staging/ABCDE1234F/A.pdf");
        Some ("PQRST5678U", Str "b@x.com", "staging/PQRST5678U/B.PDF");
        None] /\
  In (CopyFile "in/A.pdf" "staging/ABCDE1234F/A.pdf")
     (events (snd (classify (Demo.env_nan Demo.df_nan) "in" "staging"
                            Demo.df_nan ["A.pdf"; "B.PDF"; "E.pdf"]
                            (start 0)))).
Proof.
  vm_compute. split; [reflexivity|].
  repeat first [left; reflexivity | right].
Qed.

(** ** Staged paths *)

Section StagedPaths.
Import Str StrFacts.

Lemma append_inv_length (a b x y : string) :
  (a ++ x)%string = (b ++ y)%string -> String.length a = String.length b ->
  a = b /\ x = y.
Proof.
  revert b; induction a as [|c a IH]; intros [|d b]; simpl; try discriminate.
  - intros H _. now split.
  - intros H Hlen. injection H as -> H. injection Hlen as Hlen.
    destruct (IH b H Hlen) as [-> ->]. now split.
Qed.

Lemma all_append (cls : ascii -> bool) (a b : string) :
  all cls (a ++ b) = all cls a && all cls b.
Proof.
  induction a as [|c a IH]; simpl; [reflexivity|].
  now rewrite IH, andb_assoc.
Qed.

Lemma is_pan_alnum (pan : string) : is_pan pan = true -> all alnum pan = true.
Proof.
  apply conforms_all. unfold PAN_SHAPE, alnum. simpl.
  repeat constructor; intros c H; rewrite H; auto using orb_true_r.
Qed.

Lemma alnum_no_sep (s : string) : all alnum s = true -> contains s Path.sep = false.
Proof.
  intros H. destruct (contains s Path.sep) eqn:C; [|reflexivity].
  apply contains_spec in C as (pre & post & ->).
  rewrite all_append in H. apply andb_true_iff in H as [_ H].
  simpl in H. discriminate.
Qed.

Lemma no_sep_startswith (s : string) :
  contains s Path.sep = false -> startswith s Path.sep = false.
Proof.
  intros H. destruct (startswith s Path.sep) eqn:S; [|reflexivity].
  apply startswith_spec in S as [r ->].
  assert (C : contains (Path.sep ++ r) Path.sep = true)
    by (apply contains_spec; now exists "", r).
  congruence.
Qed.

Lemma append_ends (a b pre : string) (c : ascii) :
  (a ++ b)%string = (pre ++ String c "")%string -> b <> "" ->
  exists b', b = (b' ++ String c "")%string.
Proof.
  revert pre; induction a as [|x a IH]; intros pre H Hb; simpl in H.
  - now exists pre.
  - destruct pre as [|y pre]; simpl in H.
    + injection H as _ H. destruct a; [simpl in H; congruence | discriminate].
    + injection H as _ H. now apply (IH pre).
Qed.

Lemma no_sep_endswith (a b : string) :
  contains b Path.sep = false -> b <> "" ->
  endswith (a ++ b) Path.sep = false.
Proof.
  intros Hc Hb. destruct (endswith (a ++ b) Path.sep) eqn:E; [|reflexivity].
  apply endswith_spec in E as [pre E].
  destruct (append_ends a b pre "/"%char E Hb) as [b' ->].
  assert (C : contains (b' ++ Path.sep) Path.sep = true)
    by (apply contains_spec; exists b', ""; reflexivity).
  unfold Path.sep in *. congruence.
Qed.

Lemma join_pan (dir pan : string) :
  is_pan pan = true ->
  Path.join dir [pan] = (stage_prefix dir ++ pan)%string.
Proof.
  intros H. unfold Path.join, Path.join2, stage_prefix. simpl fold_left.
  rewrite (no_sep_startswith pan (alnum_no_sep pan (is_pan_alnum pan H))).
  destruct (String.eqb dir "" || endswith dir Path.sep); [reflexivity|].
  now rewrite append_assoc.
Qed.

(** The staged path of a document. *)
Lemma staged_path (dir pan name : string) :
  is_pan pan = true -> startswith name Path.sep = false ->
  Path.join (Path.join dir [pan]) [name]
  = (stage_prefix dir ++ pan ++ Path.sep ++ name)%string.
Proof.
  intros Hpan Hname. rewrite (join_pan dir pan Hpan).
  unfold Path.join, Path.join2. simpl fold_left. rewrite Hname.
  assert (Hne : pan <> "") by (destruct pan; [discriminate | discriminate]).
  rewrite (no_sep_endswith (stage_prefix dir) pan
             (alnum_no_sep pan (is_pan_alnum pan Hpan)) Hne).
  assert (E : String.eqb (stage_prefix dir ++ pan) "" = false).
  { apply String.eqb_neq. intros E.
    apply (f_equal String.length) in E. rewrite length_append in E.
    rewrite (is_pan_length pan Hpan) in E. simpl in E. lia. }
  rewrite E. simpl orb. cbv iota. now rewrite append_assoc.
Qed.

Lemma staged_path_inj (dir pan1 name1 pan2 name2 : string) :
  is_pan pan1 = true -> is_pan pan2 = true ->
  (stage_prefix dir ++ pan1 ++ Path.sep ++ name1)%string
  = (stage_prefix dir ++ pan2 ++ Path.sep ++ name2)%string ->
  pan1 = pan2 /\ name1 = name2.
Proof.
  intros H1 H2 E. apply append_inv_head in E.
  apply append_inv_length in E as [-> E].
  - split; [reflexivity|]. now apply append_inv_head in E.
  - now rewrite (is_pan_length _ H1), (is_pan_length _ H2).
Qed.

(** The results of classification are well staged when the names are
    directory entries. *)
Lemma classified_well_staged (env : Env) (pdf_dir grouped_dir : string)
  (df : DataFrame) (pdf_files : list string) :
  (forall f, In f pdf_files -> startswith f Path.sep = false) ->
  well_staged grouped_dir
    (map (classified env pdf_dir grouped_dir df) pdf_files).
Proof.
  intros Hnames [[pan email] path] Hin.
  apply in_map_iff in Hin as (f & Hf & Hin).
  apply classified_some in Hf as (Hpan & _ & _ & ->).
  apply extracted_is_pan in Hpan.
  split; [exact Hpan|]. exists f. split; [now apply Hnames|].
  apply staged_path; [exact Hpan | now apply Hnames].
Qed.

Lemma next_owner_finds (items : dict string) (path : string) :
  (exists pan files, In (pan, files) items /\ In path files) ->
  exists pan files,
    next_owner items path = Value pan /\ In (pan, files) items /\ In path files.
Proof.
  induction items as [|[k l] items IH]; intros (pan & files & Hin & Hp).
  - destruct Hin.
  - simpl. destruct (existsb (String.eqb path) l) eqn:E.
    + apply existsb_exists in E as (x & Hx & Ex).
      apply String.eqb_eq in Ex. subst x.
      exists k, l. split; [reflexivity|]. split; [now left | exact Hx].
    + destruct Hin as [Hin|Hin].
      * injection Hin as -> ->.
        assert (E' : existsb (String.eqb path) files = true).
        { apply existsb_exists. exists path. split; [exact Hp | apply String.eqb_refl]. }
        congruence.
      * destruct (IH (ex_intro _ pan (ex_intro _ files (conj Hin Hp))))
          as (pan' & files' & H1 & H2 & H3).
        exists pan', files'. split; [exact H1|]. split; [now right | exact H3].
Qed.

(** In a grouping of well-staged results, every path of a recipient's
    list is in the list of one identifier only, the one the reverse
    lookup returns. *)
Lemma owner_unique (dir : string) (results : list (option triple))
  (eg : dict value) (pf : dict string) :
  well_staged dir results ->
  group_results results = Value (eg, pf) ->
  forall email attachments path,
    In (email, attachments) eg -> In path attachments ->
    exists pan files,
      next_owner pf path = Value pan /\ In (pan, files) pf /\ In path files /\
      In (Some (pan, email, path)) results /\
      forall pan' files', In (pan', files') pf -> In path files' -> pan' = pan.
Proof.
  intros Hws Hgroup email attachments path Hin Hpath.
  destruct (group_results_spec results)
    as (eg0 & pf0 & H0 & Heg & Hpf & Hnd1 & Hnd2).
  rewrite Hgroup in H0. injection H0 as <- <-.
  apply (dict_in_get _ _ _ Hnd1) in Hin. rewrite Heg in Hin.
  apply extend_none_in in Hin. subst attachments.
  apply paths_by_in in Hpath as ([[pan e] p] & Ht & He & Hp).
  unfold email_of, path_of in He, Hp. simpl in He, Hp. subst e p.
  assert (Huniq : forall pan' files',
             In (pan', files') pf -> In path files' -> pan' = pan).
  { intros pan' files' Hin' Hp'.
    apply (dict_in_get _ _ _ Hnd2) in Hin'. rewrite Hpf in Hin'.
    apply extend_none_in in Hin'. subst files'.
    apply paths_by_in in Hp' as ([[pan2 e2] p2] & Ht2 & Hk2 & Hp2).
    unfold pan_of, path_of in Hk2, Hp2. simpl in Hk2, Hp2. subst pan2 p2.
    destruct (Hws _ Ht) as (Hpan & name & _ & Hpath).
    destruct (Hws _ Ht2) as (Hpan2 & name2 & _ & Hpath2).
    unfold pan_of, path_of in *. simpl in *.
    rewrite Hpath in Hpath2.
    now destruct (staged_path_inj dir pan name pan' name2 Hpan Hpan2 Hpath2). }
  assert (Hex : exists pan0 files0, In (pan0, files0) pf /\ In path files0).
  { assert (Hp : In path (paths_by pan_of pan results)).
    { apply paths_by_in. now exists (pan, email, path). }
    destruct (dict_get pan pf) as [files|] eqn:G.
    - exists pan, files. split; [now apply dict_get_in|].
      rewrite Hpf in G. apply extend_none_in in G. now subst files.
    - rewrite Hpf in G. destruct (paths_by pan_of pan results); [destruct Hp | discriminate]. }
  destruct (next_owner_finds pf path Hex) as (pan0 & files0 & Hn & Hin0 & Hp0).
  assert (pan0 = pan) by (now apply (Huniq pan0 files0)). subst pan0.
  exists pan, files0. repeat split; assumption.
Qed.

End StagedPaths.

(** C8. After classification of directory entries and grouping, every path
    in a recipient's attachment list is in the path list of exactly one
    identifier of the identifier-to-paths dictionary, and the reverse lookup
    of the archival stage returns that identifier (it does not raise). *)
Theorem reverse_lookup_succeeds (env : Env) (pdf_dir grouped_dir : string)
  (df : DataFrame) (pdf_files : list string) (w : World)
  (results : list (option triple)) (eg : dict value) (pf : dict string) :
  (forall f, In f pdf_files -> Str.contains f Path.sep = false) ->
  fst (classify env pdf_dir grouped_dir df pdf_files w) = Ok results ->
  group_results results = Value (eg, pf) ->
  forall email attachments path,
    In (email, attachments) eg -> In path attachments ->
    exists pan,
      next_owner pf path = Value pan /\
      (exists files, In (pan, files) pf /\ In path files) /\
      (forall pan' files', In (pan', files') pf -> In path files' -> pan' = pan).
Proof.
  intros Hnames Hclass Hgroup email attachments path Hin Hpath.
  destruct (classify_run env pdf_dir grouped_dir df pdf_files w) as (evs & Hrun & _).
  rewrite Hrun in Hclass. simpl in Hclass. injection Hclass as <-.
  assert (Hws : well_staged grouped_dir
                  (map (classified env pdf_dir grouped_dir df) pdf_files)).
  { apply classified_well_staged. intros f Hf.
    apply no_sep_startswith. now apply Hnames. }
  destruct (owner_unique grouped_dir _ eg pf Hws Hgroup email attachments path
              Hin Hpath) as (pan & files & Hn & Hin' & Hp' & _ & Huniq).
  exists pan. split; [exact Hn|]. split; [now exists files | exact Huniq].
Qed.

Lemma reverse_lookup_succeeds_witness :
  exists pan,
    next_owner [("ABCDE1234F", ["staging/ABCDE1234F/A.pdf"]);
                ("LMNOP0000Q", ["staging/LMNOP0000Q/C.pdf"])]
               "staging/LMNOP0000Q/C.pdf" = Value pan /\
    (exists files,
        In (pan, files) [("ABCDE1234F", ["staging/ABCDE1234F/A.pdf"]);
                         ("LMNOP0000Q", ["staging/LMNOP0000Q/C.pdf"])] /\
        In "staging/LMNOP0000Q/C.pdf" files) /\
    (forall pan' files',
        In (pan', files') [("ABCDE1234F", ["staging/ABCDE1234F/A.pdf"]);
                           ("LMNOP0000Q", ["staging/LMNOP0000Q/C.pdf"])] ->
        In "staging/LMNOP0000Q/C.pdf" files' -> pan' = pan).
Proof.
  apply (reverse_lookup_succeeds Demo.env "in" "staging" Demo.df
           ["A.pdf"; "C.pdf"; "D.pdf"] (start 0)
           [Some ("ABCDE1234F", Str "a@x.com", "staging/ABCDE1234F/A.pdf");
            Some ("LMNOP0000Q", Str "a@x.com", "staging/LMNOP0000Q/C.pdf"); None]
           [(Str "a@x.com", ["staging/ABCDE1234F/A.pdf"; "staging/LMNOP0000Q/C.pdf"])]
           _
           ltac:(intros f [<-|[<-|[<-|[]]]]; reflexivity)
           eq_refl eq_refl
           "a@x.com" ["staging/ABCDE1234F/A.pdf"; "staging/LMNOP0000Q/C.pdf"]).
  - left. reflexivity.
  - right. left. reflexivity.
Defined.

Example grouping_alone_can_share_a_path :
  group_results [Some ("ABCDE1234F", Str "a@x.com", "p"); Some ("PQRST5678U", Str "a@x.com", "p")]
  = Value ([(Str "a@x.com", ["p"; "p"])], [("ABCDE1234F", ["p"]); ("PQRST5678U", ["p"])]).
Proof. reflexivity. Qed.

(** ** The retry loop *)

Section Retry.

Variable env : Env.
Variables (email : value) (attachments : list string) (email_config : EmailConfig).

Lemma timeline_app (a b : list (Z * event)) :
  timeline (a ++ b) = timeline b ++ timeline a.
Proof. unfold timeline. now rewrite rev_app_distr, flat_map_app. Qed.

Lemma backoff_step (base : Z) (first failures : nat) (delivered : bool) :
  backoff base first (S failures) delivered
  = Try false :: Wait (base * 2 ^ Z.of_nat first)%Z
      :: backoff base (S first) failures delivered.
Proof. reflexivity. Qed.

(** The loop over attempts [first .. first + n - 1]: it returns, after [j]
    failed attempts each followed by its wait, and a delivered attempt when
    it returns [true]; it touches neither the limiter nor the files. *)
Lemma retry_loop_run (max_retries : nat) (base_delay : Z) (n first : nat)
  (w : World) :
  (0 <= base_delay)%Z ->
  exists j b w' new,
    retry_loop env email attachments email_config max_retries base_delay
               (seq first n) w = (Ok b, w') /\
    trace w' = new ++ trace w /\
    last_reset w' = last_reset w /\ num_calls w' = num_calls w /\
    (clock w <= clock w')%Z /\
    forallb sending_event (map snd new) = true /\
    Forall (call_event email attachments) (map snd new) /\
    timeline new = backoff base_delay first j b /\
    (if b then j < n else j = n).
Proof.
  intros Hbase. revert first w. induction n as [|n IH]; intros first w.
  - exists 0, false. eexists. eexists [_].
    cbn [seq retry_loop]. unfold bind, log, ret. rewrite emit_record.
    split; [reflexivity|]. simpl. repeat split; try lia.
    repeat constructor.
  - cbn [seq retry_loop]. unfold bind at 1. unfold try_except.
    unfold bind at 1. unfold smtp_send at 1.
    destruct (smtp env (smtp_calls w) email attachments email_config)
      as [[[]|e] secs].
    + cbn [res_of_reply]. unfold bind, log, ret. rewrite emit_record.
      exists 0, true. eexists. eexists [_; _].
      split; [reflexivity|]. simpl. repeat split; try lia.
      repeat constructor.
    + cbn [res_of_reply]. unfold bind at 1, log at 1. rewrite emit_record.
      unfold bind at 1, sleep.
      assert (Hd : (base_delay * 2 ^ Z.of_nat first <? 0)%Z = false).
      { apply Z.ltb_ge. apply Z.mul_nonneg_nonneg; [exact Hbase|].
        apply Z.pow_nonneg. lia. }
      rewrite Hd. unfold ret.
      match goal with
      | |- context [retry_loop _ _ _ _ _ _ _ ?w0] =>
          destruct (IH (S first) w0)
            as (j & b & w' & new & Hrun & Htr & Hlr & Hnc & Hclk & Hev & Hcall & Htl & Hj)
      end.
      rewrite Hrun. cbn [trace clock last_reset num_calls record] in *.
      exists (S j), b, w'. eexists (new ++ [_; _; _]).
      split; [reflexivity|].
      split; [rewrite Htr, <- app_assoc; reflexivity|].
      split; [exact Hlr|]. split; [exact Hnc|].
      split; [lia|].
      split; [rewrite map_app, forallb_app, Hev; reflexivity|].
      split; [rewrite map_app; apply Forall_app; split;
              [exact Hcall | repeat constructor]|].
      split; [rewrite timeline_app, Htl, backoff_step; reflexivity|].
      destruct b; lia.
Qed.

End Retry.

Lemma tries_backoff (base : Z) (first failures : nat) (delivered : bool) :
  tries (backoff base first failures delivered)
  = failures + (if delivered then 1 else 0).
Proof.
  revert first. induction failures as [|n IH]; intros first.
  - now destruct delivered.
  - rewrite backoff_step. unfold tries in *. simpl. now rewrite IH.
Qed.

Lemma backoff_nth (base : Z) (first failures : nat) (delivered : bool) (k : nat) :
  k < failures ->
  nth_error (backoff base first failures delivered) (2 * k) = Some (Try false) /\
  nth_error (backoff base first failures delivered) (2 * k + 1)
  = Some (Wait (base * 2 ^ Z.of_nat (first + k))%Z) /\
  (k + 1 < failures \/ delivered = true ->
   exists d, nth_error (backoff base first failures delivered) (2 * k + 2)
             = Some (Try d)).
Proof.
  revert first k. induction failures as [|n IH]; intros first k Hk; [lia|].
  rewrite backoff_step. destruct k as [|k].
  - simpl. rewrite Nat.add_0_r. repeat split.
    intros H. destruct n as [|n].
    + destruct H as [H|H]; [lia|]. subst delivered. now exists true.
    + rewrite backoff_step. now exists false.
  - assert (Hk' : k < n) by lia.
    destruct (IH (S first) k Hk') as (H0 & H1 & H2).
    replace (2 * S k) with (S (S (2 * k))) by lia.
    replace (S (S (2 * k)) + 1) with (S (S (2 * k + 1))) by lia.
    replace (S (S (2 * k)) + 2) with (S (S (2 * k + 2))) by lia.
    cbn [nth_error].
    replace (first + S k) with (S first + k) by lia.
    repeat split; [exact H0 | exact H1 |].
    intros H. apply H2. destruct H as [H|H]; [left; lia | now right].
Qed.

(** C4. A call of the undecorated sender returns after at most
    [MAX_RETRIES] attempts; its attempts and waits follow the backoff
    schedule: whenever attempt [k] failed and [k <= MAX_RETRIES - 2], the
    script then waits [BASE_DELAY * 2^k] seconds and makes attempt [k+1];
    when it reports failure it has made exactly [MAX_RETRIES] attempts. *)
Theorem retry_backoff (env : Env) (email : value) (attachments : list string)
  (email_config : EmailConfig) (w : World) :
  exists failures ok w' new,
    send_attempts env email attachments email_config w = (Ok ok, w') /\
    trace w' = new ++ trace w /\
    timeline new = backoff BASE_DELAY 0 failures ok /\
    tries (timeline new) <= MAX_RETRIES /\
    (ok = false -> tries (timeline new) = MAX_RETRIES) /\
    (forall k, k < failures -> k <= MAX_RETRIES - 2 ->
       nth_error (timeline new) (2 * k) = Some (Try false) /\
       nth_error (timeline new) (2 * k + 1)
       = Some (Wait (BASE_DELAY * 2 ^ Z.of_nat k)%Z) /\
       exists d, nth_error (timeline new) (2 * k + 2) = Some (Try d)).
Proof.
  unfold send_attempts.
  destruct (retry_loop_run env email attachments email_config MAX_RETRIES
              BASE_DELAY MAX_RETRIES 0 w)
    as (j & b & w' & new & Hrun & Htr & _ & _ & _ & _ & _ & Htl & Hj);
    [unfold BASE_DELAY; lia|].
  exists j, b, w', new. split; [exact Hrun|]. split; [exact Htr|].
  split; [exact Htl|]. rewrite Htl, tries_backoff.
  split; [destruct b; lia|].
  split; [intros ->; lia|].
  intros k Hk Hmax.
  destruct (backoff_nth BASE_DELAY 0 j b k Hk) as (H0 & H1 & H2).
  split; [exact H0|]. split; [exact H1|].
  apply H2. destruct b; [now right | left].
  subst j. unfold MAX_RETRIES in *. lia.
Qed.

Example backoff_when_smtp_is_down :
  timeline (trace (snd (send_attempts Demo.env_smtp_down "a@x.com" ["p"]
                          Demo.email_config (start 0))))
  = [Try false; Wait 1; Try false; Wait 2; Try false; Wait 4;
     Try false; Wait 8; Try false; Wait 16]%Z.
Proof. vm_compute. reflexivity. Qed.

(** ** The rate limiter *)

Section Limiter.

Variables (calls : nat) (period : Z).
Hypothesis period_pos : (0 < period)%Z.
Variable P : event -> Prop.

Lemma entered_app (window : Z) (a b : list (Z * event)) :
  entered window (a ++ b) = entered window a + entered window b.
Proof. unfold entered. now rewrite filter_app, length_app. Qed.

Lemma entered_sending (window : Z) (new : list (Z * event)) :
  forallb sending_event (map snd new) = true -> entered window new = 0.
Proof.
  unfold entered. induction new as [|[t e] new IH]; simpl; [reflexivity|].
  intros H. apply andb_true_iff in H as [He H].
  unfold is_entered at 1. simpl. destruct e; try discriminate; now apply IH.
Qed.

Lemma sending_not_entered (new : list (Z * event)) (t window : Z) :
  forallb sending_event (map snd new) = true -> ~ In (t, Entered window) new.
Proof.
  intros H Hin. rewrite forallb_forall in H.
  specialize (H (Entered window) (in_map snd _ _ Hin)). discriminate.
Qed.

Lemma entered_absent (window : Z) (tr : list (Z * event)) :
  (forall t, ~ In (t, Entered window) tr) -> entered window tr = 0.
Proof.
  unfold entered. induction tr as [|[t e] tr IH]; simpl; [reflexivity|].
  intros H. unfold is_entered at 1. simpl.
  assert (Hrest : forall t0, ~ In (t0, Entered window) tr)
    by (intros t0 Hin; apply (H t0); now right).
  destruct e; try (now apply IH).
  destruct (Z.eqb_spec window0 window) as [->|Hne]; [|now apply IH].
  exfalso. apply (H t). now left.
Qed.

Lemma entered_cons_other (window : Z) (t : Z) (window' : Z)
  (tr : list (Z * event)) :
  window' <> window ->
  entered window ((t, Entered window') :: tr) = entered window tr.
Proof.
  intros Hne. unfold entered. simpl. unfold is_entered at 1. simpl.
  now rewrite (proj2 (Z.eqb_neq _ _) Hne).
Qed.

Lemma entered_cons_same (window : Z) (t : Z) (tr : list (Z * event)) :
  entered window ((t, Entered window) :: tr) = S (entered window tr).
Proof.
  unfold entered. simpl. unfold is_entered at 1. simpl.
  now rewrite Z.eqb_refl.
Qed.

(** The decorated function when the window is over or has room: the call
    is let through at once, in the window [window]. *)
Lemma limits_pass {A} (func : M A) (w : World) :
  quiet_call P func -> limiter_ok calls period w ->
  let period_remaining := (period - (clock w - last_reset w))%Z in
  let window := if (period_remaining <=? 0)%Z then clock w else last_reset w in
  (period_remaining <= 0)%Z \/ num_calls w < Nat.max 1 calls ->
  exists a w' new,
    limits calls period func w = (Ok a, w') /\
    trace w' = new ++ (clock w, Entered window) :: trace w /\
    limiter_ok calls period w' /\
    (forallb sending_event (map snd new) = true /\ Forall P (map snd new)) /\
    (clock w <= clock w')%Z.
Proof.
  intros Hq (Hclk & Hin & Hcur & Hall) pr window Hpass.
  unfold limits. fold pr.
  destruct (Z.leb_spec pr 0) as [Hpr|Hpr].
  - (* the window is over: a new one begins now *)
    cbn [clock last_reset num_calls smtp_calls trace].
    assert (Hc : (Nat.max 1 calls <? 1) = false) by (apply Nat.ltb_ge; lia).
    rewrite Hc. unfold bind. rewrite emit_record.
    match goal with
    | |- context [func ?w0] =>
        destruct (Hq w0) as (a & w' & new & Hrun & Htr & Hlr & Hnc & Hck & Hsend & HP)
    end.
    rewrite Hrun. cbn [record clock last_reset num_calls smtp_calls trace map app] in *.
    exists a, w', new. split; [reflexivity|]. split; [exact Htr|].
    assert (Hold : forall t, ~ In (t, Entered (clock w)) (trace w)).
    { intros t Hi. destruct (Hin t _ Hi) as [_ Hle]. unfold pr in Hpr. lia. }
    split; [|split; [split; [exact Hsend | exact HP] | exact Hck]].
    unfold limiter_ok. rewrite Htr, Hlr, Hnc.
    split; [exact Hck|]. split; [|split].
    + intros t W Hi. apply in_app_or in Hi as [Hi|[Hi|Hi]].
      * exfalso. exact (sending_not_entered new t W Hsend Hi).
      * injection Hi as <- <-. lia.
      * destruct (Hin t W Hi) as [H1 H2]. lia.
    + rewrite entered_app, (entered_sending _ _ Hsend), entered_cons_same,
        (entered_absent _ _ Hold). lia.
    + intros W. rewrite entered_app, (entered_sending _ _ Hsend).
      destruct (Z.eq_dec W (clock w)) as [->|Hne].
      * rewrite entered_cons_same, (entered_absent _ _ Hold). lia.
      * rewrite entered_cons_other by congruence. apply Hall.
  - (* the window has room *)
    destruct Hpass as [Hpass|Hroom]; [lia|].
    cbn [clock last_reset num_calls smtp_calls trace].
    assert (Hc : (Nat.max 1 calls <? S (num_calls w)) = false)
      by (apply Nat.ltb_ge; lia).
    rewrite Hc. unfold bind. rewrite emit_record.
    match goal with
    | |- context [func ?w0] =>
        destruct (Hq w0) as (a & w' & new & Hrun & Htr & Hlr & Hnc & Hck & Hsend & HP)
    end.
    rewrite Hrun. cbn [record clock last_reset num_calls smtp_calls trace map app] in *.
    exists a, w', new. split; [reflexivity|]. split; [exact Htr|].
    split; [|split; [split; [exact Hsend | exact HP] | exact Hck]].
    unfold limiter_ok. rewrite Htr, Hlr, Hnc.
    split; [lia|]. split; [|split].
    + intros t W Hi. apply in_app_or in Hi as [Hi|[Hi|Hi]].
      * exfalso. exact (sending_not_entered new t W Hsend Hi).
      * injection Hi as <- <-. unfold pr in Hpr. lia.
      * exact (Hin t W Hi).
    + rewrite entered_app, (entered_sending _ _ Hsend), entered_cons_same. lia.
    + intros W. rewrite entered_app, (entered_sending _ _ Hsend).
      destruct (Z.eq_dec W (last_reset w)) as [->|Hne].
      * rewrite entered_cons_same. lia.
      * rewrite entered_cons_other by congruence. apply Hall.
Qed.

(** The decorated function under [sleep_and_retry]: with a budget of two
    iterations it always returns; a call that finds the window full sleeps
    for what remains of the window and is let through when it is over. *)
Lemma limited_call_run {A} (func : M A) (fuel : nat) (w : World) :
  quiet_call P func -> limiter_ok calls period w -> 2 <= fuel ->
  let period_remaining := (period - (clock w - last_reset w))%Z in
  exists a w' new waited,
    sleep_and_retry fuel (limits calls period func) w = (Ok a, w') /\
    trace w' = new ++ waited ++ trace w /\
    limiter_ok calls period w' /\
    (forallb sending_event (map snd new) = true /\ Forall P (map snd new)) /\
    (clock w <= clock w')%Z /\
    ( ((period_remaining <= 0)%Z \/ num_calls w < Nat.max 1 calls) /\
      waited = [(clock w,
                 Entered (if (period_remaining <=? 0)%Z then clock w
                          else last_reset w))]
      \/
      ((0 < period_remaining)%Z /\ Nat.max 1 calls <= num_calls w) /\
      waited = [((clock w + period_remaining)%Z,
                 Entered (last_reset w + period)%Z);
                (clock w, Slept period_remaining)] ).
Proof.
  intros Hq Hok Hfuel pr.
  destruct fuel as [|[|fuel]]; try lia.
  destruct (Z_le_gt_dec pr 0) as [Hpr|Hpr];
    [|destruct (Nat.lt_ge_cases (num_calls w) (Nat.max 1 calls)) as [Hroom|Hfull]].
  - destruct (limits_pass func w Hq Hok (or_introl Hpr))
      as (a & w' & new & Hrun & Htr & Hok' & Hsend & Hck).
    cbn [sleep_and_retry]. rewrite Hrun.
    exists a, w', new,
      [(clock w, Entered (if (pr <=? 0)%Z then clock w else last_reset w))].
    split; [reflexivity|].
    split; [exact Htr|]. split; [exact Hok'|]. split; [exact Hsend|].
    split; [exact Hck|]. left. fold pr.
    split; [now left | reflexivity].
  - destruct (limits_pass func w Hq Hok (or_intror Hroom))
      as (a & w' & new & Hrun & Htr & Hok' & Hsend & Hck).
    cbn [sleep_and_retry]. rewrite Hrun.
    exists a, w', new,
      [(clock w, Entered (if (pr <=? 0)%Z then clock w else last_reset w))].
    split; [reflexivity|].
    split; [exact Htr|]. split; [exact Hok'|]. split; [exact Hsend|].
    split; [exact Hck|]. left. fold pr.
    split; [now right | reflexivity].
  - (* the window is full: the call is refused once, sleeps, and retries *)
    cbn [sleep_and_retry]. unfold limits at 1. fold pr.
    rewrite (proj2 (Z.leb_gt pr 0)) by lia.
    cbn [clock last_reset num_calls smtp_calls trace].
    assert (Hc : (Nat.max 1 calls <? S (num_calls w)) = true)
      by (apply Nat.ltb_lt; lia).
    rewrite Hc. unfold bind at 1, sleep at 1.
    rewrite (proj2 (Z.ltb_ge pr 0)) by lia.
    cbn [clock last_reset num_calls smtp_calls trace].
    destruct Hok as (Hclk & Hin & Hcur & Hall).
    match goal with
    | |- context [limits calls period func ?w0] => set (w3 := w0)
    end.
    assert (Hok3 : limiter_ok calls period w3).
    { unfold limiter_ok, w3. cbn [clock last_reset num_calls trace].
      split; [lia|]. split; [|split].
      - intros t W [Hi|Hi]; [discriminate | exact (Hin t W Hi)].
      - change (entered (last_reset w) (trace w) <= S (num_calls w)). lia.
      - intros W. exact (Hall W). }
    assert (Hpr3 : (period - (clock w3 - last_reset w3) <= 0)%Z)
      by (unfold w3, pr; cbn [clock last_reset]; lia).
    destruct (limits_pass func w3 Hq Hok3 (or_introl Hpr3))
      as (a & w' & new & Hrun & Htr & Hok' & Hsend & Hck).
    rewrite Hrun.
    exists a, w', new,
      [((clock w + pr)%Z, Entered (last_reset w + period)%Z); (clock w, Slept pr)].
    split; [reflexivity|].
    rewrite (proj2 (Z.leb_le _ 0) Hpr3) in Htr.
    split; [|split; [exact Hok'|split; [exact Hsend|split]]].
    + rewrite Htr. unfold w3. cbn [clock trace app].
      replace (last_reset w + period)%Z with (clock w + pr)%Z by (unfold pr; lia).
      reflexivity.
    + unfold w3 in Hck. cbn [clock] in Hck. lia.
    + right. split; [split; [lia | exact Hfull] | reflexivity].
Qed.

End Limiter.

(** ** Dispatch and archival *)

Section Dispatch.

Variable env : Env.
Variable fuel : nat.
Hypothesis enough_fuel : 2 <= fuel.
Variables (processed_dir : string) (email_config : EmailConfig).
Variable pan_to_files : dict string.

Lemma send_attempts_quiet (email : value) (attachments : list string) :
  quiet_call (call_event email attachments)
             (send_attempts env email attachments email_config).
Proof.
  intros w. unfold send_attempts.
  destruct (retry_loop_run env email attachments email_config MAX_RETRIES
              BASE_DELAY MAX_RETRIES 0 w)
    as (j & b & w' & new & Hrun & Htr & Hlr & Hnc & Hck & Hsend & Hcall & _);
    [unfold BASE_DELAY; lia|].
  exists b, w', new. repeat split; assumption.
Qed.

Lemma limiter_ok_record (calls : nat) (period : Z) (evs : list event)
  (w : World) :
  (forall window, ~ In (Entered window) evs) ->
  limiter_ok calls period w -> limiter_ok calls period (record evs w).
Proof.
  intros Hno (Hclk & Hin & Hcur & Hall).
  assert (Hnone : forall window,
             entered window (map (pair (clock w)) evs) = 0).
  { intros window. apply entered_absent. intros t Hi.
    apply in_map_iff in Hi as (e & He & Hi). injection He as _ ->.
    exact (Hno window Hi). }
  unfold limiter_ok, record. cbn [clock last_reset num_calls trace].
  split; [exact Hclk|]. split; [|split].
  - intros t window Hi. apply in_app_or in Hi as [Hi|Hi]; [|exact (Hin _ _ Hi)].
    apply in_map_iff in Hi as (e & He & Hi). injection He as _ ->.
    destruct (Hno window Hi).
  - rewrite entered_app, Hnone. exact Hcur.
  - intros window. rewrite entered_app, Hnone. apply Hall.
Qed.

(** A call of the decorated sender returns; its effects are those of a call
    for this recipient, then the record of the value returned. *)
Lemma send_grouped_run (email : value) (attachments : list string)
  (w : World) :
  limiter_ok CALLS_PER_MINUTE PERIOD w ->
  exists b w' call,
    send_grouped_email_with_retry fuel env email attachments email_config w
    = (Ok b, w') /\
    trace w' = (clock w', Returned email b) :: call ++ trace w /\
    limiter_ok CALLS_PER_MINUTE PERIOD w' /\
    Forall (call_event email attachments) (map snd call).
Proof.
  intros Hok. unfold send_grouped_email_with_retry, bind at 1.
  destruct (limited_call_run CALLS_PER_MINUTE PERIOD ltac:(unfold PERIOD; lia)
              (call_event email attachments)
              (send_attempts env email attachments email_config) fuel w
              (send_attempts_quiet email attachments) Hok enough_fuel)
    as (b & w1 & new & waited & Hrun & Htr & Hok1 & [Hsend Hcall] & Hck & Hwait).
  rewrite Hrun. unfold bind, ret. rewrite emit_record.
  exists b. eexists. exists (new ++ waited).
  split; [reflexivity|]. cbn [record trace clock map app].
  split; [now rewrite Htr, app_assoc|]. split.
  - apply (limiter_ok_record _ _ [Returned email b] w1); [|exact Hok1].
    intros window [H|[]]. discriminate.
  - rewrite map_app. apply Forall_app. split; [exact Hcall|].
    destruct Hwait as [[_ ->]|[_ ->]]; repeat constructor.
Qed.

Lemma archive_file_run (pdf_path : string) (w : World) :
  exists evs,
    archive_file env processed_dir pan_to_files pdf_path w
    = (match archive_fault env processed_dir pan_to_files pdf_path with
       | None => Ok tt
       | Some e => Raise e
       end, record evs w) /\
    forallb archive_event evs = true /\
    forall src dst,
      In (MoveFile src dst) evs <->
      archive_fault env processed_dir pan_to_files pdf_path = None /\
      src = pdf_path /\ dst = destination processed_dir pan_to_files src.
Proof.
  unfold archive_file, archive_fault, destination, bind, lift, makedirs, move,
    fs_call, raise, lift.
  destruct (next_owner pan_to_files pdf_path) as [pan|e] eqn:Hown;
    cbn [res_of_reply].
  - destruct (makedirs_fault env (Path.join processed_dir [pan])) as [e|];
      cbn [res_of_reply].
    + exists []. rewrite record_nil. split; [reflexivity|]. split; [reflexivity|].
      intros src dst. split; [intros [] | intros [H _]; discriminate].
    + rewrite emit_record.
      destruct (move_fault env pdf_path _) as [e|] eqn:Hmove; cbn [res_of_reply].
      * eexists [_]. split; [reflexivity|]. split; [reflexivity|].
        intros src dst. split; [intros [H|[]]; discriminate | intros [H _]; discriminate].
      * rewrite emit_record, record_record. eexists [_; _].
        split; [reflexivity|]. split; [reflexivity|].
        intros src dst. split.
        -- intros [H|[H|[]]]; [|discriminate]. injection H as <- <-.
           rewrite Hown. now repeat split.
        -- intros (_ & -> & ->). rewrite Hown. now left.
  - exists []. rewrite record_nil. split; [reflexivity|]. split; [reflexivity|].
    intros src dst. split; [intros [] | intros [H _]; discriminate].
Qed.

(** The inner loop of [main]: the attachments are moved in order up to the
    first whose archival raises, and that exception leaves the loop. *)
Lemma archive_all_run (attachments : list string) (w : World) :
  exists evs,
    for_each attachments (archive_file env processed_dir pan_to_files) w
    = (match first_fault env processed_dir pan_to_files attachments with
       | None => Ok tt
       | Some e => Raise e
       end, record evs w) /\
    forallb archive_event evs = true /\
    forall src dst,
      In (MoveFile src dst) evs <->
      In src (movable env processed_dir pan_to_files attachments) /\
      dst = destination processed_dir pan_to_files src.
Proof.
  revert w. induction attachments as [|p rest IH]; intros w.
  - exists []. cbn [for_each first_fault movable]. unfold ret.
    rewrite record_nil. split; [reflexivity|]. split; [reflexivity|].
    intros src dst. split; [intros [] | intros [[] _]].
  - cbn [for_each first_fault movable]. unfold bind.
    destruct (archive_file_run p w) as (ev1 & -> & Ha1 & Hm1).
    destruct (archive_fault env processed_dir pan_to_files p) as [e|] eqn:Hf.
    + exists ev1. split; [reflexivity|]. split; [exact Ha1|].
      intros src dst. rewrite Hm1. split; [intros [H _]; discriminate | intros [[] _]].
    + destruct (IH (record ev1 w)) as (ev2 & -> & Ha2 & Hm2).
      rewrite record_record. exists (ev2 ++ ev1).
      split; [reflexivity|]. split; [now rewrite forallb_app, Ha1, Ha2|].
      intros src dst. rewrite in_app_iff, Hm1, Hm2. cbn [In]. split.
      * intros [[H ->]|(_ & -> & ->)]; [now split; [right|] | now split; [left|]].
      * intros [[<-|H] ->]; [right; now repeat split | left; now split].
Qed.

Lemma movable_all (attachments : list string) :
  first_fault env processed_dir pan_to_files attachments = None ->
  movable env processed_dir pan_to_files attachments = attachments.
Proof.
  induction attachments as [|p rest IH]; cbn [first_fault movable]; [reflexivity|].
  destruct (archive_fault env processed_dir pan_to_files p); [discriminate|].
  intros H. now rewrite (IH H).
Qed.

Lemma movable_incl (attachments : list string) (src : string) :
  In src (movable env processed_dir pan_to_files attachments) ->
  In src attachments /\
  archive_fault env processed_dir pan_to_files src = None.
Proof.
  induction attachments as [|p rest IH]; cbn [movable]; [intros []|].
  destruct (archive_fault env processed_dir pan_to_files p) eqn:Hf; [intros []|].
  intros [<-|H]; [split; [now left | exact Hf]|].
  destruct (IH H) as [H1 H2]. split; [now right | exact H2].
Qed.

Lemma archive_no_entered (evs : list event) :
  forallb archive_event evs = true -> forall window, ~ In (Entered window) evs.
Proof.
  intros H window Hin. rewrite forallb_forall in H.
  specialize (H _ Hin). discriminate.
Qed.

(** The outer loop of [main] has the shape [loop_shape] and keeps the
    invariant of the limiter. *)
Lemma dispatch_loop_run (groups : list (value * list string)) (w : World) :
  limiter_ok CALLS_PER_MINUTE PERIOD w ->
  exists r new w',
    for_each groups
      (dispatch_group fuel env processed_dir email_config pan_to_files) w
    = (r, w') /\
    trace w' = new ++ trace w /\
    limiter_ok CALLS_PER_MINUTE PERIOD w' /\
    loop_shape env processed_dir pan_to_files groups r (map snd new).
Proof.
  revert w. induction groups as [|[email attachments] rest IH]; intros w Hok.
  - exists (Ok tt), [], w. cbn [for_each]. unfold ret.
    split; [reflexivity|]. split; [reflexivity|]. split; [exact Hok | constructor].
  - cbn [for_each]. unfold bind at 1. unfold dispatch_group at 1, bind at 1.
    destruct (send_grouped_run email attachments w Hok)
      as (b & w1 & call & -> & Htr1 & Hok1 & Hcall).
    destruct b.
    + destruct (archive_all_run attachments w1) as (evs & -> & Harch & Hmoves).
      assert (Hok2 : limiter_ok CALLS_PER_MINUTE PERIOD (record evs w1))
        by (apply limiter_ok_record; [now apply archive_no_entered | exact Hok1]).
      destruct (first_fault env processed_dir pan_to_files attachments)
        as [e|] eqn:Hff.
      * exists (Raise e). eexists. exists (record evs w1).
        split; [reflexivity|]. cbn [record trace].
        split; [rewrite Htr1; rewrite app_comm_cons, app_assoc; reflexivity|].
        split; [exact Hok2|].
        rewrite map_app, map_map. cbn [snd map]. rewrite map_id.
        now apply shape_aborted.
      * destruct (IH (record evs w1) Hok2) as (r & new & w' & -> & Htr & Hok' & Hshape).
        exists r. eexists. exists w'. split; [reflexivity|].
        split; [rewrite Htr; cbn [record trace]; rewrite Htr1;
                rewrite app_comm_cons, !app_assoc; reflexivity|].
        split; [exact Hok'|].
        rewrite !map_app, map_map. cbn [snd map]. rewrite map_id, <- app_assoc.
        apply shape_sent; try assumption.
        intros src dst. rewrite Hmoves, (movable_all _ Hff). reflexivity.
    + unfold ret.
      destruct (IH w1 Hok1) as (r & new & w' & -> & Htr & Hok' & Hshape).
      exists r. eexists. exists w'. split; [reflexivity|].
      split; [rewrite Htr, Htr1; rewrite app_comm_cons, app_assoc; reflexivity|].
      split; [exact Hok'|].
      rewrite map_app. cbn [snd map]. now apply shape_unsent.
Qed.

End Dispatch.

(** ** The main flow *)

Lemma loop_shape_result (env : Env) (processed_dir : string) (pf : dict string)
  (groups : list (value * list string)) (r : res unit) (evs : list event) :
  loop_shape env processed_dir pf groups r evs ->
  r = Ok tt \/ exists e, r = Raise e.
Proof.
  induction 1; auto. right. now exists e.
Qed.

Lemma staging_no_entered (evs : list event) :
  forallb staging_event evs = true -> forall window, ~ In (Entered window) evs.
Proof.
  intros H window Hin. rewrite forallb_forall in H.
  specialize (H _ Hin). discriminate.
Qed.

(** A run that is set up: it classifies, groups, runs the dispatch loop and
    closes with the two summary records, or with the record of the
    exception that left the loop; [main] itself returns normally. *)
Lemma main_run (fuel : nat) (env : Env) (dirs : Directories) (df : DataFrame)
  (names : list string) (email_config : EmailConfig)
  (eg : dict value) (pf : dict string) (w : World) :
  2 <= fuel ->
  setup env dirs df names email_config ->
  group_results (results_of env dirs df names) = Value (eg, pf) ->
  limiter_ok CALLS_PER_MINUTE PERIOD w ->
  exists r closing loop staging w',
    main fuel env w = (Ok tt, w') /\
    trace w' = closing ++ loop ++ staging ++ trace w /\
    (forallb staging_event (map snd staging) = true /\
     (forall t, In (Some t) (results_of env dirs df names) ->
                exists src, In (CopyFile src (path_of t)) (map snd staging)) /\
     (forall src dst, In (CopyFile src dst) (map snd staging) ->
        exists f, In f (filter is_pdf names) /\
                  src = Path.join (pdf_directory dirs) [f])) /\
    loop_shape env (processed_directory dirs) pf eg r (map snd loop) /\
    map snd closing
    = match r with
      | Ok _ => [Log INFO ExecutionCompleted;
                 Log INFO (FinishedProcessing (List.length eg))]
      | Raise e => [Log ERROR (ScriptError e)]
      | OutOfFuel => []
      end /\
    limiter_ok CALLS_PER_MINUTE PERIOD w'.
Proof.
  intros Hfuel [(table & Hfile & Htable) Hdirs Hgd Hpd Hlist Hnames Hmail]
    Hgroup Hok.
  unfold main, try_except.
  unfold bind at 1, lift at 1. rewrite Hfile. cbn [res_of_reply].
  unfold bind at 1, lift at 1. rewrite Htable. cbn [res_of_reply].
  unfold bind at 1, log at 1. rewrite emit_record.
  unfold bind at 1, lift at 1. rewrite Hdirs. cbn [res_of_reply].
  unfold bind at 1, makedirs at 1, fs_call. rewrite Hgd, emit_record, record_record.
  unfold bind at 1, makedirs at 1, fs_call. rewrite Hpd, emit_record, record_record.
  unfold bind at 1, lift at 1. rewrite Hlist. cbn [res_of_reply].
  unfold bind at 1.
  match goal with
  | |- context [classify env ?pd ?gd df ?files ?w0] =>
      destruct (classify_run env pd gd df files w0)
        as (ev1 & Hc & Hs1 & Hcopy & Honly)
  end.
  rewrite Hc, record_record.
  unfold bind at 1, lift at 1.
  fold (results_of env dirs df names) in Hcopy |- *.
  rewrite Hgroup. cbn [res_of_reply].
  unfold bind at 1, lift at 1. rewrite Hmail. cbn [res_of_reply].
  unfold bind at 1.
  match goal with
  | |- context [for_each eg _ ?w0] => set (w1 := w0)
  end.
  assert (Hok1 : limiter_ok CALLS_PER_MINUTE PERIOD w1).
  { apply limiter_ok_record; [|exact Hok]. apply staging_no_entered.
    now rewrite forallb_app, Hs1. }
  destruct (dispatch_loop_run env fuel Hfuel (processed_directory dirs)
              email_config pf eg w1 Hok1) as (r & loop & w2 & -> & Htr & Hok2 & Hshape).
  exists r.
  destruct (loop_shape_result _ _ _ _ _ _ Hshape) as [->|[e ->]].
  - unfold bind, log. rewrite !emit_record, record_record.
    eexists (map (pair (clock w2)) [_; _]), loop, (map (pair (clock w)) _).
    eexists. split; [reflexivity|]. cbn [record trace].
    split; [rewrite Htr; unfold w1; cbn [record trace]; reflexivity|].
    split; [rewrite map_map; cbn [snd]; rewrite map_id; split;
            [now rewrite forallb_app, Hs1|]; split;
            [intros t Ht; destruct (Hcopy t Ht) as [src Hsrc]; exists src;
             apply in_or_app; now left
            |intros src dst Hi; apply in_app_or in Hi as [Hi|Hi];
             [exact (Honly src dst Hi)
             |simpl in Hi; repeat (destruct Hi as [Hi|Hi]; [discriminate|]);
              destruct Hi]]|].
    split; [exact Hshape|]. split; [reflexivity|].
    apply limiter_ok_record; [|exact Hok2].
    intros window [H|[H|[]]]; discriminate.
  - unfold log. rewrite emit_record.
    eexists (map (pair (clock w2)) [_]), loop, (map (pair (clock w)) _).
    eexists. split; [reflexivity|]. cbn [record trace].
    split; [rewrite Htr; unfold w1; cbn [record trace]; reflexivity|].
    split; [rewrite map_map; cbn [snd]; rewrite map_id; split;
            [now rewrite forallb_app, Hs1|]; split;
            [intros t Ht; destruct (Hcopy t Ht) as [src Hsrc]; exists src;
             apply in_or_app; now left
            |intros src dst Hi; apply in_app_or in Hi as [Hi|Hi];
             [exact (Honly src dst Hi)
             |simpl in Hi; repeat (destruct Hi as [Hi|Hi]; [discriminate|]);
              destruct Hi]]|].
    split; [exact Hshape|]. split; [reflexivity|].
    apply limiter_ok_record; [|exact Hok2].
    intros window [H|[]]; discriminate.
Qed.

Lemma limiter_ok_start (calls : nat) (period : Z) (t0 : Z) :
  limiter_ok calls period (start t0).
Proof.
  unfold limiter_ok, start, entered. simpl. repeat split; try lia.
  all: destruct H.
Qed.

(** ** What the shape of the dispatch loop implies *)

Section Shape.

Variable env : Env.
Variable processed_dir : string.
Variable pf : dict string.

Local Notation "'shape'" := (loop_shape env processed_dir pf).
Local Notation "'fault'" := (first_fault env processed_dir pf).
Local Notation "'can_move'" := (movable env processed_dir pf).
Local Notation "'dest'" := (destination processed_dir pf).

Lemma segment_returned (email : value) (attachments : list string)
  (b0 : bool) (later moves call : list event) (x : value) (b : bool) :
  Forall (call_event email attachments) call ->
  forallb archive_event moves = true ->
  In (Returned x b) (later ++ moves ++ Returned email b0 :: call) ->
  In (Returned x b) later \/ (x = email /\ b = b0).
Proof.
  intros Hcall Hmoves Hin.
  apply in_app_or in Hin as [Hin|Hin]; [now left|].
  apply in_app_or in Hin as [Hin|[Hin|Hin]].
  - rewrite forallb_forall in Hmoves. specialize (Hmoves _ Hin). discriminate.
  - injection Hin as <- <-. now right.
  - rewrite Forall_forall in Hcall. destruct (Hcall _ Hin).
Qed.

Lemma segment_moved (email : value) (attachments : list string)
  (b0 : bool) (later moves call : list event) (src dst : string) :
  Forall (call_event email attachments) call ->
  In (MoveFile src dst) (later ++ moves ++ Returned email b0 :: call) ->
  In (MoveFile src dst) later \/ In (MoveFile src dst) moves.
Proof.
  intros Hcall Hin.
  apply in_app_or in Hin as [Hin|Hin]; [now left|].
  apply in_app_or in Hin as [Hin|[Hin|Hin]]; [now right | discriminate |].
  rewrite Forall_forall in Hcall. destruct (Hcall _ Hin).
Qed.

Lemma segment_attempt (email : value) (attachments : list string)
  (b0 : bool) (later moves call : list event)
  (x : value) (a : list string) (d : bool) :
  Forall (call_event email attachments) call ->
  forallb archive_event moves = true ->
  In (SmtpAttempt x a d) (later ++ moves ++ Returned email b0 :: call) ->
  In (SmtpAttempt x a d) later \/ (x = email /\ a = attachments).
Proof.
  intros Hcall Hmoves Hin.
  apply in_app_or in Hin as [Hin|Hin]; [now left|].
  apply in_app_or in Hin as [Hin|[Hin|Hin]].
  - rewrite forallb_forall in Hmoves. specialize (Hmoves _ Hin). discriminate.
  - discriminate.
  - rewrite Forall_forall in Hcall. right. exact (Hcall _ Hin).
Qed.

Lemma head_returned (email : value) (b0 : bool)
  (later moves call : list event) :
  In (Returned email b0) (later ++ moves ++ Returned email b0 :: call).
Proof. apply in_or_app. right. apply in_or_app. right. now left. Qed.

(** Only the recipients of the list have a call that returned. *)
Lemma shape_returned_key groups r evs x b :
  shape groups r evs -> In (Returned x b) evs -> In x (map fst groups).
Proof.
  induction 1 as [ | email atts rest r call later Hcall Hrest IH
                   | email atts rest r call moves later Hcall Hff Harch Hmv Hrest IH
                   | email atts rest e call moves Hcall Hff Harch Hmv ];
    intros Hin.
  - destruct Hin.
  - destruct (segment_returned email atts false later [] call x b Hcall eq_refl Hin)
      as [H|[-> _]]; [right; now apply IH | now left].
  - destruct (segment_returned email atts true later moves call x b Hcall Harch Hin)
      as [H|[-> _]]; [right; now apply IH | now left].
  - destruct (segment_returned email atts true [] moves call x b Hcall Harch Hin)
      as [[]|[-> _]]. now left.
Qed.

(** A recipient's call returns one value. *)
Lemma shape_returned_once groups r evs x b1 b2 :
  shape groups r evs -> NoDup (map fst groups) ->
  In (Returned x b1) evs -> In (Returned x b2) evs -> b1 = b2.
Proof.
  induction 1 as [ | email atts rest r call later Hcall Hrest IH
                   | email atts rest r call moves later Hcall Hff Harch Hmv Hrest IH
                   | email atts rest e call moves Hcall Hff Harch Hmv ];
    intros Hnd H1 H2.
  - destruct H1.
  - inversion Hnd as [|? ? Hk Hnd']; subst.
    destruct (segment_returned email atts false later [] call x b1 Hcall eq_refl H1)
      as [L1|[-> ->]];
    destruct (segment_returned email atts false later [] call _ b2 Hcall eq_refl H2)
      as [L2|[E2 ->]]; subst; auto.
    + exfalso. apply Hk. exact (shape_returned_key _ _ _ _ _ Hrest L1).
    + exfalso. apply Hk. exact (shape_returned_key _ _ _ _ _ Hrest L2).
  - inversion Hnd as [|? ? Hk Hnd']; subst.
    destruct (segment_returned email atts true later moves call x b1 Hcall Harch H1)
      as [L1|[-> ->]];
    destruct (segment_returned email atts true later moves call _ b2 Hcall Harch H2)
      as [L2|[E2 ->]]; subst; auto.
    + exfalso. apply Hk. exact (shape_returned_key _ _ _ _ _ Hrest L1).
    + exfalso. apply Hk. exact (shape_returned_key _ _ _ _ _ Hrest L2).
  - destruct (segment_returned email atts true [] moves call x b1 Hcall Harch H1)
      as [[]|[-> ->]].
    destruct (segment_returned email atts true [] moves call _ b2 Hcall Harch H2)
      as [[]|[_ ->]]. reflexivity.
Qed.

(** Every move belongs to a group whose call returned [True], and is the
    move of one of its attachments before the first faulty one. *)
Lemma shape_moved groups r evs src dst :
  shape groups r evs -> In (MoveFile src dst) evs ->
  exists email atts,
    In (email, atts) groups /\ In (Returned email true) evs /\
    In src (can_move atts) /\ dst = dest src.
Proof.
  induction 1 as [ | email atts rest r call later Hcall Hrest IH
                   | email atts rest r call moves later Hcall Hff Harch Hmv Hrest IH
                   | email atts rest e call moves Hcall Hff Harch Hmv ];
    intros Hin.
  - destruct Hin.
  - destruct (segment_moved email atts false later [] call src dst Hcall Hin)
      as [L|[]].
    destruct (IH L) as (x & a & Hg & Hr & Hs & Hd).
    exists x, a. split; [now right|]. split; [|now split].
    apply in_or_app. now left.
  - destruct (segment_moved email atts true later moves call src dst Hcall Hin)
      as [L|Hm].
    + destruct (IH L) as (x & a & Hg & Hr & Hs & Hd).
      exists x, a. split; [now right|]. split; [|now split].
      apply in_or_app. now left.
    + apply Hmv in Hm as [Hs Hd]. exists email, atts.
      split; [now left|]. split; [apply head_returned|].
      split; [now rewrite (movable_all env processed_dir pf atts Hff) | exact Hd].
  - destruct (segment_moved email atts true [] moves call src dst Hcall Hin)
      as [[]|Hm].
    apply Hmv in Hm as [Hs Hd]. exists email, atts.
    split; [now left|]. split; [apply (head_returned email true [])|].
    now split.
Qed.

Lemma in_head_group (email : value) (atts : list string)
  (x : value) (a : list string) (rest : list (value * list string)) :
  NoDup (map fst ((email, atts) :: rest)) ->
  In (x, a) ((email, atts) :: rest) ->
  (x = email /\ a = atts) \/ (x <> email /\ In (x, a) rest).
Proof.
  intros Hnd [H|H].
  - injection H as <- <-. now left.
  - right. split; [|exact H]. intros ->.
    inversion Hnd as [|? ? Hk _]; subst. apply Hk.
    exact (in_map fst _ _ H).
Qed.

(** The attachments of a group whose call returned [True] are moved, up to
    the first faulty one. *)
Lemma shape_sent_moved groups r evs email atts :
  shape groups r evs -> NoDup (map fst groups) ->
  In (email, atts) groups -> In (Returned email true) evs ->
  forall src, In src (can_move atts) -> In (MoveFile src (dest src)) evs.
Proof.
  induction 1 as [ | email0 atts0 rest r call later Hcall Hrest IH
                   | email0 atts0 rest r call moves later Hcall Hff Harch Hmv Hrest IH
                   | email0 atts0 rest e call moves Hcall Hff Harch Hmv ];
    intros Hnd Hg Hret src Hsrc.
  - destruct Hg.
  - destruct (segment_returned email0 atts0 false later [] call email true
                Hcall eq_refl Hret) as [L|[_ Hb]]; [|discriminate].
    destruct (in_head_group _ _ _ _ _ Hnd Hg) as [[-> ->]|[Hne Hg']].
    + exfalso. inversion Hnd as [|? ? Hk _]; subst. apply Hk.
      exact (shape_returned_key _ _ _ _ _ Hrest L).
    + apply in_or_app. left. inversion Hnd; subst. now apply IH.
  - destruct (in_head_group _ _ _ _ _ Hnd Hg) as [[-> ->]|[Hne Hg']].
    + apply in_or_app. right. apply in_or_app. left. apply Hmv.
      split; [|reflexivity].
      now rewrite (movable_all env processed_dir pf atts0 Hff) in Hsrc.
    + destruct (segment_returned email0 atts0 true later moves call email true
                  Hcall Harch Hret) as [L|[E _]]; [|congruence].
      apply in_or_app. left. inversion Hnd; subst. now apply IH.
  - destruct (in_head_group _ _ _ _ _ Hnd Hg) as [[-> ->]|[Hne Hg']].
    + apply in_or_app. left. apply Hmv. now split.
    + destruct (segment_returned email0 atts0 true [] moves call email true
                  Hcall Harch Hret) as [[]|[E _]]. congruence.
Qed.

(** Every SMTP attempt is an attempt of a call that returned, for a group
    of the list. *)
Lemma shape_attempt groups r evs x a d :
  shape groups r evs -> In (SmtpAttempt x a d) evs ->
  In (x, a) groups /\ exists b, In (Returned x b) evs.
Proof.
  induction 1 as [ | email atts rest r call later Hcall Hrest IH
                   | email atts rest r call moves later Hcall Hff Harch Hmv Hrest IH
                   | email atts rest e call moves Hcall Hff Harch Hmv ];
    intros Hin.
  - destruct Hin.
  - destruct (segment_attempt email atts false later [] call x a d Hcall eq_refl Hin)
      as [L|[-> ->]].
    + destruct (IH L) as (Hg & b & Hb). split; [now right|].
      exists b. apply in_or_app. now left.
    + split; [now left|]. exists false. apply (head_returned email false later []).
  - destruct (segment_attempt email atts true later moves call x a d Hcall Harch Hin)
      as [L|[-> ->]].
    + destruct (IH L) as (Hg & b & Hb). split; [now right|].
      exists b. apply in_or_app. now left.
    + split; [now left|]. exists true. apply head_returned.
  - destruct (segment_attempt email atts true [] moves call x a d Hcall Harch Hin)
      as [[]|[-> ->]].
    split; [now left|]. exists true. apply (head_returned email true []).
Qed.

(** The loop copies nothing. *)
Lemma shape_no_copy groups r evs src dst :
  shape groups r evs -> ~ In (CopyFile src dst) evs.
Proof.
  assert (Hseg : forall email atts b0 later moves call,
             Forall (call_event email atts) call ->
             forallb archive_event moves = true ->
             In (CopyFile src dst) (later ++ moves ++ Returned email b0 :: call) ->
             In (CopyFile src dst) later).
  { intros email atts b0 later moves call Hcall Hmoves Hin.
    apply in_app_or in Hin as [Hin|Hin]; [exact Hin|]. exfalso.
    apply in_app_or in Hin as [Hin|[Hin|Hin]].
    - rewrite forallb_forall in Hmoves. specialize (Hmoves _ Hin). discriminate.
    - discriminate.
    - rewrite Forall_forall in Hcall. exact (Hcall _ Hin). }
  induction 1 as [ | email atts rest r call later Hcall Hrest IH
                   | email atts rest r call moves later Hcall Hff Harch Hmv Hrest IH
                   | email atts rest e call moves Hcall Hff Harch Hmv ];
    intros Hin.
  - destruct Hin.
  - exact (IH (Hseg email atts false later [] call Hcall eq_refl Hin)).
  - exact (IH (Hseg email atts true later moves call Hcall Harch Hin)).
  - exact (Hseg email atts true [] moves call Hcall Harch Hin).
Qed.

(** When the archival of a group raises, the loop ends with that exception
    and no later group is called. *)
Lemma shape_fault_ends before email atts after r evs e :
  shape (before ++ (email, atts) :: after) r evs ->
  NoDup (map fst (before ++ (email, atts) :: after)) ->
  In (Returned email true) evs -> fault atts = Some e ->
  r = Raise e /\
  forall x, In x (map fst after) -> forall b, ~ In (Returned x b) evs.
Proof.
  intros H. remember (before ++ (email, atts) :: after) as groups eqn:Hgroups.
  revert before Hgroups.
  induction H as [ | email0 atts0 rest r call later Hcall Hrest IH
                   | email0 atts0 rest r call moves later Hcall Hff Harch Hmv Hrest IH
                   | email0 atts0 rest e0 call moves Hcall Hff Harch Hmv ];
    intros before Hgroups Hnd Hret Hfault.
  - destruct before; discriminate.
  - inversion Hnd as [|? ? Hk Hnd']; subst.
    destruct (segment_returned email0 atts0 false later [] call email true
                Hcall eq_refl Hret) as [L|[_ Hb]]; [|discriminate].
    destruct before as [|g before]; simpl in Hgroups.
    + injection Hgroups as -> -> ->. exfalso. apply Hk.
      exact (shape_returned_key _ _ _ _ _ Hrest L).
    + injection Hgroups as <- ->.
      destruct (IH before eq_refl Hnd' L Hfault) as [-> Hafter].
      split; [reflexivity|]. intros x Hx b Hin.
      destruct (segment_returned email0 atts0 false later [] call x b
                  Hcall eq_refl Hin) as [L'|[-> _]].
      * exact (Hafter x Hx b L').
      * apply Hk. rewrite map_app. apply in_or_app. right. now right.
  - inversion Hnd as [|? ? Hk Hnd']; subst.
    destruct before as [|g before]; simpl in Hgroups.
    + injection Hgroups as -> -> ->. congruence.
    + injection Hgroups as <- ->.
      destruct (segment_returned email0 atts0 true later moves call email true
                  Hcall Harch Hret) as [L|[-> _]].
      * destruct (IH before eq_refl Hnd' L Hfault) as [-> Hafter].
        split; [reflexivity|]. intros x Hx b Hin.
        destruct (segment_returned email0 atts0 true later moves call x b
                    Hcall Harch Hin) as [L'|[-> _]].
        -- exact (Hafter x Hx b L').
        -- apply Hk. rewrite map_app. apply in_or_app. right. now right.
      * exfalso. apply Hk. rewrite map_app. apply in_or_app. right. now left.
  - inversion Hnd as [|? ? Hk Hnd']; subst.
    destruct (segment_returned email0 atts0 true [] moves call email true
                Hcall Harch Hret) as [[]|[-> _]].
    destruct before as [|g before]; simpl in Hgroups.
    + injection Hgroups as Hr Ha. subst rest atts0. split; [congruence|].
      intros x Hx b Hin.
      destruct (segment_returned email0 atts true [] moves call x b
                  Hcall Harch Hin) as [[]|[-> _]]. now apply Hk.
    + injection Hgroups as <- ->. exfalso. apply Hk. rewrite map_app.
      apply in_or_app. right. now left.
Qed.

End Shape.

(** ** Groups of a run *)

Section Groups.
Import Str StrFacts.

Lemma classified_single_owner (env : Env) (dirs : Directories)
  (df : DataFrame) (names : list string) :
  (forall f, In f names -> contains f Path.sep = false) ->
  single_owner (results_of env dirs df names).
Proof.
  intros Hnames [[pan1 e1] p1] [[pan2 e2] p2] H1 H2 Hp.
  unfold results_of in H1, H2.
  apply in_map_iff in H1 as (f1 & Hc1 & Hf1).
  apply in_map_iff in H2 as (f2 & Hc2 & Hf2).
  apply filter_In in Hf1 as [Hf1 _]. apply filter_In in Hf2 as [Hf2 _].
  pose proof (classified_some _ _ _ _ _ _ _ _ Hc1) as (Hx1 & _ & _ & Hpath1).
  pose proof (classified_some _ _ _ _ _ _ _ _ Hc2) as (Hx2 & _ & _ & Hpath2).
  apply extracted_is_pan in Hx1, Hx2.
  rewrite staged_path in Hpath1
    by (try assumption; apply no_sep_startswith; now apply Hnames).
  rewrite staged_path in Hpath2
    by (try assumption; apply no_sep_startswith; now apply Hnames).
  unfold path_of in Hp. simpl in Hp. rewrite Hpath1, Hpath2 in Hp.
  destruct (staged_path_inj _ _ _ _ _ Hx1 Hx2 Hp) as [_ ->].
  congruence.
Qed.

Lemma group_members (results : list (option triple))
  (eg : dict value) (pf : dict string)
  (email : value) (atts : list string) (p : string) :
  group_results results = Value (eg, pf) ->
  In (email, atts) eg -> In p atts ->
  exists pan, In (Some (pan, email, p)) results.
Proof.
  intros Hgroup Hin Hp.
  destruct (group_results_spec results) as (eg0 & pf0 & H0 & Heg & _ & Hnd & _).
  rewrite Hgroup in H0. injection H0 as <- <-.
  apply (dict_in_get _ _ _ Hnd) in Hin. rewrite Heg in Hin.
  apply extend_none_in in Hin. subst atts.
  apply paths_by_in in Hp as ([[pan e] q] & Ht & He & Hq).
  unfold email_of, path_of in He, Hq. simpl in He, Hq. subst e q.
  now exists pan.
Qed.

Lemma group_keys_nodup (results : list (option triple))
  (eg : dict value) (pf : dict string) :
  group_results results = Value (eg, pf) -> NoDup (map fst eg).
Proof.
  intros Hgroup.
  destruct (group_results_spec results) as (eg0 & pf0 & H0 & _ & _ & Hnd & _).
  rewrite Hgroup in H0. now injection H0 as <- <-.
Qed.

(** A path is an attachment of one recipient only. *)
Lemma groups_disjoint (results : list (option triple))
  (eg : dict value) (pf : dict string)
  (e1 e2 : value) (a1 a2 : list string) (p : string) :
  single_owner results -> group_results results = Value (eg, pf) ->
  In (e1, a1) eg -> In (e2, a2) eg -> In p a1 -> In p a2 ->
  e1 = e2 /\ a1 = a2.
Proof.
  intros Hso Hgroup H1 H2 Hp1 Hp2.
  destruct (group_members _ _ _ _ _ _ Hgroup H1 Hp1) as (pan1 & Ht1).
  destruct (group_members _ _ _ _ _ _ Hgroup H2 Hp2) as (pan2 & Ht2).
  pose proof (Hso _ _ Ht1 Ht2 eq_refl) as E. injection E as _ <-.
  split; [reflexivity|].
  pose proof (group_keys_nodup _ _ _ Hgroup) as Hnd.
  apply (dict_in_get _ _ _ Hnd) in H1, H2. congruence.
Qed.

Lemma group_nonempty (results : list (option triple))
  (eg : dict value) (pf : dict string)
  (email : value) (atts : list string) :
  group_results results = Value (eg, pf) -> In (email, atts) eg ->
  exists p, In p atts.
Proof.
  intros Hgroup Hin.
  destruct (group_results_spec results) as (eg0 & pf0 & H0 & Heg & _ & Hnd & _).
  rewrite Hgroup in H0. injection H0 as <- <-.
  apply (dict_in_get _ _ _ Hnd) in Hin. rewrite Heg in Hin.
  destruct (paths_by email_of email results) as [|p ps]; [discriminate|].
  injection Hin as <-. exists p. now left.
Qed.

End Groups.

(** The events of a run that is set up, started at time [t0]. *)
Lemma main_events (fuel : nat) (env : Env) (dirs : Directories) (df : DataFrame)
  (names : list string) (email_config : EmailConfig)
  (eg : dict value) (pf : dict string) (t0 : Z) :
  2 <= fuel ->
  setup env dirs df names email_config ->
  group_results (results_of env dirs df names) = Value (eg, pf) ->
  exists r closing loop staging,
    fst (main fuel env (start t0)) = Ok tt /\
    events (snd (main fuel env (start t0))) = closing ++ loop ++ staging /\
    (forallb staging_event staging = true /\
     (forall t, In (Some t) (results_of env dirs df names) ->
                exists src, In (CopyFile src (path_of t)) staging) /\
     (forall src dst, In (CopyFile src dst) staging ->
        exists f, In f (filter is_pdf names) /\
                  src = Path.join (pdf_directory dirs) [f])) /\
    loop_shape env (processed_directory dirs) pf eg r loop /\
    closing
    = match r with
      | Ok _ => [Log INFO ExecutionCompleted;
                 Log INFO (FinishedProcessing (List.length eg))]
      | Raise e => [Log ERROR (ScriptError e)]
      | OutOfFuel => []
      end /\
    limiter_ok CALLS_PER_MINUTE PERIOD (snd (main fuel env (start t0))).
Proof.
  intros Hfuel Hsetup Hgroup.
  destruct (main_run fuel env dirs df names email_config eg pf (start t0)
              Hfuel Hsetup Hgroup (limiter_ok_start _ _ t0))
    as (r & closing & loop & staging & w' & Hrun & Htr & Hst & Hshape & Hcl & Hok).
  exists r, (map snd closing), (map snd loop), (map snd staging).
  rewrite Hrun. cbn [fst snd]. unfold events. rewrite Htr.
  cbn [start trace]. rewrite app_nil_r, !map_app.
  split; [reflexivity|]. split; [reflexivity|]. split; [exact Hst|].
  split; [exact Hshape|]. split; [exact Hcl | exact Hok].
Qed.

Section RunEvents.

Variables (closing loop staging : list event) (r : res unit) (n : nat).
Hypothesis staging_only : forallb staging_event staging = true.
Hypothesis closing_logs :
  closing = match r with
            | Ok _ => [Log INFO ExecutionCompleted; Log INFO (FinishedProcessing n)]
            | Raise e => [Log ERROR (ScriptError e)]
            | OutOfFuel => []
            end.

Lemma run_event_in_loop (e : event) :
  staging_event e = false ->
  In e (closing ++ loop ++ staging) <-> In e loop.
Proof.
  intros He. rewrite !in_app_iff. split; [|tauto].
  intros [H|[H|H]]; [|exact H|].
  - exfalso. rewrite closing_logs in H.
    destruct r as [[]|x|]; simpl in H;
      repeat (destruct H as [<-|H]; [discriminate|]); destruct H.
  - exfalso. rewrite forallb_forall in staging_only.
    specialize (staging_only _ H). congruence.
Qed.

End RunEvents.

(** The events of a run are those of the dispatch loop, as far as calls,
    attempts and moves go; the most recent event tells how the loop ended. *)
Lemma main_loop_events (fuel : nat) (env : Env) (dirs : Directories)
  (df : DataFrame) (names : list string) (email_config : EmailConfig)
  (eg : dict value) (pf : dict string) (t0 : Z) :
  2 <= fuel ->
  setup env dirs df names email_config ->
  group_results (results_of env dirs df names) = Value (eg, pf) ->
  exists r loop,
    fst (main fuel env (start t0)) = Ok tt /\
    loop_shape env (processed_directory dirs) pf eg r loop /\
    (forall e, staging_event e = false ->
       (In e (events (snd (main fuel env (start t0)))) <-> In e loop)) /\
    (forall e, r = Raise e ->
       hd_error (events (snd (main fuel env (start t0))))
       = Some (Log ERROR (ScriptError e))) /\
    (forall t, In (Some t) (results_of env dirs df names) ->
       exists src,
         In (CopyFile src (path_of t)) (events (snd (main fuel env (start t0))))) /\
    (forall src dst,
       In (CopyFile src dst) (events (snd (main fuel env (start t0)))) ->
       exists f, In f (filter is_pdf names) /\
                 src = Path.join (pdf_directory dirs) [f]).
Proof.
  intros Hfuel Hsetup Hgroup.
  destruct (main_events fuel env dirs df names email_config eg pf t0
              Hfuel Hsetup Hgroup)
    as (r & closing & loop & staging & Hres & Hev & (Hst & Hcopy & Honly) & Hshape
        & Hcl & _).
  exists r, loop. split; [exact Hres|]. split; [exact Hshape|].
  split; [|split; [|split]].
  - intros e He. rewrite Hev.
    exact (run_event_in_loop closing loop staging r _ Hst Hcl e He).
  - intros e ->. rewrite Hev, Hcl. reflexivity.
  - intros t Ht. destruct (Hcopy t Ht) as [src Hsrc]. exists src.
    rewrite Hev. apply in_or_app. right. apply in_or_app. now right.
  - intros src dst Hin. rewrite Hev in Hin.
    apply in_app_or in Hin as [Hin|Hin]; [|apply in_app_or in Hin as [Hin|Hin]].
    + exfalso. rewrite Hcl in Hin.
      destruct r as [[]|x|]; simpl in Hin;
        repeat (destruct Hin as [Hin|Hin]; [discriminate|]); destruct Hin.
    + destruct (shape_no_copy _ _ _ _ _ _ src dst Hshape Hin).
    + exact (Honly src dst Hin).
Qed.

Lemma on_disk_kept (evs : list event) (path : string) :
  (exists src, In (CopyFile src path) evs) ->
  (forall dst, ~ In (MoveFile path dst) evs) ->
  on_disk evs path = true.
Proof.
  induction evs as [|e evs IH]; intros [src Hc] Hm; [destruct Hc|].
  assert (Hm' : forall dst, ~ In (MoveFile path dst) evs)
    by (intros dst H; apply (Hm dst); now right).
  destruct Hc as [->|Hc].
  - simpl. now rewrite String.eqb_refl.
  - assert (IH' : on_disk evs path = true) by (apply IH; [now exists src | exact Hm']).
    destruct e; simpl; try exact IH'.
    + rewrite IH'. apply orb_true_r.
    + rewrite IH'.
      destruct (String.eqb_spec path src0) as [->|Hne].
      * exfalso. apply (Hm dst). now left.
      * simpl. apply orb_true_r.
Qed.

(** C1, as amended. For every recipient group of a run: when its dispatch
    call returned [False], none of its files is moved and all are still in
    staging; its files are all moved only if the call returned [True]; and
    when the call returned [True] and no step of archiving its files
    raises, all its files are moved to the processed location. *)
Theorem archival_follows_dispatch (fuel : nat) (env : Env) (dirs : Directories)
  (df : DataFrame) (names : list string) (email_config : EmailConfig)
  (eg : dict value) (pf : dict string) (t0 : Z) :
  2 <= fuel ->
  setup env dirs df names email_config ->
  group_results (results_of env dirs df names) = Value (eg, pf) ->
  let evs := events (snd (main fuel env (start t0))) in
  forall email attachments, In (email, attachments) eg ->
    (In (Returned email false) evs ->
     forall src, In src attachments ->
       on_disk evs src = true /\ forall dst, ~ In (MoveFile src dst) evs) /\
    ((forall src, In src attachments -> exists dst, In (MoveFile src dst) evs) ->
     In (Returned email true) evs) /\
    (In (Returned email true) evs ->
     first_fault env (processed_directory dirs) pf attachments = None ->
     forall src, In src attachments ->
       In (MoveFile src (destination (processed_directory dirs) pf src)) evs).
Proof.
  intros Hfuel Hsetup Hgroup evs email attachments Hin.
  destruct (main_loop_events fuel env dirs df names email_config eg pf t0
              Hfuel Hsetup Hgroup) as (r & loop & _ & Hshape & Hloop & _ & Hcopy & _).
  fold evs in Hloop.
  pose proof (group_keys_nodup _ _ _ Hgroup) as Hnd.
  pose proof (classified_single_owner env dirs df names
                (setup_names _ _ _ _ _ Hsetup)) as Hso.
  assert (Hmoved : forall src dst, In src attachments ->
             In (MoveFile src dst) evs -> In (Returned email true) loop).
  { intros src dst Hsrc Hm. apply Hloop in Hm; [|reflexivity].
    destruct (shape_moved _ _ _ _ _ _ _ _ Hshape Hm)
      as (email' & atts' & Hg' & Hr' & Hs' & _).
    apply movable_incl in Hs' as [Hs' _].
    destruct (groups_disjoint _ _ _ _ _ _ _ _ Hso Hgroup Hg' Hin Hs' Hsrc)
      as [-> _]. exact Hr'. }
  split; [|split].
  - intros Hret src Hsrc. apply Hloop in Hret; [|reflexivity].
    assert (Hnomove : forall dst, ~ In (MoveFile src dst) evs).
    { intros dst Hm. pose proof (Hmoved src dst Hsrc Hm) as Hret'.
      pose proof (shape_returned_once _ _ _ _ _ _ _ _ _ Hshape Hnd Hret Hret').
      discriminate. }
    split; [|exact Hnomove].
    apply on_disk_kept; [|exact Hnomove].
    destruct (group_members _ _ _ _ _ _ Hgroup Hin Hsrc) as [pan Ht].
    exact (Hcopy _ Ht).
  - intros Hall. destruct (group_nonempty _ _ _ _ _ Hgroup Hin) as [p Hp].
    destruct (Hall p Hp) as [dst Hm].
    apply Hloop; [reflexivity|]. exact (Hmoved p dst Hp Hm).
  - intros Hret Hff src Hsrc. apply Hloop; [reflexivity|].
    apply Hloop in Hret; [|reflexivity].
    apply (shape_sent_moved _ _ _ _ _ _ email attachments Hshape Hnd Hin Hret).
    now rewrite (movable_all _ _ _ _ Hff).
Qed.

Lemma demo_setup (names : list string) (docs : list (string * list string))
  (move_fault : string -> string -> option exn)
  (smtp : nat -> value -> list string -> EmailConfig -> reply unit * nat) :
  (forall f, In f names -> Str.contains f Path.sep = false) ->
  setup (Demo.env_with names docs move_fault smtp) Demo.dirs Demo.df names
        Demo.email_config.
Proof.
  intros H. constructor; try reflexivity; [|exact H].
  exists "table.csv". split; reflexivity.
Defined.

Lemma demo_names (f : string) :
  In f Demo.names -> Str.contains f Path.sep = false.
Proof.
  intros H. simpl in H.
  repeat (destruct H as [<-|H]; [reflexivity|]). destruct H.
Defined.

Ltac in_list := repeat first [left; reflexivity | right].

Ltac not_in_list H :=
  vm_compute in H; repeat (destruct H as [H|H]; [discriminate H|]); destruct H.

(** C1 as stated fails: the call for [a@x.com] returned [True], yet its
    first attachment cannot be moved and the group is not moved in full. *)
Lemma archived_iff_sent_fails :
  ~ archived_iff_sent 2 Demo.env_move_fault 0 Demo.groups.
Proof.
  intros H.
  destruct (H "a@x.com" _ (or_introl eq_refl)) as [_ Hall].
  assert (Hret : In (Returned "a@x.com" true)
                    (events (snd (main 2 Demo.env_move_fault (start 0)))))
    by (vm_compute; in_list).
  destruct (Hall Hret "staging/ABCDE1234F/A.pdf" (or_introl eq_refl)) as [dst Hm].
  not_in_list Hm.
Qed.

Lemma archival_follows_dispatch_witness :
  let evs := events (snd (main 2 Demo.env (start 0))) in
  (In (Returned "b@x.com" false) evs ->
   forall src, In src ["staging/PQRST5678U/B.PDF"] ->
     on_disk evs src = true /\ forall dst, ~ In (MoveFile src dst) evs) /\
  ((forall src, In src ["staging/PQRST5678U/B.PDF"] ->
                exists dst, In (MoveFile src dst) evs) ->
   In (Returned "b@x.com" true) evs) /\
  (In (Returned "b@x.com" true) evs ->
   first_fault Demo.env "processed" Demo.owners ["staging/PQRST5678U/B.PDF"]
   = None ->
   forall src, In src ["staging/PQRST5678U/B.PDF"] ->
     In (MoveFile src (destination "processed" Demo.owners src)) evs).
Proof.
  apply (archival_follows_dispatch 2 Demo.env Demo.dirs Demo.df Demo.names
           Demo.email_config Demo.groups Demo.owners 0).
  - lia.
  - apply demo_setup. exact demo_names.
  - reflexivity.
  - right. left. reflexivity.
Defined.

Example unsent_groups_stay_staged :
  let evs := events (snd (main 2 Demo.env_smtp_down (start 0))) in
  In (Returned "a@x.com" false) evs /\ In (Returned "b@x.com" false) evs /\
  map (on_disk evs)
      ["staging/ABCDE1234F/A.pdf"; "staging/LMNOP0000Q/C.pdf";
       "staging/PQRST5678U/B.PDF"; "processed/ABCDE1234F/A.pdf"]
  = [true; true; true; false].
Proof. vm_compute. split; [in_list | split; [in_list | reflexivity]]. Qed.

Example sent_groups_are_archived :
  let evs := events (snd (main 2 Demo.env (start 0))) in
  In (Returned "a@x.com" true) evs /\ In (Returned "b@x.com" true) evs /\
  map (on_disk evs)
      ["staging/ABCDE1234F/A.pdf"; "staging/LMNOP0000Q/C.pdf";
       "staging/PQRST5678U/B.PDF"; "processed/ABCDE1234F/A.pdf";
       "processed/LMNOP0000Q/C.pdf"; "processed/PQRST5678U/B.PDF"]
  = [false; false; false; true; true; true].
Proof. vm_compute. split; [in_list | split; [in_list | reflexivity]]. Qed.

(** C2 as stated fails: after the move of [A.pdf] raised, [C.pdf] of the
    same group, whose own move would succeed, is not moved. *)
Lemma moves_independent_fails :
  ~ moves_independent 2 Demo.env_move_fault 0 "processed" Demo.groups Demo.owners.
Proof.
  intros H.
  assert (Hret : In (Returned "a@x.com" true)
                    (events (snd (main 2 Demo.env_move_fault (start 0)))))
    by (vm_compute; in_list).
  pose proof (H "a@x.com" _ (or_introl eq_refl) Hret
                "staging/LMNOP0000Q/C.pdf" (or_intror (or_introl eq_refl)) eq_refl)
    as Hm.
  not_in_list Hm.
Qed.

(** C2, as amended. When, in a group whose call returned [True], archiving
    an attachment raises, the exception is logged by the handler of [main],
    which returns; the send is not undone and the attachments before the
    failing one stay moved; the failing attachment and those after it are
    not moved, and no later group is sent or moved. *)
Theorem move_failure_ends_run (fuel : nat) (env : Env) (dirs : Directories)
  (df : DataFrame) (names : list string) (email_config : EmailConfig)
  (eg : dict value) (pf : dict string) (t0 : Z)
  (before after : list (value * list string)) (email : value)
  (attachments : list string) (e : exn) :
  2 <= fuel ->
  setup env dirs df names email_config ->
  group_results (results_of env dirs df names) = Value (eg, pf) ->
  eg = before ++ (email, attachments) :: after ->
  let evs := events (snd (main fuel env (start t0))) in
  let processed_dir := processed_directory dirs in
  In (Returned email true) evs ->
  first_fault env processed_dir pf attachments = Some e ->
  fst (main fuel env (start t0)) = Ok tt /\
  hd_error evs = Some (Log ERROR (ScriptError e)) /\
  (forall src, In src (movable env processed_dir pf attachments) ->
     In (MoveFile src (destination processed_dir pf src)) evs) /\
  (forall src dst, In src attachments ->
     ~ In src (movable env processed_dir pf attachments) ->
     ~ In (MoveFile src dst) evs) /\
  (forall email' attachments', In (email', attachments') after ->
     (forall b, ~ In (Returned email' b) evs) /\
     (forall a d, ~ In (SmtpAttempt email' a d) evs) /\
     (forall src dst, In src attachments' -> ~ In (MoveFile src dst) evs)).
Proof.
  intros Hfuel Hsetup Hgroup Heg evs processed_dir Hret Hff.
  destruct (main_loop_events fuel env dirs df names email_config eg pf t0
              Hfuel Hsetup Hgroup) as (r & loop & Hres & Hshape & Hloop & Hhd & _ & _).
  fold evs in Hloop, Hhd. fold processed_dir in Hshape.
  pose proof (group_keys_nodup _ _ _ Hgroup) as Hnd.
  pose proof (classified_single_owner env dirs df names
                (setup_names _ _ _ _ _ Hsetup)) as Hso.
  assert (Hin : In (email, attachments) eg)
    by (rewrite Heg; apply in_or_app; right; now left).
  apply Hloop in Hret; [|reflexivity].
  rewrite Heg in Hshape, Hnd.
  destruct (shape_fault_ends _ _ _ _ _ _ _ _ _ _ Hshape Hnd Hret Hff)
    as [-> Hafter].
  rewrite <- Heg in Hshape, Hnd.
  split; [exact Hres|]. split; [now apply Hhd|]. split; [|split].
  - intros src Hsrc. apply Hloop; [reflexivity|].
    exact (shape_sent_moved _ _ _ _ _ _ email attachments Hshape Hnd Hin Hret
             src Hsrc).
  - intros src dst Hsrc Hnot Hm. apply Hloop in Hm; [|reflexivity].
    destruct (shape_moved _ _ _ _ _ _ _ _ Hshape Hm)
      as (email' & atts' & Hg' & _ & Hs' & _).
    pose proof (movable_incl _ _ _ _ _ Hs') as [Hs'' _].
    destruct (groups_disjoint _ _ _ _ _ _ _ _ Hso Hgroup Hg' Hin Hs'' Hsrc)
      as [_ ->]. exact (Hnot Hs').
  - intros email' attachments' Hlater.
    assert (Hkey : In email' (map fst after))
      by (exact (in_map fst _ _ Hlater)).
    assert (Hin' : In (email', attachments') eg)
      by (rewrite Heg; apply in_or_app; right; now right).
    assert (Hnoret : forall b, ~ In (Returned email' b) evs).
    { intros b Hb. apply Hloop in Hb; [|reflexivity]. exact (Hafter _ Hkey b Hb). }
    split; [exact Hnoret|]. split.
    + intros a d Ha. apply Hloop in Ha; [|reflexivity].
      destruct (shape_attempt _ _ _ _ _ _ _ _ _ Hshape Ha) as (_ & b & Hb).
      exact (Hafter _ Hkey b Hb).
    + intros src dst Hsrc Hm. apply Hloop in Hm; [|reflexivity].
      destruct (shape_moved _ _ _ _ _ _ _ _ Hshape Hm)
        as (x & atts' & Hg' & Hr' & Hs' & _).
      apply movable_incl in Hs' as [Hs' _].
      destruct (groups_disjoint _ _ _ _ _ _ _ _ Hso Hgroup Hg' Hin' Hs' Hsrc)
        as [-> _]. exact (Hafter _ Hkey true Hr').
Qed.

Lemma move_failure_ends_run_witness :
  let evs := events (snd (main 2 Demo.env_move_fault (start 0))) in
  let attachments := ["staging/ABCDE1234F/A.pdf"; "staging/LMNOP0000Q/C.pdf"] in
  fst (main 2 Demo.env_move_fault (start 0)) = Ok tt /\
  hd_error evs
  = Some (Log ERROR (ScriptError (OSError "staging/ABCDE1234F/A.pdf"))) /\
  (forall src,
     In src (movable Demo.env_move_fault "processed" Demo.owners attachments) ->
     In (MoveFile src (destination "processed" Demo.owners src)) evs) /\
  (forall src dst, In src attachments ->
     ~ In src (movable Demo.env_move_fault "processed" Demo.owners attachments) ->
     ~ In (MoveFile src dst) evs) /\
  (forall email' attachments',
     In (email', attachments') [(Str "b@x.com", ["staging/PQRST5678U/B.PDF"])] ->
     (forall b, ~ In (Returned email' b) evs) /\
     (forall a d, ~ In (SmtpAttempt email' a d) evs) /\
     (forall src dst, In src attachments' -> ~ In (MoveFile src dst) evs)).
Proof.
  apply (move_failure_ends_run 2 Demo.env_move_fault Demo.dirs Demo.df
           Demo.names Demo.email_config Demo.groups Demo.owners 0
           [] [(Str "b@x.com", ["staging/PQRST5678U/B.PDF"])] "a@x.com").
  - lia.
  - apply demo_setup. exact demo_names.
  - reflexivity.
  - reflexivity.
  - vm_compute. in_list.
  - reflexivity.
Defined.

(** ** The rate of calls *)

(** A call of the decorated sender is never refused: it returns, after one
    passage of the limiter; when the window is full on arrival, the call
    first sleeps for what remains of the window and passes at its end. *)
Lemma send_grouped_delay (fuel : nat) (env : Env) (email : value)
  (attachments : list string) (email_config : EmailConfig) (w : World) :
  2 <= fuel ->
  limiter_ok CALLS_PER_MINUTE PERIOD w ->
  let remaining := (PERIOD - (clock w - last_reset w))%Z in
  exists ok w' call waited,
    send_grouped_email_with_retry fuel env email attachments email_config w
    = (Ok ok, w') /\
    trace w' = (clock w', Returned email ok) :: call ++ waited ++ trace w /\
    forallb sending_event (map snd call) = true /\
    ( ((remaining <= 0)%Z \/ num_calls w < CALLS_PER_MINUTE) /\
      waited = [(clock w,
                 Entered (if (remaining <=? 0)%Z then clock w else last_reset w))]
      \/
      ((0 < remaining)%Z /\ CALLS_PER_MINUTE <= num_calls w) /\
      waited = [((clock w + remaining)%Z, Entered (last_reset w + PERIOD)%Z);
                (clock w, Slept remaining)] ).
Proof.
  intros Hfuel Hok remaining.
  unfold send_grouped_email_with_retry, bind at 1.
  destruct (limited_call_run CALLS_PER_MINUTE PERIOD ltac:(unfold PERIOD; lia)
              (call_event email attachments)
              (send_attempts env email attachments email_config) fuel w
              (send_attempts_quiet env fuel Hfuel email_config email attachments)
              Hok Hfuel)
    as (b & w1 & new & waited & Hrun & Htr & _ & [Hsend _] & _ & Hwait).
  rewrite Hrun. unfold bind, ret. rewrite emit_record.
  exists b. eexists. exists new, waited.
  split; [reflexivity|]. cbn [record trace clock map app].
  split; [now rewrite Htr|]. split; [exact Hsend|].
  exact Hwait.
Qed.

(** C3 as stated fails: with six recipients and a server that accepts every
    fourth attempt, 22 SMTP attempts are made in the first 60 seconds, and
    the limiter, which counted six calls, delayed none. *)
Lemma attempts_rate_limited_fails : ~ attempts_rate_limited 2 Demo.env_flaky 0.
Proof.
  intros H. specialize (H 0%Z).
  assert (E : attempts_within 0 (0 + PERIOD)
                (trace (snd (main 2 Demo.env_flaky (start 0)))) = 22)
    by (vm_compute; reflexivity).
  rewrite E in H. unfold CALLS_PER_MINUTE in H. lia.
Qed.

(** C3, as amended. In a run, the limiter lets through at most
    [CALLS_PER_MINUTE] calls of the dispatch function per window of [PERIOD]
    seconds, a window beginning when the limiter last reset its counter, and
    every call let through is stamped inside its window; the attempts made
    inside a call do not pass the limiter.  A call is never refused: it
    always returns, and when it finds the window full it sleeps for the
    rest of the window and passes when the next one begins. *)
Theorem rate_limit_on_calls (fuel : nat) (env : Env) (dirs : Directories)
  (df : DataFrame) (names : list string) (email_config : EmailConfig)
  (eg : dict value) (pf : dict string) (t0 : Z) :
  2 <= fuel ->
  setup env dirs df names email_config ->
  group_results (results_of env dirs df names) = Value (eg, pf) ->
  let w' := snd (main fuel env (start t0)) in
  fst (main fuel env (start t0)) = Ok tt /\
  (forall window, entered window (trace w') <= CALLS_PER_MINUTE) /\
  (forall t window, In (t, Entered window) (trace w') ->
     (window <= t < window + PERIOD)%Z) /\
  (forall email attachments w,
     limiter_ok CALLS_PER_MINUTE PERIOD w ->
     let remaining := (PERIOD - (clock w - last_reset w))%Z in
     exists ok w1 call waited,
       send_grouped_email_with_retry fuel env email attachments email_config w
       = (Ok ok, w1) /\
       trace w1 = (clock w1, Returned email ok) :: call ++ waited ++ trace w /\
       forallb sending_event (map snd call) = true /\
       ( ((remaining <= 0)%Z \/ num_calls w < CALLS_PER_MINUTE) /\
         waited = [(clock w,
                    Entered (if (remaining <=? 0)%Z then clock w
                             else last_reset w))]
         \/
         ((0 < remaining)%Z /\ CALLS_PER_MINUTE <= num_calls w) /\
         waited = [((clock w + remaining)%Z, Entered (last_reset w + PERIOD)%Z);
                   (clock w, Slept remaining)] )).
Proof.
  intros Hfuel Hsetup Hgroup w'.
  destruct (main_events fuel env dirs df names email_config eg pf t0
              Hfuel Hsetup Hgroup)
    as (r & closing & loop & staging & Hres & _ & _ & _ & _ & Hok).
  fold w' in Hok. destruct Hok as (_ & Hin & _ & Hall).
  split; [exact Hres|]. split; [exact Hall|]. split.
  - intros t window Hi. exact (proj1 (Hin t window Hi)).
  - intros email attachments w Hw.
    exact (send_grouped_delay fuel env email attachments email_config w Hfuel Hw).
Qed.

Lemma rate_limit_on_calls_witness :
  let w' := snd (main 2 Demo.env_flaky (start 0)) in
  fst (main 2 Demo.env_flaky (start 0)) = Ok tt /\
  (forall window, entered window (trace w') <= CALLS_PER_MINUTE) /\
  (forall t window, In (t, Entered window) (trace w') ->
     (window <= t < window + PERIOD)%Z) /\
  (forall email attachments w,
     limiter_ok CALLS_PER_MINUTE PERIOD w ->
     let remaining := (PERIOD - (clock w - last_reset w))%Z in
     exists ok w1 call waited,
       send_grouped_email_with_retry 2 Demo.env_flaky email attachments
                                     Demo.email_config w
       = (Ok ok, w1) /\
       trace w1 = (clock w1, Returned email ok) :: call ++ waited ++ trace w /\
       forallb sending_event (map snd call) = true /\
       ( ((remaining <= 0)%Z \/ num_calls w < CALLS_PER_MINUTE) /\
         waited = [(clock w,
                    Entered (if (remaining <=? 0)%Z then clock w
                             else last_reset w))]
         \/
         ((0 < remaining)%Z /\ CALLS_PER_MINUTE <= num_calls w) /\
         waited = [((clock w + remaining)%Z, Entered (last_reset w + PERIOD)%Z);
                   (clock w, Slept remaining)] )).
Proof.
  apply (rate_limit_on_calls 2 Demo.env_flaky Demo.dirs Demo.df Demo.six_names
           Demo.email_config
           [(Str "r1@x.com", ["staging/AAAAA0001A/r1.pdf"]);
            (Str "r2@x.com", ["staging/AAAAA0002A/r2.pdf"]);
            (Str "r3@x.com", ["staging/AAAAA0003A/r3.pdf"]);
            (Str "r4@x.com", ["staging/AAAAA0004A/r4.pdf"]);
            (Str "r5@x.com", ["staging/AAAAA0005A/r5.pdf"]);
            (Str "r6@x.com", ["staging/AAAAA0006A/r6.pdf"])]
           [("AAAAA0001A", ["staging/AAAAA0001A/r1.pdf"]);
            ("AAAAA0002A", ["staging/AAAAA0002A/r2.pdf"]);
            ("AAAAA0003A", ["staging/AAAAA0003A/r3.pdf"]);
            ("AAAAA0004A", ["staging/AAAAA0004A/r4.pdf"]);
            ("AAAAA0005A", ["staging/AAAAA0005A/r5.pdf"]);
            ("AAAAA0006A", ["staging/AAAAA0006A/r6.pdf"])] 0).
  - lia.
  - apply demo_setup. intros f H. simpl in H.
    repeat (destruct H as [<-|H]; [reflexivity|]). destruct H.
  - reflexivity.
Defined.

(** The window is fixed, not rolling: of forty calls in a row, the first of
    which takes 59 seconds, twenty pass in the first window and twenty when
    the next one begins a second later, 39 of them within two seconds. *)
Example calls_in_a_rolling_window :
  calls_within 59 61 (trace (snd (Demo.calls_in_a_row 40 (start 0)))) = 39 /\
  entered 0 (trace (snd (Demo.calls_in_a_row 40 (start 0)))) = 20 /\
  entered 60 (trace (snd (Demo.calls_in_a_row 40 (start 0)))) = 20.
Proof. vm_compute. repeat split. Qed.

(** ** The directory listing *)

Lemma is_pdf_spec (f : string) :
  is_pdf f = true <-> exists stem, Str.lower f = (stem ++ ".pdf")%string.
Proof. unfold is_pdf. apply StrFacts.endswith_spec. Qed.

Lemma classify_listing (env : Env) (names : list string) :
  classify (with_listing env names) = classify env.
Proof. reflexivity. Qed.

Lemma makedirs_listing (env : Env) (names : list string) :
  makedirs (with_listing env names) = makedirs env.
Proof. reflexivity. Qed.

Lemma retry_loop_listing (env : Env) (names : list string) (email : value)
  (attachments : list string) (email_config : EmailConfig)
  (max_retries : nat) (base_delay : Z) (attempts : list nat) :
  retry_loop (with_listing env names) email attachments email_config
             max_retries base_delay attempts
  = retry_loop env email attachments email_config max_retries base_delay
               attempts.
Proof.
  induction attempts as [|attempt rest IH]; [reflexivity|].
  cbn [retry_loop]. rewrite IH. reflexivity.
Qed.

Lemma dispatch_group_listing (fuel : nat) (env : Env) (names : list string)
  (processed_dir : string) (email_config : EmailConfig) (pf : dict string)
  (item : value * list string) :
  dispatch_group fuel (with_listing env names) processed_dir email_config pf item
  = dispatch_group fuel env processed_dir email_config pf item.
Proof.
  destruct item as [email attachments].
  unfold dispatch_group, send_grouped_email_with_retry, send_attempts.
  rewrite retry_loop_listing. reflexivity.
Qed.

Lemma for_each_ext {A} (f g : A -> M unit) (xs : list A) :
  (forall x, f x = g x) -> for_each xs f = for_each xs g.
Proof.
  intros H. induction xs as [|x xs IH]; [reflexivity|].
  cbn [for_each]. now rewrite H, IH.
Qed.

Lemma bind_lift {A B} (r : reply A) (k : A -> M B) (w : World) :
  bind (lift r) k w
  = match r with
    | Value a => k a w
    | Error e => (Raise e, w)
    end.
Proof. now destruct r. Qed.

Lemma bind_emit {B} (e : event) (k : unit -> M B) (w : World) :
  bind (emit e) k w = k tt (record [e] w).
Proof. reflexivity. Qed.

Lemma bind_makedirs {B} (env : Env) (path : string) (k : unit -> M B)
  (w : World) :
  bind (makedirs env path) k w
  = match makedirs_fault env path with
    | Some x => (Raise x, w)
    | None => k tt (record [MakeDirs path] w)
    end.
Proof.
  unfold makedirs, fs_call. now destruct (makedirs_fault env path).
Qed.

(** The run reads the listing through the filter only. *)
Lemma main_listing (fuel : nat) (env : Env) (names : list string) (w : World) :
  main fuel (with_listing env names) w
  = main fuel (with_listing env (filter is_pdf names)) w.
Proof.
  assert (Hidem : filter is_pdf (filter is_pdf names) = filter is_pdf names).
  { induction names as [|f l IH]; [reflexivity|]. simpl.
    destruct (is_pdf f) eqn:E; [|exact IH]. simpl. now rewrite E, IH. }
  unfold main, try_except.
  match goal with
  | |- (let (_, _) := ?a in _) = (let (_, _) := ?b in _) =>
      assert (Hbody : a = b); [|now rewrite Hbody]
  end.
  rewrite !bind_lift.
  change (cfg_table_file (with_listing env names)) with (cfg_table_file env).
  change (cfg_table_file (with_listing env (filter is_pdf names)))
    with (cfg_table_file env).
  destruct (cfg_table_file env) as [table_file|e]; [|reflexivity].
  rewrite !bind_lift.
  change (read_csv (with_listing env names)) with (read_csv env).
  change (read_csv (with_listing env (filter is_pdf names))) with (read_csv env).
  destruct (read_csv env table_file) as [df|e]; [|reflexivity].
  unfold log at 1 4. rewrite !bind_emit. cbv beta. rewrite !bind_lift.
  change (cfg_directories (with_listing env names)) with (cfg_directories env).
  change (cfg_directories (with_listing env (filter is_pdf names)))
    with (cfg_directories env).
  destruct (cfg_directories env) as [dirs|e]; [|reflexivity].
  rewrite !bind_makedirs.
  change (makedirs_fault (with_listing env names)) with (makedirs_fault env).
  change (makedirs_fault (with_listing env (filter is_pdf names)))
    with (makedirs_fault env).
  destruct (makedirs_fault env (grouped_directory dirs)); [reflexivity|].
  destruct (makedirs_fault env (processed_directory dirs)); [reflexivity|].
  cbv beta. rewrite !bind_lift.
  change (listdir (with_listing env names) (pdf_directory dirs))
    with (Value (A:=list string) names).
  change (listdir (with_listing env (filter is_pdf names)) (pdf_directory dirs))
    with (Value (A:=list string) (filter is_pdf names)).
  cbv iota beta. rewrite Hidem. reflexivity.
Qed.

Lemma staged_of_pdf (env : Env) (dirs : Directories) (df : DataFrame)
  (names : list string) (pan : string) (email : value) (path : string) :
  In (Some (pan, email, path)) (results_of env dirs df names) ->
  exists f, In f names /\ is_pdf f = true /\
            path = Path.join (Path.join (grouped_directory dirs) [pan]) [f].
Proof.
  unfold results_of. intros Hin.
  apply in_map_iff in Hin as (f & Hc & Hf).
  apply filter_In in Hf as [Hf Hpdf].
  apply classified_some in Hc as (_ & _ & _ & ->).
  exists f. now repeat split.
Qed.

(** C10. The names submitted to classification are exactly the directory
    entries whose lower-cased name ends with [.pdf]; every other entry is
    ignored: the run, its result and all its effects (records, copies,
    messages, moves), is the same as on the listing without those entries,
    and the same for any two listings with the same such names; and in a
    run every file copied, attached or moved is, or is the staged copy of,
    such an entry. *)
Theorem only_pdf_names_matter (fuel : nat) (env : Env) (names : list string)
  (w : World) :
  (forall f, In f (filter is_pdf names) <->
             In f names /\ exists stem, Str.lower f = (stem ++ ".pdf")%string) /\
  (main fuel (with_listing env names) w
   = main fuel (with_listing env (filter is_pdf names)) w) /\
  (forall names', filter is_pdf names' = filter is_pdf names ->
     main fuel (with_listing env names') w = main fuel (with_listing env names) w) /\
  (forall dirs df email_config eg pf t0,
     2 <= fuel -> setup env dirs df names email_config ->
     group_results (results_of env dirs df names) = Value (eg, pf) ->
     let evs := events (snd (main fuel env (start t0))) in
     let staged pan f :=
       Path.join (Path.join (grouped_directory dirs) [pan]) [f] in
     (forall src dst, In (CopyFile src dst) evs ->
        exists f, In f names /\ is_pdf f = true /\
                  src = Path.join (pdf_directory dirs) [f]) /\
     (forall email attachments delivered path,
        In (SmtpAttempt email attachments delivered) evs ->
        In path attachments ->
        exists f pan, In f names /\ is_pdf f = true /\ path = staged pan f) /\
     (forall src dst, In (MoveFile src dst) evs ->
        exists f pan, In f names /\ is_pdf f = true /\ src = staged pan f)).
Proof.
  split; [|split; [|split]].
  - intros f. rewrite filter_In, is_pdf_spec. reflexivity.
  - apply main_listing.
  - intros names' H. now rewrite (main_listing fuel env names'), H, <- main_listing.
  - intros dirs df email_config eg pf t0 Hfuel Hsetup Hgroup evs staged.
    destruct (main_loop_events fuel env dirs df names email_config eg pf t0
                Hfuel Hsetup Hgroup)
      as (r & loop & _ & Hshape & Hloop & _ & _ & Honly).
    fold evs in Hloop, Honly.
    assert (Hmember : forall email atts path,
               In (email, atts) eg -> In path atts ->
               exists f pan, In f names /\ is_pdf f = true /\ path = staged pan f).
    { intros email atts path Hg Hp.
      destruct (group_members _ _ _ _ _ _ Hgroup Hg Hp) as [pan Ht].
      destruct (staged_of_pdf _ _ _ _ _ _ _ Ht) as (f & Hf & Hpdf & ->).
      now exists f, pan. }
    split; [|split].
    + intros src dst Hin. destruct (Honly src dst Hin) as (f & Hf & ->).
      apply filter_In in Hf as [Hf Hpdf]. now exists f.
    + intros email attachments delivered path Hin Hp.
      apply Hloop in Hin; [|reflexivity].
      destruct (shape_attempt _ _ _ _ _ _ _ _ _ Hshape Hin) as [Hg _].
      exact (Hmember email attachments path Hg Hp).
    + intros src dst Hin. apply Hloop in Hin; [|reflexivity].
      destruct (shape_moved _ _ _ _ _ _ _ _ Hshape Hin)
        as (email & atts & Hg & _ & Hs & _).
      apply movable_incl in Hs as [Hs _].
      exact (Hmember email atts src Hg Hs).
Qed.

Lemma only_pdf_names_matter_witness :
  main 2 (with_listing Demo.env ["notes.txt"; "A.pdf"; "photo.pdf.jpg"; "B.PDF"])
       (start 0)
  = main 2 (with_listing Demo.env ["A.pdf"; "B.PDF"; "pdf"]) (start 0) /\
  (forall src dst,
      In (MoveFile src dst) (events (snd (main 2 Demo.env (start 0)))) ->
      exists f pan, In f Demo.names /\ is_pdf f = true /\
                    src = Path.join (Path.join "staging" [pan]) [f]).
Proof.
  destruct (only_pdf_names_matter 2 Demo.env ["A.pdf"; "B.PDF"; "pdf"] (start 0))
    as (_ & _ & H & _).
  destruct (only_pdf_names_matter 2 Demo.env Demo.names (start 0))
    as (_ & _ & _ & H').
  split.
  - apply H. reflexivity.
  - destruct (H' Demo.dirs Demo.df Demo.email_config Demo.groups Demo.owners 0%Z)
      as (_ & _ & Hm).
    + lia.
    + apply demo_setup. exact demo_names.
    + reflexivity.
    + exact Hm.
Defined.

Example is_pdf_examples :
  map is_pdf ["a.pdf"; "A.PDF"; "b.Pdf"; ".pdf"; "a.pdf.txt"; "pdf"; "a.pdf "]
  = [true; true; true; true; false; false; false].
Proof. reflexivity. Qed.

(* ================================================================== *)
(** * Part III: further properties of the script                      *)
(* ================================================================== *)

(** ** Resolution on a table that lacks a column *)

Lemma column_absent (df : DataFrame) (name : string) :
  ~ In name (columns df) -> column df name = Error (KeyError name).
Proof.
  intros H. unfold column.
  destruct (existsb (String.eqb name) (columns df)) eqn:E; [|reflexivity].
  apply existsb_exists in E as (x & Hx & Ex).
  apply String.eqb_eq in Ex. subst x. contradiction.
Qed.

(** X1. A table without the [PAN] column, or without the [eMail ID] column,
    resolves nothing: the lookup returns [None] and does not raise.  The
    [KeyError] is logged when the [PAN] column is missing, and, when only
    the [eMail ID] column is missing, when a row carries the identifier;
    a lookup that matches no row is silent. *)
Theorem get_email_for_pan_missing_column (pan : string) (df : DataFrame)
  (w : World) :
  (~ In "PAN" (columns df) ->
   get_email_for_pan pan df w
   = (Ok None, record [Log ERROR (ErrorGettingEmail pan (KeyError "PAN"))] w)) /\
  (In "PAN" (columns df) -> ~ In "eMail ID" (columns df) ->
   ((exists r, In r (rows df) /\ PAN r = pan) ->
    get_email_for_pan pan df w
    = (Ok None,
       record [Log ERROR (ErrorGettingEmail pan (KeyError "eMail ID"))] w)) /\
   ((forall r, In r (rows df) -> PAN r <> pan) ->
    get_email_for_pan pan df w = (Ok None, w))).
Proof.
  split.
  - intros Hpan. unfold get_email_for_pan, try_except, bind, lift.
    rewrite (column_absent _ _ Hpan). reflexivity.
  - intros Hpan Hmail.
    unfold get_email_for_pan, try_except, bind, lift.
    rewrite (column_present _ _ Hpan), (column_absent _ _ Hmail).
    cbn [res_of_reply]. split.
    + intros Hrow.
      destruct (first_split (fun r => String.eqb (PAN r) pan) (rows df))
        as (before & x & after & Hrows & Hx & Hb).
      { destruct Hrow as (r & Hin & Hr). exists r.
        split; [exact Hin | now apply String.eqb_eq]. }
      rewrite Hrows, (filter_first _ before x after Hx Hb). reflexivity.
    + intros Hnone.
      rewrite (filter_none (fun r => String.eqb (PAN r) pan) (rows df)).
      * reflexivity.
      * intros r Hr. apply String.eqb_neq. now apply Hnone.
Qed.

Lemma get_email_for_pan_missing_column_witness :
  get_email_for_pan "ABCDE1234F" Cases.df_no_pan_column (start 0)
  = (Ok None,
     record [Log ERROR (ErrorGettingEmail "ABCDE1234F" (KeyError "PAN"))]
            (start 0)) /\
  get_email_for_pan "ABCDE1234F" Cases.df_no_email_column (start 0)
  = (Ok None,
     record [Log ERROR (ErrorGettingEmail "ABCDE1234F" (KeyError "eMail ID"))]
            (start 0)) /\
  get_email_for_pan "ZZZZZ9999Z" Cases.df_no_email_column (start 0)
  = (Ok None, start 0).
Proof.
  destruct (get_email_for_pan_missing_column "ABCDE1234F"
              Cases.df_no_pan_column (start 0)) as [H0 _].
  destruct (get_email_for_pan_missing_column "ABCDE1234F"
              Cases.df_no_email_column (start 0)) as [_ H1].
  destruct (get_email_for_pan_missing_column "ZZZZZ9999Z"
              Cases.df_no_email_column (start 0)) as [_ H2].
  split; [|split].
  - apply H0. simpl. intros [H|[H|[]]]; discriminate.
  - apply H1.
    + simpl. tauto.
    + simpl. intros [H|[H|[]]]; discriminate.
    + exists (mkRow "ABCDE1234F" "a@x.com"). split; [now left | reflexivity].
  - apply H2.
    + simpl. tauto.
    + simpl. intros [H|[H|[]]]; discriminate.
    + intros r Hr. simpl in Hr.
      repeat (destruct Hr as [<-|Hr]; [simpl; discriminate|]). destruct Hr.
Defined.

(** ** What classifying one document leaves behind *)

Lemma extract_pan_from_pdf_found (env : Env) (pdf_path pan : string) (w : World) :
  extracted env pdf_path = Some pan ->
  extract_pan_from_pdf env pdf_path w = (Ok (Some pan), w).
Proof.
  unfold extracted, extract_pan_from_pdf, try_except, bind, lift, ret.
  destruct (pdf_pages env pdf_path) as [pages|e]; [|discriminate].
  cbn [res_of_reply]. now intros ->.
Qed.

Lemma extract_pan_from_pdf_missed (env : Env) (pdf_path : string) (w : World) :
  extracted env pdf_path = None ->
  exists r lvl,
    extract_pan_from_pdf env pdf_path w = (Ok None, record [Log lvl r] w) /\
    lvl <> INFO.
Proof.
  unfold extracted, extract_pan_from_pdf, try_except, bind, lift, ret, log.
  destruct (pdf_pages env pdf_path) as [pages|e]; cbn [res_of_reply].
  - intros ->. rewrite emit_record. eexists _, _. split; [reflexivity | discriminate].
  - intros _. rewrite emit_record. eexists _, _. split; [reflexivity | discriminate].
Qed.

Lemma get_email_for_pan_found (pan : string)
  (email : value) (df : DataFrame) (w : World) :
  resolved df pan = Some email ->
  get_email_for_pan pan df w = (Ok (Some email), w).
Proof.
  unfold resolved, get_email_for_pan, try_except, bind, lift, ret.
  destruct (column df "PAN") as [[]|e]; [|discriminate]. cbn [res_of_reply].
  destruct (filter _ (rows df)) as [|r l]; [discriminate|].
  destruct (column df "eMail ID") as [[]|e]; [|discriminate]. cbn [res_of_reply].
  now intros H; injection H as <-.
Qed.

(** X2. [process_pdf] never raises, and what it leaves behind tells its
    result.  When it returns a triple it has made the staging directory of
    the identifier and copied the document into it, in that order, and has
    logged nothing.  When it returns [None] it has copied nothing and has
    logged at least one warning or error; a staging directory has been made
    in that case only when the identifier was found and resolved to an
    address cell that is true (a non-empty string, or the [nan] of an empty
    cell), that is, when the failure came from the file system. *)
Theorem process_pdf_effects (env : Env) (pdf_dir output_dir : string)
  (df : DataFrame) (pdf_file : string) (w : World) :
  let pdf_path := Path.join pdf_dir [pdf_file] in
  exists evs,
    process_pdf env pdf_dir output_dir df pdf_file w
    = (Ok (classified env pdf_dir output_dir df pdf_file), record evs w) /\
    (forall pan email path,
        classified env pdf_dir output_dir df pdf_file = Some (pan, email, path) ->
        evs = [CopyFile pdf_path path; MakeDirs (Path.join output_dir [pan])]) /\
    (classified env pdf_dir output_dir df pdf_file = None ->
     (forall src dst, ~ In (CopyFile src dst) evs) /\
     (exists lvl r, In (Log lvl r) evs /\ lvl <> INFO) /\
     (forall dir, In (MakeDirs dir) evs ->
        exists pan email,
          extracted env pdf_path = Some pan /\ resolved df pan = Some email /\
          truthy email = true /\ dir = Path.join output_dir [pan])).
Proof.
  intros pdf_path. unfold process_pdf, classified, try_except. fold pdf_path.
  unfold bind at 1.
  destruct (extracted env pdf_path) as [pan|] eqn:E.
  - rewrite (extract_pan_from_pdf_found env pdf_path pan w E).
    rewrite (is_pan_nonempty pan (extracted_is_pan _ _ _ E)). cbn [andb].
    unfold bind at 1.
    destruct (resolved df pan) as [email|] eqn:R.
    + rewrite (get_email_for_pan_found pan email df w R).
      destruct (truthy email) eqn:T.
      2:{ unfold bind, log, ret.
          rewrite emit_record. eexists. split; [reflexivity|].
          split; [discriminate|]. intros _. split; [|split].
          - intros src dst [H|[]]. discriminate.
          - eexists _, _. split; [now left | discriminate].
          - intros dir [H|[]]. discriminate. }
      * unfold bind at 1, makedirs, fs_call, raise, lift.
        destruct (makedirs_fault env (Path.join output_dir [pan])) as [x|];
          cbn [res_of_reply].
        -- unfold bind, log, ret. rewrite emit_record.
           eexists. split; [reflexivity|]. split; [discriminate|].
           intros _. split; [|split].
           ++ intros src dst [H|[]]. discriminate.
           ++ eexists _, _. split; [now left | discriminate].
           ++ intros dir [H|[]]. discriminate.
        -- rewrite emit_record. unfold bind at 1, copy, fs_call, raise, lift.
           destruct (copy_fault env pdf_path _) as [x|]; cbn [res_of_reply].
           ++ unfold bind, log, ret. rewrite emit_record, record_record.
              eexists. split; [reflexivity|]. split; [discriminate|].
              intros _. split; [|split].
              ** intros src dst [H|[H|[]]]; discriminate.
              ** eexists _, _. split; [now left | discriminate].
              ** intros dir [H|[H|[]]]; [discriminate|].
                 injection H as <-. exists pan, email.
                 split; [first [exact E | reflexivity]|].
                 split; [first [exact R | reflexivity]|].
                 split; [exact T | reflexivity].
           ++ rewrite emit_record, record_record. unfold ret.
              eexists. split; [reflexivity|]. split; [|discriminate].
              intros pan' email' path' H. now injection H as <- <- <-.
    + destruct (get_email_for_pan_run pan df w) as (ev2 & Hrun & L2).
      rewrite Hrun. rewrite R. unfold bind, log, ret.
      rewrite emit_record, record_record.
      eexists. split; [reflexivity|]. split; [discriminate|].
      intros _. split; [|split].
      * intros src dst [H|H]; [discriminate|].
        exact (log_events_no_copy _ _ _ L2 H).
      * eexists _, _. split; [now left | discriminate].
      * intros dir [H|H]; [discriminate|]. exfalso.
        rewrite forallb_forall in L2. specialize (L2 _ H). discriminate.
  - destruct (extract_pan_from_pdf_missed env pdf_path w E)
      as (r & lvl & Hrun & Hlvl).
    rewrite Hrun. unfold bind, log, ret. rewrite emit_record, record_record.
    eexists. split; [reflexivity|]. split; [discriminate|].
    intros _. split; [|split].
    + intros src dst [H|[H|[]]]; discriminate.
    + eexists _, _. split; [now left | discriminate].
    + intros dir [H|[H|[]]]; discriminate.
Qed.

Example process_pdf_copy_fault :
  process_pdf Cases.env_copy_fault "in" "staging" Demo.df "A.pdf" (start 0)
  = (Ok None,
     record [Log ERROR (ErrorProcessing "A.pdf" (OSError "staging/ABCDE1234F/A.pdf"));
             MakeDirs "staging/ABCDE1234F"] (start 0)).
Proof. reflexivity. Qed.

(** ** The order and the size of the groups *)

Section GroupOrder.

Context {K : Type} {key_of_K : Key K}.

Lemma dict_mem_keys (k : K) (d : dict K) :
  dict_mem k d = existsb (key_eqb k) (map fst d).
Proof.
  unfold dict_mem. induction d as [|[k' l] d IH]; [reflexivity|].
  simpl. now rewrite IH.
Qed.

Lemma filter_filter {A} (f g : A -> bool) (l : list A) :
  filter f (filter g l) = filter (fun y => g y && f y) l.
Proof.
  induction l as [|a l IH]; [reflexivity|]. simpl.
  destruct (g a); simpl; [destruct (f a); now rewrite IH | exact IH].
Qed.

Lemma fresh_for_snoc (keys : list K) (x y : K) :
  fresh_for (keys ++ [x]) y = negb (key_eqb y x) && fresh_for keys y.
Proof.
  unfold fresh_for. rewrite existsb_app. simpl.
  destruct (existsb (key_eqb y) keys), (key_eqb y x); reflexivity.
Qed.

Lemma filter_fresh_nil (l : list K) : filter (fresh_for []) l = l.
Proof. apply (filter_true l). Qed.

Lemma first_occurrences_step (keys : list K) (x : K)
  (rest : list K) :
  (keys ++ filter (fresh_for keys) [x])
    ++ filter (fresh_for (keys ++ filter (fresh_for keys) [x])) rest
  = keys ++ filter (fresh_for keys)
                   (x :: filter (fun y => negb (key_eqb y x)) rest).
Proof.
  cbn [filter]. destruct (fresh_for keys x) eqn:F.
  - rewrite <- app_assoc. cbn [app]. f_equal. f_equal.
    rewrite filter_filter. apply filter_ext. intros y. apply fresh_for_snoc.
  - rewrite app_nil_r. f_equal.
    rewrite filter_filter. apply filter_ext. intros y.
    destruct (key_eqb_spec y x) as [->|Hne]; [now rewrite F | reflexivity].
Qed.

Lemma touch_keys (k : K) (v : string) (d d' : dict K) :
  touch k v d = Value d' ->
  map fst d' = map fst d ++ filter (fresh_for (map fst d)) [k].
Proof.
  unfold touch. cbn [filter]. unfold fresh_for. rewrite <- dict_mem_keys.
  rewrite dict_mem_get.
  destruct (dict_get k d) as [l|] eqn:E; cbn [negb]; intros H.
  - destruct (dict_append_present k v l d E) as (d0 & Hd0 & Hkeys & _).
    rewrite Hd0 in H. injection H as <-. now rewrite Hkeys, app_nil_r.
  - rewrite (dict_set_new k [] d E) in H.
    assert (E' : dict_get k (d ++ [(k, [])]) = Some []).
    { rewrite dict_get_app, E. simpl. now rewrite key_eqb_refl. }
    destruct (dict_append_present k v [] _ E') as (d0 & Hd0 & Hkeys & _).
    rewrite Hd0 in H. injection H as <-. now rewrite Hkeys, map_app.
Qed.

Lemma total_paths_app (d1 d2 : dict K) :
  total_paths (d1 ++ d2) = total_paths d1 + total_paths d2.
Proof.
  unfold total_paths. now rewrite map_app, concat_app, length_app.
Qed.

Lemma dict_append_total (k : K) (v : string) (d d' : dict K) :
  dict_append k v d = Value d' -> total_paths d' = S (total_paths d).
Proof.
  revert d'. induction d as [|[k0 l0] d IH]; intros d'; simpl; [discriminate|].
  destruct (key_eqb k k0).
  - intros H. injection H as <-. unfold total_paths. simpl.
    rewrite !length_app. simpl. lia.
  - destruct (dict_append k v d) as [d0|e]; [|discriminate].
    intros H. injection H as <-. specialize (IH d0 eq_refl).
    unfold total_paths in *. simpl. rewrite !length_app. lia.
Qed.

Lemma touch_total (k : K) (v : string) (d d' : dict K) :
  touch k v d = Value d' -> total_paths d' = S (total_paths d).
Proof.
  unfold touch. rewrite dict_mem_get.
  destruct (dict_get k d) as [l|] eqn:E; cbn [negb]; intros H.
  - exact (dict_append_total _ _ _ _ H).
  - rewrite (dict_set_new k [] d E) in H.
    rewrite (dict_append_total _ _ _ _ H), total_paths_app.
    unfold total_paths at 2. simpl. lia.
Qed.

End GroupOrder.

Lemma group_fold_order (results : list (option triple))
  (eg : dict value) (pf : dict string) (eg' : dict value)
  (pf' : dict string) :
  fold_left group_step results (Value (eg, pf)) = Value (eg', pf') ->
  map fst eg'
  = map fst eg ++ filter (fresh_for (map fst eg))
                         (first_occurrences (map email_of (present results))) /\
  map fst pf'
  = map fst pf ++ filter (fresh_for (map fst pf))
                         (first_occurrences (map pan_of (present results))) /\
  total_paths eg' = total_paths eg + List.length (present results) /\
  total_paths pf' = total_paths pf + List.length (present results).
Proof.
  revert eg pf. induction results as [|r results IH]; intros eg pf.
  - cbn [fold_left present flat_map map first_occurrences filter].
    intros H. injection H as <- <-. rewrite !app_nil_r.
    cbn [List.length]. rewrite !Nat.add_0_r. split; [reflexivity|].
    split; [reflexivity|]. split; reflexivity.
  - cbn [fold_left]. destruct r as [[[pan email] path]|].
    + rewrite group_step_touch.
      destruct (touch email path eg) as [eg1|e] eqn:T1.
      2:{ intros H. exfalso. clear -H.
          induction results as [|r results IH]; [discriminate|].
          cbn [fold_left] in H. destruct r; exact (IH H). }
      destruct (touch pan path pf) as [pf1|e] eqn:T2.
      2:{ intros H. exfalso. clear -H.
          induction results as [|r results IH]; [discriminate|].
          cbn [fold_left] in H. destruct r; exact (IH H). }
      intros H. destruct (IH eg1 pf1 H) as (K1 & K2 & N1 & N2).
      rewrite (touch_keys _ _ _ _ T1) in K1.
      rewrite (touch_keys _ _ _ _ T2) in K2.
      rewrite (touch_total _ _ _ _ T1) in N1.
      rewrite (touch_total _ _ _ _ T2) in N2.
      change (present (Some (pan, email, path) :: results))
        with ((pan, email, path) :: present results).
      cbn [map first_occurrences List.length].
      change (email_of (pan, email, path)) with email.
      change (pan_of (pan, email, path)) with pan.
      rewrite <- !first_occurrences_step.
      repeat split; [exact K1 | exact K2 | lia | lia].
    + intros H. exact (IH eg pf H).
Qed.


(** X3. Grouping never raises.  The keys of each dictionary are the
    addresses (identifiers) of the present results in the order of their
    first occurrence, which is the order in which recipients are later
    called; the list under a key holds the paths of the results carrying
    that key in the order of the results; and no path is lost or added:
    each dictionary holds as many paths as there are present results. *)
Theorem grouping_order_and_size (results : list (option triple)) :
  exists eg pf,
    group_results results = Value (eg, pf) /\
    map fst eg = first_occurrences (map email_of (present results)) /\
    map fst pf = first_occurrences (map pan_of (present results)) /\
    (forall k l, dict_get k eg = Some l -> l = paths_by email_of k results) /\
    (forall k l, dict_get k pf = Some l -> l = paths_by pan_of k results) /\
    total_paths eg = List.length (present results) /\
    total_paths pf = List.length (present results).
Proof.
  destruct (group_results_spec results) as (eg & pf & H & Heg & Hpf & _).
  exists eg, pf. split; [exact H|].
  destruct (group_fold_order results [] [] eg pf H) as (K1 & K2 & N1 & N2).
  cbn [map app] in K1, K2.
  rewrite filter_fresh_nil in K1. rewrite filter_fresh_nil in K2.
  split; [exact K1|]. split; [exact K2|].
  split; [intros k l Hl; rewrite Heg in Hl; now apply extend_none_in in Hl|].
  split; [intros k l Hl; rewrite Hpf in Hl; now apply extend_none_in in Hl|].
  split; [exact N1 | exact N2].
Qed.

Example grouping_order_demo :
  group_results
    [Some ("PQRST5678U", Str "b@x.com", "p1"); None;
     Some ("ABCDE1234F", Str "a@x.com", "p2");
     Some ("PQRST5678U", Str "b@x.com", "p3");
     Some ("LMNOP0000Q", Str "a@x.com", "p4")]
  = Value ([(Str "b@x.com", ["p1"; "p3"]); (Str "a@x.com", ["p2"; "p4"])],
           [("PQRST5678U", ["p1"; "p3"]); ("ABCDE1234F", ["p2"]);
            ("LMNOP0000Q", ["p4"])]).
Proof. reflexivity. Qed.

(** ** What a call costs: attempts, seconds, and the outcome *)

Section Accounting.

Variables (env : Env) (email : value) (attachments : list string)
  (email_config : EmailConfig).

Lemma n_attempts_app (a b : list event) :
  n_attempts (a ++ b) = n_attempts a + n_attempts b.
Proof. unfold n_attempts. now rewrite filter_app, length_app. Qed.


Lemma deliveries_to_app (x : value) (a b : list event) :
  deliveries_to x (a ++ b) = deliveries_to x a + deliveries_to x b.
Proof. unfold deliveries_to. now rewrite filter_app, length_app. Qed.

Lemma retry_loop_accounting (max_retries : nat) (base_delay : Z)
  (n first : nat) (w : World) :
  (0 <= base_delay)%Z ->
  let j := failures_before env email attachments email_config (smtp_calls w) n in
  let ok := j <? n in
  let used := j + (if ok then 1 else 0) in
  exists w' new,
    retry_loop env email attachments email_config max_retries base_delay
               (seq first n) w = (Ok ok, w') /\
    trace w' = new ++ trace w /\
    smtp_calls w' = smtp_calls w + used /\
    n_attempts (map snd new) = used /\
    clock w'
    = (clock w
       + base_delay * (2 ^ Z.of_nat (first + j) - 2 ^ Z.of_nat first)
       + busy env email attachments email_config (smtp_calls w) used)%Z /\
    hd_error (map snd new)
    = Some (if ok then Log INFO (EmailSent email (List.length attachments))
            else Log ERROR (FailedToSend email max_retries)) /\
    (ok = false ->
     exists older,
       map snd new = Log ERROR (FailedToSend email max_retries) :: older /\
       (n = 0 -> older = []) /\
       (0 < n ->
        exists older',
          older
          = Slept (base_delay * 2 ^ Z.of_nat (first + n - 1))%Z :: older')) /\
    Forall (call_event email attachments) (map snd new) /\
    deliveries_to email (map snd new) = (if ok then 1 else 0).
Proof.
  intros Hbase. revert first w. induction n as [|n IH]; intros first w.
  - cbn [failures_before seq retry_loop Nat.ltb Nat.leb Nat.add busy].
    unfold bind, log, ret. rewrite emit_record.
    eexists. eexists [_]. split; [reflexivity|].
    cbn [record trace smtp_calls clock map app snd hd_error].
    rewrite !Nat.add_0_r.
    split; [reflexivity|]. split; [reflexivity|]. split; [reflexivity|].
    split; [lia|]. split; [reflexivity|].
    split; [intros _; exists []; split; [reflexivity|];
            split; [reflexivity | lia]|].
    split; [repeat constructor | reflexivity].
  - cbn [failures_before seq retry_loop]. unfold delivered_at.
    unfold bind at 1. unfold try_except.
    unfold bind at 1. unfold smtp_send at 1.
    destruct (smtp env (smtp_calls w) email attachments email_config)
      as [[[]|e] secs] eqn:Hs.
    + cbn [res_of_reply fst]. unfold bind, log, ret. rewrite emit_record.
      cbn [Nat.ltb Nat.leb Nat.add busy]. rewrite Hs.
      eexists. eexists [_; _]. split; [reflexivity|].
      cbn [record trace smtp_calls clock map app snd hd_error].
      rewrite !Nat.add_0_r.
      split; [reflexivity|]. split; [lia|]. split; [reflexivity|].
      split; [lia|]. split; [reflexivity|]. split; [discriminate|].
      split; [repeat constructor|].
      unfold deliveries_to. cbn [filter snd]. now rewrite key_eqb_refl.
    + cbn [res_of_reply fst]. unfold bind at 1, log at 1. rewrite emit_record.
      unfold bind at 1, sleep.
      assert (Hd : (base_delay * 2 ^ Z.of_nat first <? 0)%Z = false).
      { apply Z.ltb_ge. apply Z.mul_nonneg_nonneg; [exact Hbase|].
        apply Z.pow_nonneg. lia. }
      rewrite Hd. unfold ret.
      match goal with
      | |- context [retry_loop _ _ _ _ _ _ _ ?w0] =>
          destruct (IH (S first) w0)
            as (w' & new & Hrun & Htr & Hsc & Hna & Hclk & Hhd & Hlast
                & Hcall & Hdel)
      end.
      cbn [trace clock smtp_calls record] in *.
      set (j := failures_before env email attachments email_config
                                (S (smtp_calls w)) n) in *.
      change (S j <? S n) with (j <? n).
      rewrite Hrun. exists w'. eexists (new ++ [_; _; _]).
      split; [reflexivity|].
      split; [rewrite Htr, <- app_assoc; reflexivity|].
      split; [rewrite Hsc; lia|].
      split; [rewrite map_app, n_attempts_app, Hna; cbn; lia|].
      split.
      * rewrite Hclk. cbn [Nat.add busy]. rewrite Hs. cbn [snd].
        rewrite ?Nat.add_succ_r, ?Nat.add_succ_l, !Nat2Z.inj_succ.
        rewrite !Z.pow_succ_r by lia. ring.
      * split; [destruct new as [|x new]; [discriminate | exact Hhd]|].
        split; [|split].
        -- intros Hok. destruct (Hlast Hok) as (older & Hnew & Hzero & Hpos).
           rewrite map_app, Hnew. eexists. split; [reflexivity|].
           split; [discriminate|]. intros _.
           destruct n as [|n].
           ++ rewrite (Hzero eq_refl). eexists. cbn [app map snd].
              do 3 f_equal. f_equal. lia.
           ++ destruct Hpos as (older' & ->); [lia|]. eexists. cbn [app].
              do 3 f_equal. f_equal. lia.
        -- rewrite map_app. apply Forall_app. split; [exact Hcall|].
           repeat constructor.
        -- rewrite map_app, deliveries_to_app, Hdel. cbn [map snd].
           unfold deliveries_to. cbn [filter snd map].
           rewrite andb_false_r. cbn. lia.
Qed.

End Accounting.

(** X4. The outcome and the cost of the undecorated sending function are
    fixed by the server: with [j] the number of failed attempts before the
    first delivered one (at most [MAX_RETRIES]), the function returns
    [True] exactly when [j < MAX_RETRIES]; it makes [j] attempts, plus the
    delivered one; it takes [2^j - 1] seconds of sleep, plus the time of
    the server; and its last effect is the record of the delivery or of
    the failure.  A call that fails has made [MAX_RETRIES] attempts and
    slept 31 seconds, the last 16 of them after the final attempt. *)
Theorem send_attempts_accounting (env : Env) (email : value)
  (attachments : list string) (email_config : EmailConfig) (w : World) :
  let j := failures_before env email attachments email_config (smtp_calls w)
                           MAX_RETRIES in
  let ok := j <? MAX_RETRIES in
  let used := j + (if ok then 1 else 0) in
  exists w' new,
    send_attempts env email attachments email_config w = (Ok ok, w') /\
    trace w' = new ++ trace w /\
    smtp_calls w' = smtp_calls w + used /\
    n_attempts (map snd new) = used /\
    clock w'
    = (clock w + BASE_DELAY * (2 ^ Z.of_nat j - 1)
       + busy env email attachments email_config (smtp_calls w) used)%Z /\
    hd_error (map snd new)
    = Some (if ok then Log INFO (EmailSent email (List.length attachments))
            else Log ERROR (FailedToSend email MAX_RETRIES)) /\
    (ok = false ->
     used = MAX_RETRIES /\
     clock w'
     = (clock w + 31
        + busy env email attachments email_config (smtp_calls w) MAX_RETRIES)%Z /\
     exists older,
       map snd new
       = Log ERROR (FailedToSend email MAX_RETRIES) :: Slept 16 :: older).
Proof.
  intros j ok used.
  destruct (retry_loop_accounting env email attachments email_config
              MAX_RETRIES BASE_DELAY MAX_RETRIES 0 w)
    as (w' & new & Hrun & Htr & Hsc & Hna & Hclk & Hhd & Hlast & _);
    [unfold BASE_DELAY; lia|].
  fold j in Hrun, Hsc, Hna, Hclk, Hhd, Hlast.
  fold ok in Hrun, Hsc, Hna, Hclk, Hhd, Hlast.
  fold used in Hsc, Hna, Hclk.
  exists w', new. split; [exact Hrun|]. split; [exact Htr|].
  split; [exact Hsc|]. split; [exact Hna|].
  split; [rewrite Hclk; cbn [Nat.add]; change (2 ^ Z.of_nat 0)%Z with 1%Z;
          reflexivity|].
  split; [exact Hhd|].
  intros Hok.
  assert (Hj : j = MAX_RETRIES).
  { assert (Hle : j <= MAX_RETRIES).
    { unfold j. generalize (smtp_calls w). generalize MAX_RETRIES.
      intros n. induction n as [|n IHn]; intros c; cbn [failures_before];
        [lia|].
      destruct (delivered_at env email attachments email_config c);
        [lia | specialize (IHn (S c)); lia]. }
    unfold ok in Hok. apply Nat.ltb_ge in Hok. lia. }
  assert (Hused : used = MAX_RETRIES).
  { unfold used. rewrite Hok. lia. }
  split; [exact Hused|].
  split; [rewrite Hclk, Hused, Hj; reflexivity|].
  destruct (Hlast Hok) as (older & Hnew & _ & Hpos).
  destruct Hpos as (older' & ->); [unfold MAX_RETRIES; lia|].
  exists older'. exact Hnew.
Qed.

(** ** The run as a whole *)

Lemma events_record (evs : list event) (w : World) :
  events (record evs w) = evs ++ events w.
Proof.
  unfold events, record. cbn [trace]. rewrite map_app, map_map. cbn [snd].
  now rewrite map_id.
Qed.

Lemma limiter_ok_staging (evs : list event) (w : World) :
  forallb staging_event evs = true ->
  limiter_ok CALLS_PER_MINUTE PERIOD w ->
  limiter_ok CALLS_PER_MINUTE PERIOD (record evs w).
Proof.
  intros Hs Hok. apply limiter_ok_record; [|exact Hok].
  now apply staging_no_entered.
Qed.

(** How the run ends, from any state in which the limiter is sound. *)
Lemma main_ends (fuel : nat) (env : Env) (w : World) :
  2 <= fuel ->
  limiter_ok CALLS_PER_MINUTE PERIOD w ->
  exists w' new,
    main fuel env w = (Ok tt, w') /\
    trace w' = new ++ trace w /\
    ((exists n older,
         map snd new
         = Log INFO ExecutionCompleted :: Log INFO (FinishedProcessing n)
             :: older) \/
     (exists e older, map snd new = Log ERROR (ScriptError e) :: older)).
Proof.
  intros Hfuel Hok.
  assert (Hfail : forall e evs,
            exists w' new,
              log ERROR (ScriptError e) (record evs w) = (Ok tt, w') /\
              trace w' = new ++ trace w /\
              ((exists n older,
                   map snd new
                   = Log INFO ExecutionCompleted
                       :: Log INFO (FinishedProcessing n) :: older) \/
               (exists e older,
                   map snd new = Log ERROR (ScriptError e) :: older))).
  { intros e evs. unfold log. rewrite emit_record, record_record.
    eexists. exists (map (pair (clock w)) ([Log ERROR (ScriptError e)] ++ evs)).
    split; [reflexivity|]. split; [reflexivity|].
    right. exists e, evs. rewrite map_map. cbn [snd]. now rewrite map_id. }
  unfold main, try_except.
  rewrite bind_lift. destruct (cfg_table_file env) as [table_file|e].
  2:{ generalize (Hfail e []). rewrite record_nil. intros H. exact H. }
  rewrite bind_lift. destruct (read_csv env table_file) as [df|e].
  2:{ generalize (Hfail e []). rewrite record_nil. intros H. exact H. }
  unfold bind at 1, log at 1. rewrite emit_record.
  rewrite bind_lift. destruct (cfg_directories env) as [dirs|e];
    [|apply Hfail].
  rewrite bind_makedirs.
  destruct (makedirs_fault env (grouped_directory dirs)) as [e|];
    [apply Hfail|].
  rewrite record_record, bind_makedirs.
  destruct (makedirs_fault env (processed_directory dirs)) as [e|];
    [apply Hfail|].
  rewrite record_record, bind_lift.
  destruct (listdir env (pdf_directory dirs)) as [names|e]; [|apply Hfail].
  unfold bind at 1.
  match goal with
  | |- context [classify env ?pd ?gd df ?files ?w0] =>
      destruct (classify_run env pd gd df files w0)
        as (ev1 & Hc & Hs1 & _ & _)
  end.
  rewrite Hc, record_record, bind_lift.
  match goal with
  | |- context [group_results ?rs] =>
      destruct (group_results_spec rs) as (eg & pf & -> & _)
  end.
  rewrite bind_lift. destruct (cfg_email env) as [email_config|e];
    [|apply Hfail].
  unfold bind at 1.
  match goal with
  | |- context [for_each eg _ ?w0] => set (w1 := w0)
  end.
  assert (Hok1 : limiter_ok CALLS_PER_MINUTE PERIOD w1).
  { apply limiter_ok_staging; [|exact Hok]. now rewrite forallb_app, Hs1. }
  destruct (dispatch_loop_run env fuel Hfuel (processed_directory dirs)
              email_config pf eg w1 Hok1) as (r & loop & w2 & -> & Htr & _ & Hshape).
  destruct (loop_shape_result _ _ _ _ _ _ Hshape) as [->|[e ->]].
  - unfold bind, log. rewrite !emit_record, record_record.
    eexists. eexists.
    split; [reflexivity|].
    split; [cbn [record trace]; rewrite Htr; unfold w1; cbn [record trace];
            rewrite !app_assoc; reflexivity|].
    left. do 2 eexists. rewrite !map_app. cbn [map app snd]. reflexivity.
  - unfold log. rewrite emit_record.
    eexists. eexists.
    split; [reflexivity|].
    split; [cbn [record trace]; rewrite Htr; unfold w1; cbn [record trace];
            rewrite !app_assoc; reflexivity|].
    right. do 2 eexists. rewrite !map_app. cbn [map app snd]. reflexivity.
Qed.

(** X5. Whatever the configuration, the table, the file system and the
    server do, no exception leaves [main]: the run returns, and its last
    log record is either the summary followed by the completion record, or
    the record of the exception that ended it. *)
Theorem main_never_raises (fuel : nat) (env : Env) (t0 : Z) :
  2 <= fuel ->
  fst (main fuel env (start t0)) = Ok tt /\
  ((exists n older,
       events (snd (main fuel env (start t0)))
       = Log INFO ExecutionCompleted :: Log INFO (FinishedProcessing n)
           :: older) \/
   (exists e older,
       events (snd (main fuel env (start t0)))
       = Log ERROR (ScriptError e) :: older)).
Proof.
  intros Hfuel.
  destruct (main_ends fuel env (start t0) Hfuel
              (limiter_ok_start CALLS_PER_MINUTE PERIOD t0))
    as (w' & new & Hrun & Htr & Hend).
  rewrite Hrun. cbn [fst snd]. split; [reflexivity|].
  unfold events. rewrite Htr. cbn [start trace]. rewrite app_nil_r.
  exact Hend.
Qed.

Lemma main_never_raises_witness :
  fst (main 2 Demo.env_move_fault (start 0)) = Ok tt /\
  ((exists n older,
       events (snd (main 2 Demo.env_move_fault (start 0)))
       = Log INFO ExecutionCompleted :: Log INFO (FinishedProcessing n)
           :: older) \/
   (exists e older,
       events (snd (main 2 Demo.env_move_fault (start 0)))
       = Log ERROR (ScriptError e) :: older)).
Proof.
  apply (main_never_raises 2 Demo.env_move_fault 0). lia.
Defined.

(** X6. When the configuration, the table, one of the two directories or
    the listing of the source directory fails, the run ends at once with
    the record of that exception, and it has touched no document: it has
    only logged and made directories, so nothing was copied, sent or
    moved. *)
Theorem early_failure_touches_nothing (fuel : nat) (env : Env) (t0 : Z)
  (e : exn) :
  setup_fault env = Some e ->
  fst (main fuel env (start t0)) = Ok tt /\
  hd_error (events (snd (main fuel env (start t0))))
  = Some (Log ERROR (ScriptError e)) /\
  forallb harmless_event (events (snd (main fuel env (start t0)))) = true.
Proof.
  intros Hfault.
  assert (Hrun : exists evs,
             main fuel env (start t0)
             = (Ok tt, record (Log ERROR (ScriptError e) :: evs) (start t0)) /\
             forallb harmless_event evs = true).
  { revert Hfault. generalize (start t0). intros w.
    assert (Hlog : forall evs,
               log ERROR (ScriptError e) (record evs w)
               = (Ok tt, record (Log ERROR (ScriptError e) :: evs) w)).
    { intros evs. unfold log. now rewrite emit_record, record_record. }
    unfold setup_fault, main, try_except.
    rewrite bind_lift. destruct (cfg_table_file env) as [table_file|e0].
    2:{ intros H. injection H as ->. exists []. split; reflexivity. }
    rewrite bind_lift. destruct (read_csv env table_file) as [df|e0].
    2:{ intros H. injection H as ->. exists []. split; reflexivity. }
    unfold bind at 1, log at 1. rewrite emit_record.
    rewrite bind_lift. destruct (cfg_directories env) as [dirs|e0].
    2:{ intros H. injection H as ->. eexists. split; [apply Hlog|].
        reflexivity. }
    rewrite bind_makedirs.
    destruct (makedirs_fault env (grouped_directory dirs)) as [e0|].
    1:{ intros H. injection H as ->. eexists. split; [apply Hlog|].
        reflexivity. }
    rewrite record_record, bind_makedirs.
    destruct (makedirs_fault env (processed_directory dirs)) as [e0|].
    1:{ intros H. injection H as ->. eexists. split; [apply Hlog|].
        reflexivity. }
    rewrite record_record, bind_lift.
    destruct (listdir env (pdf_directory dirs)) as [names|e0]; [discriminate|].
    intros H. injection H as ->. eexists. split; [apply Hlog|]. reflexivity. }
  destruct Hrun as (evs & -> & Hevs). cbn [fst snd].
  rewrite events_record. cbn [start events trace map]. rewrite app_nil_r.
  split; [reflexivity|]. split; [reflexivity|].
  cbn [forallb harmless_event]. exact Hevs.
Qed.

Lemma early_failure_touches_nothing_witness :
  fst (main 0 (with_listing_fault Demo.env) (start 0)) = Ok tt /\
  hd_error (events (snd (main 0 (with_listing_fault Demo.env) (start 0))))
  = Some (Log ERROR (ScriptError (OSError "in"))) /\
  forallb harmless_event
    (events (snd (main 0 (with_listing_fault Demo.env) (start 0)))) = true.
Proof.
  apply (early_failure_touches_nothing 0 (with_listing_fault Demo.env) 0
           (OSError "in")).
  reflexivity.
Defined.

(** X7. The [Email] section of the configuration is read only after every
    document has been classified and copied.  When it is faulty, the run
    ends with the record of that exception after staging is complete: every
    classified document has its copy in the staging directory, and nothing
    was sent or moved. *)
Theorem email_config_read_after_staging (fuel : nat) (env : Env)
  (dirs : Directories) (df : DataFrame) (names : list string) (e : exn)
  (t0 : Z) :
  setup_without_email env dirs df names e ->
  let evs := events (snd (main fuel env (start t0))) in
  fst (main fuel env (start t0)) = Ok tt /\
  hd_error evs = Some (Log ERROR (ScriptError e)) /\
  forallb staging_event evs = true /\
  (forall t, In (Some t) (results_of env dirs df names) ->
     (exists src, In (CopyFile src (path_of t)) evs) /\
     on_disk evs (path_of t) = true).
Proof.
  intros [(table & Hfile & Htable) Hdirs Hgd Hpd Hlist Hmail] evs.
  assert (Hrun : exists staging,
             main fuel env (start t0)
             = (Ok tt, record (Log ERROR (ScriptError e) :: staging) (start t0)) /\
             forallb staging_event staging = true /\
             forall t, In (Some t) (results_of env dirs df names) ->
                       exists src, In (CopyFile src (path_of t)) staging).
  { unfold main, try_except.
    rewrite bind_lift, Hfile, bind_lift, Htable.
    unfold bind at 1, log at 1. rewrite emit_record.
    rewrite bind_lift, Hdirs, bind_makedirs, Hgd, record_record.
    rewrite bind_makedirs, Hpd, record_record, bind_lift, Hlist.
    unfold bind at 1.
    match goal with
    | |- context [classify env ?pd ?gd df ?files ?w0] =>
        destruct (classify_run env pd gd df files w0)
          as (ev1 & Hc & Hs1 & Hcopy & _)
    end.
    rewrite Hc, record_record, bind_lift.
    fold (results_of env dirs df names) in Hcopy |- *.
    destruct (group_results_spec (results_of env dirs df names))
      as (eg & pf & -> & _).
    rewrite bind_lift, Hmail. unfold log. rewrite emit_record, record_record.
    eexists. split; [reflexivity|].
    split; [now rewrite forallb_app, Hs1|].
    intros t Ht. destruct (Hcopy t Ht) as [src Hsrc]. exists src.
    apply in_or_app. now left. }
  destruct Hrun as (staging & Hrun & Hst & Hcopy).
  subst evs. rewrite Hrun. cbn [fst snd]. rewrite events_record.
  cbn [start events trace map]. rewrite app_nil_r.
  split; [reflexivity|]. split; [reflexivity|].
  split; [cbn [forallb staging_event]; exact Hst|].
  intros t Ht. destruct (Hcopy t Ht) as [src Hsrc].
  assert (Hin : exists src0,
             In (CopyFile src0 (path_of t))
                (Log ERROR (ScriptError e) :: staging)).
  { exists src. now right. }
  split; [exact Hin|].
  apply on_disk_kept; [exact Hin|].
  intros dst [Hd|Hd]; [discriminate|].
  assert (Hs : staging_event (MoveFile (path_of t) dst) = true).
  { rewrite forallb_forall in Hst. exact (Hst _ Hd). }
  discriminate.
Qed.

Lemma email_config_read_after_staging_witness :
  let evs := events (snd (main 0 Cases.env_no_subject (start 0))) in
  fst (main 0 Cases.env_no_subject (start 0)) = Ok tt /\
  hd_error evs = Some (Log ERROR (ScriptError (KeyError "subject"))) /\
  forallb staging_event evs = true /\
  (forall t, In (Some t) (results_of Cases.env_no_subject Demo.dirs Demo.df
                                     Demo.names) ->
     (exists src, In (CopyFile src (path_of t)) evs) /\
     on_disk evs (path_of t) = true).
Proof.
  apply (email_config_read_after_staging 0 Cases.env_no_subject Demo.dirs Demo.df
           Demo.names (KeyError "subject") 0).
  constructor; try reflexivity.
  exists "table.csv". split; reflexivity.
Defined.

(** ** Where archived documents go *)

Lemma basename_after_sep (pre f : string) :
  Str.contains f Path.sep = false ->
  Path.basename (pre ++ Path.sep ++ f) = f.
Proof.
  intros Hf. induction pre as [|c pre IH].
  - change (("" ++ Path.sep ++ f)%string) with (String "/"%char f).
    cbn [Path.basename]. now rewrite Hf.
  - change ((String c pre ++ Path.sep ++ f)%string)
      with (String c (pre ++ Path.sep ++ f)).
    cbn [Path.basename].
    assert (Hc : Str.contains (pre ++ Path.sep ++ f) Path.sep = true).
    { apply StrFacts.contains_spec. now exists pre, f. }
    now rewrite Hc.
Qed.

Lemma basename_staged (dir pan f : string) :
  is_pan pan = true -> Str.contains f Path.sep = false ->
  Path.basename (Path.join (Path.join dir [pan]) [f]) = f.
Proof.
  intros Hpan Hf.
  rewrite (staged_path dir pan f Hpan (no_sep_startswith f Hf)).
  rewrite <- StrFacts.append_assoc. now apply basename_after_sep.
Qed.

(** X8. The archive mirrors the staging directory: every move of the run
    takes the staged copy [grouped/PAN/name] of a listed PDF name, whose
    recipient's call returned [True], to [processed/PAN/name], with the
    same identifier and the same name; and two moves with the same
    destination have the same source, so no archived document is replaced
    by another one of the run. *)
Theorem archive_mirrors_staging (fuel : nat) (env : Env) (dirs : Directories)
  (df : DataFrame) (names : list string) (email_config : EmailConfig)
  (t0 : Z) :
  2 <= fuel ->
  setup env dirs df names email_config ->
  let evs := events (snd (main fuel env (start t0))) in
  (forall src dst, In (MoveFile src dst) evs ->
     exists f pan email,
       In f names /\ is_pdf f = true /\
       classified env (pdf_directory dirs) (grouped_directory dirs) df f
       = Some (pan, email, src) /\
       src = Path.join (Path.join (grouped_directory dirs) [pan]) [f] /\
       dst = Path.join (Path.join (processed_directory dirs) [pan]) [f] /\
       In (Returned email true) evs) /\
  (forall src1 src2 dst,
     In (MoveFile src1 dst) evs -> In (MoveFile src2 dst) evs -> src1 = src2).
Proof.
  intros Hfuel Hsetup evs.
  destruct (group_results_spec (results_of env dirs df names))
    as (eg & pf & Hgroup & _).
  destruct (main_loop_events fuel env dirs df names email_config eg pf t0
              Hfuel Hsetup Hgroup)
    as (r & loop & _ & Hshape & Hloop & _).
  fold evs in Hloop.
  assert (Hstaged : well_staged (grouped_directory dirs)
                                (results_of env dirs df names)).
  { apply classified_well_staged. intros f Hf.
    apply filter_In in Hf as [Hf _].
    apply no_sep_startswith. exact (setup_names _ _ _ _ _ Hsetup f Hf). }
  assert (Hmove : forall src dst, In (MoveFile src dst) evs ->
            exists f pan email,
              In f names /\ is_pdf f = true /\
              classified env (pdf_directory dirs) (grouped_directory dirs) df f
              = Some (pan, email, src) /\
              is_pan pan = true /\ Str.contains f Path.sep = false /\
              src = Path.join (Path.join (grouped_directory dirs) [pan]) [f] /\
              dst = Path.join (Path.join (processed_directory dirs) [pan]) [f] /\
              In (Returned email true) evs).
  { intros src dst Hin. apply Hloop in Hin; [|reflexivity].
    destruct (shape_moved _ _ _ _ _ _ _ _ Hshape Hin)
      as (email & atts & Hg & Hret & Hs & Hdst).
    apply movable_incl in Hs as [Hs _].
    destruct (owner_unique _ _ _ _ Hstaged Hgroup email atts src Hg Hs)
      as (pan & files & Hown & _ & _ & Hres & _).
    unfold results_of in Hres. apply in_map_iff in Hres as (f & Hcl & Hf).
    apply filter_In in Hf as [Hf Hpdf].
    destruct (classified_some _ _ _ _ _ _ _ _ Hcl) as (Hex & _ & _ & Hpath).
    pose proof (extracted_is_pan _ _ _ Hex) as Hpan.
    pose proof (setup_names _ _ _ _ _ Hsetup f Hf) as Hsep.
    exists f, pan, email.
    split; [exact Hf|]. split; [exact Hpdf|]. split; [exact Hcl|].
    split; [exact Hpan|]. split; [exact Hsep|]. split; [exact Hpath|].
    split; [|apply Hloop; [reflexivity | exact Hret]].
    rewrite Hdst. unfold destination. rewrite Hown, Hpath.
    now rewrite basename_staged. }
  split.
  - intros src dst Hin.
    destruct (Hmove src dst Hin)
      as (f & pan & email & Hf & Hpdf & Hcl & _ & _ & Hsrc & Hdst & Hret).
    now exists f, pan, email.
  - intros src1 src2 dst H1 H2.
    destruct (Hmove src1 dst H1)
      as (f1 & pan1 & _ & _ & _ & _ & Hp1 & Hs1 & -> & Hd1 & _).
    destruct (Hmove src2 dst H2)
      as (f2 & pan2 & _ & _ & _ & _ & Hp2 & Hs2 & -> & Hd2 & _).
    rewrite Hd1 in Hd2.
    rewrite (staged_path _ _ _ Hp1 (no_sep_startswith _ Hs1)) in Hd2.
    rewrite (staged_path _ _ _ Hp2 (no_sep_startswith _ Hs2)) in Hd2.
    destruct (staged_path_inj _ _ _ _ _ Hp1 Hp2 Hd2) as [-> ->].
    reflexivity.
Qed.

Lemma archive_mirrors_staging_witness :
  let evs := events (snd (main 2 Demo.env (start 0))) in
  (forall src dst, In (MoveFile src dst) evs ->
     exists f pan email,
       In f Demo.names /\ is_pdf f = true /\
       classified Demo.env "in" "staging" Demo.df f = Some (pan, email, src) /\
       src = Path.join (Path.join "staging" [pan]) [f] /\
       dst = Path.join (Path.join "processed" [pan]) [f] /\
       In (Returned email true) evs) /\
  (forall src1 src2 dst,
     In (MoveFile src1 dst) evs -> In (MoveFile src2 dst) evs -> src1 = src2).
Proof.
  apply (archive_mirrors_staging 2 Demo.env Demo.dirs Demo.df Demo.names
           Demo.email_config 0).
  - lia.
  - apply demo_setup. exact demo_names.
Defined.

(** ** The order of the calls *)











Example demo_call_order :
  returned_order (events (snd (main 2 Demo.env (start 0))))
  = [Str "a@x.com"; Str "b@x.com"] /\
  returned_order (events (snd (main 2 Demo.env_move_fault (start 0))))
  = [Str "a@x.com"].
Proof. split; reflexivity. Qed.

(** The documents whose address cell is empty form a group of their own,
    keyed by the [nan] of the cell, and that group is called like any
    other, in its turn; the summary counts it.  Cells that hold one and the
    same [nan] make one group, cells with a [nan] each make a group each. *)
Example address_less_rows_are_called :
  let evs := events (snd (main 2 (Demo.env_nan Demo.df_nan) (start 0))) in
  let evs' :=
    events (snd (main 2 (Demo.env_nan Demo.df_nan_apart) (start 0))) in
  returned_order evs = [nan 0; Str "b@x.com"] /\
  firstn 2 evs
  = [Log INFO ExecutionCompleted; Log INFO (FinishedProcessing 2)] /\
  attempts_to (nan 0) evs = 5 /\
  returned_order evs' = [nan 0; Str "b@x.com"; nan 1] /\
  firstn 2 evs'
  = [Log INFO ExecutionCompleted; Log INFO (FinishedProcessing 3)].
Proof. vm_compute. repeat split. Qed.

(** ** What is sent to whom *)



(** ** When the run completes, and what the summary counts *)




Example summary_when_nothing_is_delivered :
  let evs := events (snd (main 2 Demo.env_smtp_down (start 0))) in
  firstn 2 evs
  = [Log INFO ExecutionCompleted; Log INFO (FinishedProcessing 2)] /\
  returned_order evs = [Str "a@x.com"; Str "b@x.com"] /\
  forallb (fun e => match e with
                    | Returned _ ok => negb ok
                    | SmtpAttempt _ _ delivered => negb delivered
                    | MoveFile _ _ => false
                    | _ => true
                    end) evs = true.
Proof. repeat split. Qed.

(** ** A call under the limiter is the call itself, made later *)


(** ** Every recipient is served at most once *)














Section Counting.

Variables (env : Env) (fuel : nat).
Hypothesis enough_fuel : 2 <= fuel.
Variables (processed_dir : string) (email_config : EmailConfig)
  (pan_to_files : dict string).



End Counting.




(** ** Staging comes first *)

(** X14. A run that is set up stages every document before it sends
    anything: its events split into an older part, which only logs, makes
    directories and copies, and a newer part without any copy.  So every
    copy into the staging directory precedes every SMTP attempt, every
    return of a call and every move. *)
Theorem staging_precedes_dispatch (fuel : nat) (env : Env)
  (dirs : Directories) (df : DataFrame) (names : list string)
  (email_config : EmailConfig) (t0 : Z) :
  2 <= fuel ->
  setup env dirs df names email_config ->
  exists newer older,
    events (snd (main fuel env (start t0))) = newer ++ older /\
    forallb staging_event older = true /\
    (forall src dst, ~ In (CopyFile src dst) newer) /\
    (forall e, In e (events (snd (main fuel env (start t0)))) ->
       staging_event e = false -> In e newer).
Proof.
  intros Hfuel Hsetup.
  destruct (group_results_spec (results_of env dirs df names))
    as (eg & pf & Hgroup & _).
  destruct (main_events fuel env dirs df names email_config eg pf t0
              Hfuel Hsetup Hgroup)
    as (r & closing & loop & staging & _ & Hevs & (Hst & _) & Hshape & Hcl & _).
  exists (closing ++ loop), staging.
  split; [now rewrite Hevs, app_assoc|]. split; [exact Hst|]. split.
  - intros src dst Hi. apply in_app_or in Hi as [Hi|Hi].
    + rewrite Hcl in Hi. destruct r as [[]|e|]; simpl in Hi;
        repeat (destruct Hi as [Hi|Hi]; [discriminate|]); destruct Hi.
    + exact (shape_no_copy _ _ _ _ _ _ _ _ Hshape Hi).
  - intros e Hi He. rewrite Hevs, app_assoc in Hi.
    apply in_app_or in Hi as [Hi|Hi]; [exact Hi|].
    rewrite forallb_forall in Hst. rewrite (Hst e Hi) in He. discriminate.
Qed.

Lemma staging_precedes_dispatch_witness :
  exists newer older,
    events (snd (main 2 Demo.env (start 0))) = newer ++ older /\
    forallb staging_event older = true /\
    (forall src dst, ~ In (CopyFile src dst) newer) /\
    (forall e, In e (events (snd (main 2 Demo.env (start 0)))) ->
       staging_event e = false -> In e newer).
Proof.
  apply (staging_precedes_dispatch 2 Demo.env Demo.dirs Demo.df Demo.names
           Demo.email_config 0).
  - lia.
  - apply demo_setup. exact demo_names.
Defined.

(** ** No staged copy replaces another *)

(** X15. Distinct documents of the source directory are staged at distinct
    paths: two different listed names that are both classified get
    different staged paths, so no staged copy is overwritten by another
    document. *)
Theorem staged_copies_distinct (env : Env) (pdf_dir grouped_dir : string)
  (df : DataFrame) (f1 f2 : string) (t1 t2 : triple) :
  Str.contains f1 Path.sep = false ->
  Str.contains f2 Path.sep = false ->
  classified env pdf_dir grouped_dir df f1 = Some t1 ->
  classified env pdf_dir grouped_dir df f2 = Some t2 ->
  f1 <> f2 ->
  path_of t1 <> path_of t2.
Proof.
  intros Hs1 Hs2 Hc1 Hc2 Hne Hpath.
  destruct t1 as [[pan1 email1] path1], t2 as [[pan2 email2] path2].
  change (path1 = path2) in Hpath.
  destruct (classified_some _ _ _ _ _ _ _ _ Hc1) as (He1 & _ & _ & Hp1).
  destruct (classified_some _ _ _ _ _ _ _ _ Hc2) as (He2 & _ & _ & Hp2).
  pose proof (extracted_is_pan _ _ _ He1) as Hpan1.
  pose proof (extracted_is_pan _ _ _ He2) as Hpan2.
  rewrite (staged_path _ _ _ Hpan1 (no_sep_startswith _ Hs1)) in Hp1.
  rewrite (staged_path _ _ _ Hpan2 (no_sep_startswith _ Hs2)) in Hp2.
  rewrite Hp1, Hp2 in Hpath.
  destruct (staged_path_inj _ _ _ _ _ Hpan1 Hpan2 Hpath) as [_ Hf].
  exact (Hne Hf).
Qed.

Lemma staged_copies_distinct_witness :
  path_of ("ABCDE1234F", Str "a@x.com", "staging/ABCDE1234F/A.pdf")
  <> path_of ("LMNOP0000Q", Str "a@x.com", "staging/LMNOP0000Q/C.pdf").
Proof.
  apply (staged_copies_distinct Demo.env "in" "staging" Demo.df
           "A.pdf" "C.pdf"
           ("ABCDE1234F", Str "a@x.com", "staging/ABCDE1234F/A.pdf")
           ("LMNOP0000Q", Str "a@x.com", "staging/LMNOP0000Q/C.pdf"));
    first [reflexivity | discriminate].
Defined.
